(** * Naamrot converter: the text engine of app.js, embedded and verified

    The engine rewrites English text into the "Naamrot" spelling.  This file
    embeds the engine of [app.js] function by function and proves properties
    of it.  The repository holds two copies of the engine; the statements
    are about the copy with the IR, AY, SN and SW rules, and the loops over
    tokens and text, which the copies share, are treated once for both.

    Conventions of the embedding.
    - A JavaScript string is the list of its UTF-16 code units ([N]).  The
      case mappings of the built-ins [toUpperCase] and [toLowerCase] are
      written out for Basic Latin and the Latin-1 Supplement (U+0000 to
      U+00FF); code units from U+0100 on are left unchanged by the model.
      [Array.from(str)] cuts a string into code points and the model into
      code units: the two agree on strings without surrogate pairs.  Every
      word-part that [convertText] hands on holds ASCII letters only, and
      there the model is exact; for arrays with code units from U+0100 on,
      some of which JavaScript upper-cases to ASCII letters (U+017F to S,
      U+FB01 to FI), the statements describe the model.
    - Arrays of segments are lists; [Array.prototype.splice] is written out
      with its clamping of negative and oversized arguments.
    - Reading a property of [undefined] ([segs[i].ch] with [i] out of range)
      raises a TypeError in JavaScript: such reads return [Throw] here, and
      the functions that perform them live in the [completion] monad.
    - The in-place mutation of the one segment array is explicit state
      passing: every stage returns the array it leaves behind. *)

From Stdlib Require Import ZArith NArith Lia Ascii Bool.
From stdpp Require Import base tactics option list numbers strings gmap.

Local Open Scope N_scope.

(** ** Strings *)

Abbreviation char := N (only parsing).
Abbreviation jsstring := (list N) (only parsing).

(** A string literal of the source, as code units. *)
Definition str (s : string) : jsstring :=
  N_of_ascii <$> String.list_ascii_of_string s.
Arguments str : simpl never.

Fixpoint streq (a b : jsstring) : bool :=
  match a, b with
  | [], [] => true
  | x :: a', y :: b' => (x =? y) && streq a' b'
  | _, _ => false
  end.

(** [String.prototype.toUpperCase] on one code unit. *)
Definition upperCp (c : char) : jsstring :=
  if (97 <=? c) && (c <=? 122) then [c - 32]
  else if c =? 181 then [924]
  else if c =? 223 then [83; 83]
  else if (224 <=? c) && (c <=? 254) && negb (c =? 247) then [c - 32]
  else if c =? 255 then [376]
  else [c].

(** [String.prototype.toLowerCase] on one code unit. *)
Definition lowerCp (c : char) : jsstring :=
  if (65 <=? c) && (c <=? 90) then [c + 32]
  else if (192 <=? c) && (c <=? 222) && negb (c =? 215) then [c + 32]
  else [c].

Definition toUpperCase (s : jsstring) : jsstring := s ≫= upperCp.
Definition toLowerCase (s : jsstring) : jsstring := s ≫= lowerCp.

(** [s.endsWith(suf)] and [s.startsWith(pre)]. *)
Definition endsWith (s suf : jsstring) : bool :=
  (length suf <=? length s)%nat && streq (drop (length s - length suf) s) suf.
Definition startsWith (s pre : jsstring) : bool :=
  streq (take (length pre) s) pre.

(** [s.slice(a, b)] and [s.slice(a)] for non-negative indices. *)
Definition slice (s : jsstring) (a b : nat) : jsstring := take (b - a) (drop a s).
Definition sliceFrom (s : jsstring) (a : nat) : jsstring := drop a s.

(** ** Completions: a value, a thrown TypeError, or an exhausted loop bound *)

Inductive completion (A : Type) : Type :=
| Normal (a : A)
| Throw
| Diverge.
Arguments Normal {A} a.
Arguments Throw {A}.
Arguments Diverge {A}.

Definition bind {A B} (m : completion A) (k : A -> completion B) : completion B :=
  match m with
  | Normal a => k a
  | Throw => Throw
  | Diverge => Diverge
  end.

Declare Scope js_scope.
Delimit Scope js_scope with js.
Notation "'let*' x ':=' m 'in' k" := (bind m (fun x => k))
  (at level 10, x pattern, m at level 100, k at level 200) : js_scope.
Local Open Scope js_scope.

(** [for (let i = from; i < from + n; i++) body(i)] over a state. *)
Fixpoint forLoop {St : Type} (body : nat -> St -> completion St)
    (from n : nat) (s : St) : completion St :=
  match n with
  | O => Normal s
  | S n' => let* s' := body from s in forLoop body (S from) n' s'
  end.

(** [for (const x of xs) body(x)] over a state. *)
Fixpoint forOf {A St : Type} (body : St -> A -> completion St)
    (xs : list A) (s : St) : completion St :=
  match xs with
  | [] => Normal s
  | x :: xs' => let* s' := body s x in forOf body xs' s'
  end.

(** [xs.map(f)] for an [f] that may throw. *)
Fixpoint mapC {A B : Type} (f : A -> completion B) (xs : list A) : completion (list B) :=
  match xs with
  | [] => Normal []
  | x :: xs' => let* y := f x in let* ys := mapC f xs' in Normal (y :: ys)
  end.

(** ** Constants of the engine *)

Definition VOWELS : list jsstring := [str "A"; str "E"; str "I"; str "O"; str "U"].
Definition SWAPPABLE : list jsstring := [str "A"; str "E"; str "I"].

(** [set.has(x)] for a set of strings. *)
Definition has (set : list jsstring) (x : jsstring) : bool := existsb (streq x) set.

(** [Array.prototype.sort] is stable: an element moves behind the elements to
    its right only while the comparator puts it strictly after them. *)
Fixpoint insertBy {A} (cmp : A -> A -> Z) (x : A) (l : list A) : list A :=
  match l with
  | [] => [x]
  | y :: l' => if (0 <? cmp x y)%Z then y :: insertBy cmp x l' else x :: l
  end.
Definition sortBy {A} (cmp : A -> A -> Z) (l : list A) : list A :=
  foldr (fun x acc => insertBy cmp x acc) [] l.

Definition PROTECTED_SUFFIXES : list jsstring :=
  sortBy (fun a b => (Z.of_nat (length b) - Z.of_nat (length a))%Z)
    [ str "SHAN";
      str "MENT"; str "TION"; str "ING"; str "ED"; str "ER"; str "LY"; str "NESS";
      str "ABLE"; str "IBLE"; str "OUS"; str "IVE"; str "AL"; str "ITY" ].

(** ** Segments *)

Record seg : Type := Seg { ch : char; origin : bool }.

Definition segFromString (s : jsstring) (o : bool) : list seg :=
  (fun c => Seg c o) <$> s.
Definition segToString (segs : list seg) : jsstring := ch <$> segs.

(** [segs.splice(start, end - start, ...insertSegs)]. *)
Definition spliceSegs (segs : list seg) (start end_ : Z) (insertSegs : list seg) : list seg :=
  let len := Z.of_nat (length segs) in
  let actualStart := if (start <? 0)%Z then Z.max (len + start) 0 else Z.min start len in
  let deleteCount := Z.min (Z.max (end_ - start) 0) (len - actualStart) in
  take (Z.to_nat actualStart) segs ++ insertSegs
    ++ drop (Z.to_nat (actualStart + deleteCount)) segs.

(** [segs[i]] when a property of it is read next. *)
Definition segAt (segs : list seg) (i : nat) : completion seg :=
  match segs !! i with
  | Some s => Normal s
  | None => Throw
  end.

Definition chUpper (c : char) : jsstring := toUpperCase [c].

Definition isLetter (c : char) : bool :=
  ((65 <=? c) && (c <=? 90)) || ((97 <=? c) && (c <=? 122)).
Definition isConsonantLetter (c : char) : bool :=
  let u := chUpper c in
  isLetter c && negb (has VOWELS u).

(** ** Exceptions *)

(** The patterns of the table all have the shape [/^(a1|...|an)$/i]: an
    anchored alternation of literal words, matched ignoring case. *)
Inductive regExp : Type :=
| AnchoredWords (alternatives : list jsstring).

(** [Canonicalize] of a pattern without the unicode flag and with [i]. *)
Definition canonicalize (c : char) : char :=
  match upperCp c with
  | [u] => if (128 <=? c) && (u <? 128) then c else u
  | _ => c
  end.

Definition matchesWord (word part : jsstring) : bool :=
  streq (canonicalize <$> word) (canonicalize <$> part).

(** [wordPart.match(re)] is truthy. *)
Definition regExpMatch (re : regExp) (wordPart : jsstring) : bool :=
  match re with
  | AnchoredWords alts => existsb (fun w => matchesWord w wordPart) alts
  end.

(** [out] is a string or a function of the matched word-part. *)
Inductive exOut : Type :=
| OutString (s : jsstring)
| OutFunction (f : jsstring -> jsstring).

Inductive exception : Type :=
| literal (match_ : jsstring) (out : exOut)
| regex (re : regExp) (out : exOut).

Definition rx (words : list string) (out : string) : exception :=
  regex (AnchoredWords (str <$> words)) (OutString (str out)).

Definition EXCEPTIONS : list exception :=
  [ rx ["very"] "WELL";
    rx ["well"] "WELL";
    rx ["you"; "your"] "YA";
    rx ["the"] "THA";
    rx ["for"] "FA";
    rx ["please"] "PALEASE";
    rx ["deadline"] "DODLINE";
    rx ["mistakes"] "MOSTAKES";
    rx ["aminur"] "AMINAH";
    rx ["date"] "DATE";
    rx ["name"] "NAME";
    rx ["set"] "SOT" ].

Record exResult : Type := ExResult { hit : bool; out : jsstring }.

Definition evalOut (o : exOut) (wordPart : jsstring) : jsstring :=
  match o with
  | OutString s => s
  | OutFunction f => f wordPart
  end.

(** Whether one entry of the table matches the word-part. *)
Definition exMatches (ex : exception) (wordPart : jsstring) : bool :=
  match ex with
  | literal m _ => streq (toLowerCase wordPart) (toLowerCase m)
  | regex re _ => regExpMatch re wordPart
  end.

Definition exOutOf (ex : exception) : exOut :=
  match ex with
  | literal _ o => o
  | regex _ o => o
  end.

Fixpoint applyExceptionsIn (table : list exception) (wordPart : jsstring) : exResult :=
  match table with
  | [] => ExResult false wordPart
  | ex :: rest =>
      if exMatches ex wordPart
      then ExResult true (evalOut (exOutOf ex) wordPart)
      else applyExceptionsIn rest wordPart
  end.

Definition applyExceptions (wordPart : jsstring) : exResult :=
  applyExceptionsIn EXCEPTIONS wordPart.

(** ** Protected suffix *)

Definition protectedSuffixStartIndex (segs : list seg) : nat :=
  let upper := toUpperCase (segToString segs) in
  match List.find (endsWith upper) PROTECTED_SUFFIXES with
  | Some suf => (length upper - length suf)%nat
  | None => length upper
  end.

(** ** Suffix rules *)

Definition len (segs : list seg) : Z := Z.of_nat (length segs).

Definition applyEndingAH (segs : list seg) : list seg * bool :=
  let s := toUpperCase (segToString segs) in
  if endsWith s (str "ER") || endsWith s (str "UR") then
    (spliceSegs segs (len segs - 2) (len segs) (segFromString (str "AH") false), true)
  else if endsWith s (str "A") then
    (spliceSegs segs (len segs - 1) (len segs) (segFromString (str "AH") false), true)
  else (segs, false).

(** The loop shared by [replaceAllERWithAH] and [replaceAllIRWithAR]:
    [for (let i = ...; i < segs.length - 1; i++)], replacing the pair
    [first],[second] at [i] by [ins] and then skipping one more index. *)
Fixpoint replacePairLoop (first second ins : jsstring)
    (fuel i : nat) (segs : list seg) : completion (list seg) :=
  if (Z.of_nat i <? len segs - 1)%Z then
    match fuel with
    | O => Diverge
    | S fuel' =>
        let* sa := segAt segs i in
        let a := chUpper (ch sa) in
        let* sb := segAt segs (i + 1) in
        let b := chUpper (ch sb) in
        if streq a first && streq b second then
          replacePairLoop first second ins fuel' (i + 1 + 1)
            (spliceSegs segs (Z.of_nat i) (Z.of_nat i + 2) (segFromString ins false))
        else replacePairLoop first second ins fuel' (i + 1) segs
    end
  else Normal segs.

Definition replaceAllERWithAH (segs : list seg) : completion (list seg) :=
  replacePairLoop (str "E") (str "R") (str "AH") (length segs) 0 segs.

Definition replaceAllIRWithAR (segs : list seg) : completion (list seg) :=
  replacePairLoop (str "I") (str "R") (str "AR") (length segs) 0 segs.

Definition replaceEndingTION (segs : list seg) : list seg * bool :=
  let s := toUpperCase (segToString segs) in
  if endsWith s (str "TION") && (4 <=? len segs)%Z then
    (spliceSegs segs (len segs - 4) (len segs) (segFromString (str "SHAN") false), true)
  else (segs, false).

Definition replaceEndingTY (segs : list seg) : list seg * bool :=
  let s := toUpperCase (segToString segs) in
  if endsWith s (str "TY") && (2 <=? len segs)%Z then
    (spliceSegs segs (len segs - 2) (len segs) (segFromString (str "TEH") false), true)
  else (segs, false).

Definition replaceEndingAY (segs : list seg) : list seg * bool :=
  let s := toUpperCase (segToString segs) in
  if endsWith s (str "AY") && (2 <=? len segs)%Z then
    (spliceSegs segs (len segs - 2) (len segs) (segFromString (str "AEH") false), true)
  else (segs, false).

Definition replaceEndingLY (segs : list seg) : list seg :=
  let s := toUpperCase (segToString segs) in
  if endsWith s (str "LEY") && (3 <=? len segs)%Z then
    spliceSegs segs (len segs - 3) (len segs) (segFromString (str "LEH") false)
  else if endsWith s (str "LY") && (2 <=? len segs)%Z then
    spliceSegs segs (len segs - 2) (len segs) (segFromString (str "LEH") false)
  else segs.

Definition replaceEndingYToEH (segs : list seg) : list seg * bool :=
  let s := toUpperCase (segToString segs) in
  if endsWith s (str "LY") || endsWith s (str "LEY") || endsWith s (str "TY") then
    (segs, false)
  else if endsWith s (str "Y") && (1 <=? len segs)%Z then
    (spliceSegs segs (len segs - 1) (len segs) (segFromString (str "EH") false), true)
  else (segs, false).

(** ** Prefix rules *)

Definition replaceStartingSWWithSAW (segs : list seg) : completion (list seg) :=
  if (2 <=? len segs)%Z then
    let* s0 := segAt segs 0 in
    let a := chUpper (ch s0) in
    let* s1 := segAt segs 1 in
    let b := chUpper (ch s1) in
    if streq a (str "S") && streq b (str "W")
    then Normal (spliceSegs segs 0 2 (segFromString (str "SAW") false))
    else Normal segs
  else Normal segs.

Definition replaceStartingSNWithSAN (segs : list seg) : completion (list seg) :=
  if (2 <=? len segs)%Z then
    let* s0 := segAt segs 0 in
    let a := chUpper (ch s0) in
    let* s1 := segAt segs 1 in
    let b := chUpper (ch s1) in
    if streq a (str "S") && streq b (str "N")
    then Normal (spliceSegs segs 0 2 (segFromString (str "SAN") false))
    else Normal segs
  else Normal segs.

Definition applyPrefixREToRO (segs : list seg) : completion (list seg) :=
  let s := segToString segs in
  let lower := toLowerCase s in
  if streq lower (str "re") then Normal segs
  else if startsWith lower (str "re") && (3 <=? length s)%nat then
    match s !! 2%nat with
    | None => Throw
    | Some c =>
        let third := chUpper c in
        if has VOWELS third
        then Normal (spliceSegs segs 0 2 (segFromString (str "ro") false))
        else Normal segs
    end
  else Normal segs.

(** ** Consonant insert rules *)

Definition applyClusterInsertions (segs : list seg) : completion (list seg) :=
  let* first :=
    if (3 <=? len segs)%Z then
      let* s0 := segAt segs 0 in
      let* s1 := segAt segs 1 in
      let* s2 := segAt segs 2 in
      let c2 := chUpper (ch s2) in
      Normal (isConsonantLetter (ch s0) && isConsonantLetter (ch s1) && streq c2 (str "R"))
    else Normal false in
  if first then Normal (spliceSegs segs 2 2 (segFromString (str "A") false))
  else if (2 <=? len segs)%Z then
    let* s0 := segAt segs 0 in
    let* s1 := segAt segs 1 in
    let c1 := chUpper (ch s1) in
    if isConsonantLetter (ch s0) && (streq c1 (str "R") || streq c1 (str "L"))
    then Normal (spliceSegs segs 1 1 (segFromString (str "A") false))
    else Normal segs
  else Normal segs.

(** ** Vowel swaps *)

(** The first loop of [applyVowelSwaps]: indices of the vowels among the
    original letters. *)
Definition origVowelIdxOf (segs : list seg) : completion (list nat) :=
  forLoop (fun i (acc : list nat) =>
      let* s := segAt segs i in
      if negb (origin s) then Normal acc
      else
        let u := chUpper (ch s) in
        if has VOWELS u then Normal (acc ++ [i]) else Normal acc)
    0 (length segs) [].

(** [protectSet.add(arr[k])]: an index out of range adds [undefined], which
    is no loop index. *)
Definition addIdx (arr : list nat) (k : Z) (set : gset nat) : gset nat :=
  match (if (k <? 0)%Z then None else arr !! Z.to_nat k) with
  | Some i => {[ i ]} ∪ set
  | None => set
  end.

Definition protectSetOf (endingChangedToAH : bool) (origVowelIdx : list nat) : gset nat :=
  let n := Z.of_nat (length origVowelIdx) in
  if negb endingChangedToAH && (1 <=? n)%Z then
    let set := addIdx origVowelIdx (n - 1) ∅ in
    if (n =? 4)%Z then addIdx origVowelIdx (n - 2) set else set
  else ∅.

(** One iteration of the second loop of [applyVowelSwaps]. *)
Definition swapStep (boundary : nat) (protectSet : gset nat)
    (i : nat) (segs : list seg) : completion (list seg) :=
  if (boundary <=? i)%nat then Normal segs
  else
    let* s := segAt segs i in
    if negb (origin s) then Normal segs
    else
      let v := chUpper (ch s) in
      if negb (has SWAPPABLE v) then Normal segs
      else if bool_decide (i ∈ protectSet) then Normal segs
      else
        let next := match segs !! (i + 1)%nat with
                    | Some n => chUpper (ch n)
                    | None => []
                    end in
        if has VOWELS next then Normal segs
        else Normal (<[ i := Seg (N_of_ascii "o") false ]> segs).

Definition applyVowelSwaps (segs : list seg) (endingChangedToAH : bool)
    : completion (list seg) :=
  let boundary := protectedSuffixStartIndex segs in
  let* origVowelIdx := origVowelIdxOf segs in
  let protectSet := protectSetOf endingChangedToAH origVowelIdx in
  forLoop (swapStep boundary protectSet) 0 (length segs) segs.

(** ** Word transformation *)

Definition transformWordPart (part : jsstring) : completion jsstring :=
  let ex := applyExceptions part in
  if hit ex then Normal (toUpperCase (out ex))
  else
    let segs := segFromString part true in
    let* segs := replaceAllERWithAH segs in
    let* segs := replaceAllIRWithAR segs in
    let '(segs, _) := replaceEndingTION segs in
    let '(segs, _) := replaceEndingTY segs in
    let segs := replaceEndingLY segs in
    let '(segs, endingChangedToAH) := applyEndingAH segs in
    let '(segs, _) := replaceEndingAY segs in
    let '(segs, _) := replaceEndingYToEH segs in
    let* segs := replaceStartingSNWithSAN segs in
    let* segs := replaceStartingSWWithSAW segs in
    let* segs := applyPrefixREToRO segs in
    let* segs := applyClusterInsertions segs in
    let* segs := applyVowelSwaps segs endingChangedToAH in
    Normal (toUpperCase (segToString segs)).

(** ** Tokens *)

Definition isSeparator (c : char) : bool := (c =? 45) || (c =? 39).

(** [token.split(/([-'])/)]: the pieces between separators, with every
    separator kept as a piece of its own. *)
Fixpoint splitSeparators (s cur : jsstring) : list jsstring :=
  match s with
  | [] => [cur]
  | c :: s' =>
      if isSeparator c then cur :: [c] :: splitSeparators s' []
      else splitSeparators s' (cur ++ [c])
  end.

(** A match of [WORD_TOKEN_RE]: [m.index] and [m[0]]. *)
Record regExpMatchResult : Type := Match { index : nat; matched : jsstring }.

Definition startsWithLetter (s : jsstring) : bool :=
  match s with
  | c :: _ => isLetter c
  | [] => false
  end.

(** [input.matchAll(WORD_TOKEN_RE)] for
    [/[A-Za-z]+(?:[-'][A-Za-z]+)*/g]: one pass over the input at position [i];
    [cur] is the match under construction.  A match starts at a letter and
    is extended, greedily, by a letter or by a separator that a letter
    follows; the search resumes where the match ended. *)
Fixpoint scanTokens (s : jsstring) (i : nat) (cur : option regExpMatchResult)
    : list regExpMatchResult :=
  match s with
  | [] => match cur with Some m => [m] | None => [] end
  | c :: s' =>
      match cur with
      | None =>
          scanTokens s' (S i) (if isLetter c then Some (Match i [c]) else None)
      | Some m =>
          if isLetter c || (isSeparator c && startsWithLetter s')
          then scanTokens s' (S i) (Some (Match (index m) (matched m ++ [c])))
          else m :: scanTokens s' (S i) None
      end
  end.

Definition matchAllWordTokens (input : jsstring) : list regExpMatchResult :=
  scanTokens input 0 None.

(** ** Token and text loops

    [transformWordToken] and [convertText] read the same in the two copies of
    the engine in the repository; the copies differ in [transformWordPart],
    which the loops take as a parameter here. *)

Module Orchestrator.
Section Loops.

Variable transformWordPart : jsstring -> completion jsstring.

(** The body of the loop of [transformWordToken]. *)
Definition transformPiece (piece : jsstring) : completion jsstring :=
  if streq piece (str "-") || streq piece (str "'") then Normal piece
  else transformWordPart piece.

Definition transformWordToken (token : jsstring) : completion jsstring :=
  let parts := splitSeparators token [] in
  let* parts := mapC transformPiece parts in
  Normal (concat parts).

(** The body of the loop of [convertText] on the state [(out, last)]. *)
Definition convertStep (input : jsstring) (st : jsstring * nat) (m : regExpMatchResult)
    : completion (jsstring * nat) :=
  let '(out, last) := st in
  let out := out ++ slice input last (index m) in
  let* t := transformWordToken (matched m) in
  let out := out ++ t in
  Normal (out, (index m + length (matched m))%nat).

Definition convertText (input : jsstring) : completion jsstring :=
  let* st := forOf (convertStep input) (matchAllWordTokens input) ([], 0%nat) in
  let '(out, last) := st in
  let out := out ++ sliceFrom input last in
  Normal (toUpperCase out).

End Loops.
End Orchestrator.

Definition transformWordToken : jsstring -> completion jsstring :=
  Orchestrator.transformWordToken transformWordPart.

Definition convertText : jsstring -> completion jsstring :=
  Orchestrator.convertText transformWordPart.

(** ** The other copy of the engine

    [src/app.js] holds a copy of the engine with a shorter exception table
    and an older pipeline: no IR, AY, SN and SW rules, and the U rule that
    the first copy has commented out.  Everything else is shared. *)

Module Duplicate.

Definition EXCEPTIONS : list exception :=
  [ rx ["you"; "your"] "YA";
    rx ["the"] "THA";
    rx ["for"] "FA";
    rx ["please"] "PALEASE";
    rx ["deadline"] "DODLINE";
    rx ["mistakes"] "MOSTAKES";
    rx ["aminur"] "AMINAH";
    rx ["date"] "DATE";
    rx ["name"] "NAME";
    rx ["set"] "SOT" ].

Definition applyExceptions (wordPart : jsstring) : exResult :=
  applyExceptionsIn EXCEPTIONS wordPart.

(** [["N","S","F","T"].includes(next)] *)
Definition applyStartingUYoo (segs : list seg) : completion (list seg) :=
  if (2 <=? len segs)%Z then
    let* s0 := segAt segs 0 in
    let first := chUpper (ch s0) in
    let* s1 := segAt segs 1 in
    let next := chUpper (ch s1) in
    if streq first (str "U") && has [str "N"; str "S"; str "F"; str "T"] next
    then Normal (spliceSegs segs 0 1 (segFromString (str "YAU") false))
    else Normal segs
  else Normal segs.

Definition transformWordPart (part : jsstring) : completion jsstring :=
  let ex := applyExceptions part in
  if hit ex then Normal (toUpperCase (out ex))
  else
    let segs := segFromString part true in
    let* segs := replaceAllERWithAH segs in
    let '(segs, _) := replaceEndingTION segs in
    let '(segs, _) := replaceEndingTY segs in
    let segs := replaceEndingLY segs in
    let '(segs, endingChangedToAH) := applyEndingAH segs in
    let '(segs, _) := replaceEndingYToEH segs in
    let* segs := applyStartingUYoo segs in
    let* segs := applyPrefixREToRO segs in
    let* segs := applyClusterInsertions segs in
    let* segs := applyVowelSwaps segs endingChangedToAH in
    Normal (toUpperCase (segToString segs)).

Definition transformWordToken : jsstring -> completion jsstring :=
  Orchestrator.transformWordToken transformWordPart.

Definition convertText : jsstring -> completion jsstring :=
  Orchestrator.convertText transformWordPart.

End Duplicate.

(** ** Views of the pipeline used by the statements below *)

(** The segment array at the moment [applyEndingAH] is called in
    [transformWordPart]: after the ER, IR, TION, TY and LY/LEY stages. *)
Definition segsAtEndingAH (part : jsstring) : completion (list seg) :=
  let segs := segFromString part true in
  let* segs := replaceAllERWithAH segs in
  let* segs := replaceAllIRWithAR segs in
  let '(segs, _) := replaceEndingTION segs in
  let '(segs, _) := replaceEndingTY segs in
  Normal (replaceEndingLY segs).

(** The segment array and the carried flag at the moment [applyVowelSwaps]
    is called in [transformWordPart]. *)
Definition stateAtVowelSwaps (part : jsstring) : completion (list seg * bool) :=
  let* segs := segsAtEndingAH part in
  let '(segs, endingChangedToAH) := applyEndingAH segs in
  let '(segs, _) := replaceEndingAY segs in
  let '(segs, _) := replaceEndingYToEH segs in
  let* segs := replaceStartingSNWithSAN segs in
  let* segs := replaceStartingSWWithSAW segs in
  let* segs := applyPrefixREToRO segs in
  let* segs := applyClusterInsertions segs in
  Normal (segs, endingChangedToAH).

(** What the pair loop computes, by recursion on the array. *)
Fixpoint replacePairs (first second ins : jsstring) (segs : list seg) : list seg :=
  match segs with
  | [] => []
  | sa :: rest =>
      match rest with
      | [] => [sa]
      | sb :: rest' =>
          if streq (chUpper (ch sa)) first && streq (chUpper (ch sb)) second
          then segFromString ins false ++ replacePairs first second ins rest'
          else sa :: replacePairs first second ins rest
      end
  end.

(** Some two neighbours of the array upper-case to [first] and [second]. *)
Fixpoint hasPair (first second : jsstring) (segs : list seg) : bool :=
  match segs with
  | [] => false
  | sa :: rest =>
      match rest with
      | [] => false
      | sb :: _ =>
          (streq (chUpper (ch sa)) first && streq (chUpper (ch sb)) second)
          || hasPair first second rest
      end
  end.

(** The input cut at the matches of [WORD_TOKEN_RE]: the spans before,
    between and after the matches, and the matches themselves, in order.
    These are the strings [convertText] appends to [out], before the tokens
    are transformed. *)
Inductive chunk : Type :=
| Gap (span : jsstring)
| Token (token : jsstring).

Definition raw (c : chunk) : jsstring :=
  match c with
  | Gap g => g
  | Token t => t
  end.

Fixpoint chunksFrom (s : jsstring) (cur : chunk) : list chunk :=
  match s with
  | [] =>
      match cur with
      | Gap g => [Gap g]
      | Token t => [Token t; Gap []]
      end
  | c :: s' =>
      match cur with
      | Gap g =>
          if isLetter c then Gap g :: chunksFrom s' (Token [c])
          else chunksFrom s' (Gap (g ++ [c]))
      | Token t =>
          if isLetter c || (isSeparator c && startsWithLetter s')
          then chunksFrom s' (Token (t ++ [c]))
          else Token t :: chunksFrom s' (Gap [c])
      end
  end.

Definition chunks (input : jsstring) : list chunk := chunksFrom input (Gap []).

Definition gapsOf (cs : list chunk) : list jsstring :=
  cs ≫= (fun c => match c with Gap g => [g] | Token _ => [] end).
Definition tokensOf (cs : list chunk) : list jsstring :=
  cs ≫= (fun c => match c with Gap _ => [] | Token t => [t] end).

(** The language of [WORD_TOKEN_RE]: runs of letters joined by single
    separators. *)
Inductive wordToken : jsstring -> Prop :=
| wordToken_one (w : jsstring) :
    w <> [] -> Forall (fun c => isLetter c = true) w -> wordToken w
| wordToken_cons (w : jsstring) (sep : char) (t : jsstring) :
    w <> [] -> Forall (fun c => isLetter c = true) w ->
    isSeparator sep = true -> wordToken t ->
    wordToken (w ++ sep :: t).




(** A gap holds no letter; a token is in the language of the pattern. *)
Definition chunkOK (c : chunk) : Prop :=
  match c with
  | Gap g => Forall (fun c => isLetter c = false) g
  | Token t => wordToken t
  end.

(** What [convertText] appends to [out] for a chunk. *)
Definition renderChunk (wordPart : jsstring -> completion jsstring) (c : chunk)
    : completion jsstring :=
  match c with
  | Gap g => Normal g
  | Token t => Orchestrator.transformWordToken wordPart t
  end.

(** Where the [k]-th of the strings starts in their concatenation. *)
Definition offsetOf (pieces : list jsstring) (k : nat) : nat :=
  length (concat (take k pieces)).

(** The spans that [convertText] copies with [input.slice]: before each match
    and after the last one. *)
Fixpoint passThroughSpans (input : jsstring) (ms : list regExpMatchResult) (last : nat)
    : list jsstring :=
  match ms with
  | [] => [sliceFrom input last]
  | m :: ms' =>
      slice input last (index m)
        :: passThroughSpans input ms' (index m + length (matched m))
  end.

(** A vowel letter, in either case. *)
Definition vowelChar (c : char) : Prop :=
  c ∈ [65; 69; 73; 79; 85; 97; 101; 105; 111; 117].


(** ** Further views: what single stages compute *)

(** The segment at [i] is an original vowel: the test of the first loop of
    [applyVowelSwaps]. *)
Definition isOrigVowel (segs : list seg) (i : nat) : bool :=
  match segs !! i with
  | Some s => origin s && has VOWELS (chUpper (ch s))
  | None => false
  end.

(** What the first loop of [applyVowelSwaps] collects. *)
Definition origVowelIdx (segs : list seg) : list nat :=
  List.filter (isOrigVowel segs) (seq 0 (length segs)).

(** The tests of the second loop of [applyVowelSwaps], taken on the array as
    it is when the stage starts. *)
Definition swapsAt (segs : list seg) (boundary : nat) (protectSet : gset nat)
    (i : nat) : bool :=
  match segs !! i with
  | Some s =>
      (i <? boundary)%nat && origin s && has SWAPPABLE (chUpper (ch s))
      && negb (bool_decide (i ∈ protectSet))
      && negb (has VOWELS (match segs !! (i + 1)%nat with
                           | Some n => chUpper (ch n)
                           | None => []
                           end))
  | None => false
  end.

(** What [applyVowelSwaps] returns, as a map over the array. *)
Definition vowelSwapsOf (segs : list seg) (endingChangedToAH : bool) : list seg :=
  let boundary := protectedSuffixStartIndex segs in
  let protectSet := protectSetOf endingChangedToAH (origVowelIdx segs) in
  imap (fun i s =>
          if swapsAt segs boundary protectSet i then Seg (N_of_ascii "o") false else s)
    segs.

(** The original segments of an array, in order. *)
Definition originals (segs : list seg) : list seg := List.filter origin segs.

(** ASCII case folding of one code unit. *)
Definition asciiLower (c : char) : char :=
  if (65 <=? c) && (c <=? 90) then c + 32 else c.

(** The words of [EXCEPTIONS] with their outputs. *)
Definition exceptionWords : list (jsstring * jsstring) :=
  [ (str "very", str "WELL"); (str "well", str "WELL");
    (str "you", str "YA"); (str "your", str "YA");
    (str "the", str "THA"); (str "for", str "FA");
    (str "please", str "PALEASE"); (str "deadline", str "DODLINE");
    (str "mistakes", str "MOSTAKES"); (str "aminur", str "AMINAH");
    (str "date", str "DATE"); (str "name", str "NAME"); (str "set", str "SOT") ].

Fixpoint lookupWord (table : list (jsstring * jsstring)) (w : jsstring)
    : option jsstring :=
  match table with
  | [] => None
  | (k, v) :: rest => if streq w k then Some v else lookupWord rest w
  end.

(** The six ending stages of [transformWordPart], from TION to the final Y,
    in its order; the flag is the one [applyEndingAH] returns. *)
Definition endingStages (segs : list seg) : list seg * bool :=
  let '(segs, _) := replaceEndingTION segs in
  let '(segs, _) := replaceEndingTY segs in
  let segs := replaceEndingLY segs in
  let '(segs, endingChangedToAH) := applyEndingAH segs in
  let '(segs, _) := replaceEndingAY segs in
  let '(segs, _) := replaceEndingYToEH segs in
  (segs, endingChangedToAH).

(** The stages of [transformWordPart] after the ending stages and before
    the vowel swaps. *)
Definition onsetStages (segs : list seg) : completion (list seg) :=
  let* segs := replaceStartingSNWithSAN segs in
  let* segs := replaceStartingSWWithSAW segs in
  let* segs := applyPrefixREToRO segs in
  applyClusterInsertions segs.

(** Each string is at most as long as the one before it. *)
Fixpoint lengthsDescend (l : list jsstring) : bool :=
  match l with
  | [] => true
  | a :: rest =>
      match rest with
      | [] => true
      | b :: _ => (length b <=? length a)%nat && lengthsDescend rest
      end
  end.

(** The upper-cased rendering ends with H or N, as it does after any of
    the ending stages has fired. *)
Definition closedEnding (segs : list seg) : Prop :=
  last (toUpperCase (segToString segs)) = Some 72 \/
  last (toUpperCase (segToString segs)) = Some 78.

(** A capital ASCII letter. *)
Definition capital (c : char) : Prop := 65 <= c <= 90.

(** A segment that holds a letter. *)
Definition letterSeg (s : seg) : Prop := isLetter (ch s) = true.

(** What a stage may do to the array: take segments out and put synthesized
    letters in.  The original segments of [after] are original segments of
    [before], in their order, and [after] holds only letters if [before]
    does. *)
Definition keeps (before after : list seg) : Prop :=
  sublist (originals after) (originals before) /\
  (Forall letterSeg before -> Forall letterSeg after).

(** What [convertText] has appended to [out] after the chunks [cs]. *)
Definition renderAll (wordPart : jsstring -> completion jsstring) (cs : list chunk)
    : completion jsstring :=
  let* outs := mapC (renderChunk wordPart) cs in
  Normal (concat outs).

(** A small ASCII letter. *)
Definition small (c : char) : Prop := 97 <= c <= 122.

(** A piece of a split token: one separator, or a run without separators. *)
Definition pieceShape (piece : jsstring) : Prop :=
  (exists sep, piece = [sep] /\ isSeparator sep = true) \/
  Forall (fun c => isSeparator c = false) piece.

(** The characters of a string that are no letters, in order. *)
Definition nonLetters (s : jsstring) : jsstring :=
  List.filter (fun c => negb (isLetter c)) s.

(** Two segments that differ at most in the case of an ASCII letter. *)
Definition sameSeg (x y : seg) : Prop :=
  origin x = origin y /\ asciiLower (ch x) = asciiLower (ch y).

(** A chunk with the ASCII capitals of its token folded to small letters. *)
Definition lowerChunk (c : chunk) : chunk :=
  match c with
  | Gap g => Gap g
  | Token t => Token (asciiLower <$> t)
  end.

(** A consonant letter: an ASCII letter that is no vowel; Y is one. *)
Definition consonantChar (c : char) : Prop := isLetter c = true /\ ~ vowelChar c.

(** The rendering starts with two consonants and an R, in any case. *)
Definition startsCCR (s : jsstring) : Prop :=
  exists a b r rest, s = a :: b :: r :: rest /\
    consonantChar a /\ consonantChar b /\ (r = 82 \/ r = 114).

(** The rendering starts with a consonant and an R or an L, in any case. *)
Definition startsCL (s : jsstring) : Prop :=
  exists a b rest, s = a :: b :: rest /\
    consonantChar a /\ (b = 82 \/ b = 114 \/ b = 76 \/ b = 108).



(** The words of the exception table of the older copy with their outputs. *)
Definition olderExceptionWords : list (jsstring * jsstring) :=
  [ (str "you", str "YA"); (str "your", str "YA");
    (str "the", str "THA"); (str "for", str "FA");
    (str "please", str "PALEASE"); (str "deadline", str "DODLINE");
    (str "mistakes", str "MOSTAKES"); (str "aminur", str "AMINAH");
    (str "date", str "DATE"); (str "name", str "NAME"); (str "set", str "SOT") ].



(** The array starts with S,A or with r,o: what the SN, SW and RE stages
    leave at the front when they fire. *)
Definition settledOnset (segs : list seg) : Prop :=
  exists x y rest, segs = x :: y :: rest /\
    ((ch x = 83 /\ ch y = 65) \/ (ch x = 114 /\ ch y = 111)).

(** ** Concrete scenarios *)

(** C5: [convertText("snake")] is "SANOKE", not the "SANAKE" of the
    rulebook: after SN became SAN, the original A is the first of two
    original vowels, is not tail-protected, and is swapped to O. *)
Theorem convert_snake :
  convertText (str "snake") = Normal (str "SANOKE").
Proof. vm_compute. reflexivity. Qed.

(** C6: [convertText("information")] is "ONFORMASHAN", not the
    "INFORMASHAN" of the rulebook: TION became SHAN, and the leading I, an
    unprotected original vowel before the suffix boundary, is swapped to O. *)
Theorem convert_information :
  convertText (str "information") = Normal (str "ONFORMASHAN").
Proof. vm_compute. reflexivity. Qed.

(** C7, as stated: [convertText("don't stop")] is not "DAN'T STAP". *)
Lemma dant_stap_refuted :
  convertText (str "don't stop") <> Normal (str "DAN'T STAP").
Proof. vm_compute. discriminate. Qed.

(** C7, amended: [convertText("don't stop")] is "DON'T STOP": the apostrophe
    and the space stay where they were, and the word-parts "don", "t" and
    "stop" are transformed one by one (none of them changes but for case:
    O is not swappable). *)
Theorem convert_dont_stop :
  convertText (str "don't stop") = Normal (str "DON'T STOP") /\
  matchAllWordTokens (str "don't stop")
    = [Match 0 (str "don't"); Match 6 (str "stop")] /\
  splitSeparators (str "don't") [] = [str "don"; str "'"; str "t"] /\
  transformWordPart (str "don") = Normal (str "DON") /\
  transformWordPart (str "t") = Normal (str "T") /\
  transformWordPart (str "stop") = Normal (str "STOP").
Proof. vm_compute. repeat split; reflexivity. Qed.

(** ** Basic facts: strings, completions, splice *)

Lemma streq_true (a b : jsstring) : streq a b = true <-> a = b.
Proof.
  revert b. induction a as [|x a IH]; intros [|y b]; simpl; try (split; congruence).
  rewrite andb_true_iff, N.eqb_eq, IH. split.
  - intros [-> ->]; reflexivity.
  - intros [= -> ->]; auto.
Qed.

Lemma streq_refl (a : jsstring) : streq a a = true.
Proof. apply streq_true; reflexivity. Qed.

Lemma streq_false (a b : jsstring) : streq a b = false <-> a <> b.
Proof.
  rewrite <- streq_true. destruct (streq a b); split; congruence.
Qed.

Lemma bind_Normal {A B} (m : completion A) (k : A -> completion B) (b : B) :
  bind m k = Normal b -> exists a, m = Normal a /\ k a = Normal b.
Proof. destruct m; simpl; intros H; try discriminate. eauto. Qed.

Lemma len_app (a b : list seg) : len (a ++ b) = (len a + len b)%Z.
Proof. unfold len. rewrite length_app. lia. Qed.

(** Inside the array, [splice] keeps what is before [start] and what is
    from [end] on. *)
Lemma spliceSegs_middle (before mid after ins : list seg) :
  spliceSegs (before ++ mid ++ after) (len before) (len before + len mid) ins
  = before ++ ins ++ after.
Proof.
  unfold spliceSegs. fold (len (before ++ mid ++ after)).
  rewrite !len_app. unfold len.
  destruct (Z.ltb_spec (Z.of_nat (length before)) 0); [lia|].
  rewrite Z.min_l by lia.
  rewrite Z.max_l by lia.
  rewrite Z.min_l by lia.
  rewrite Nat2Z.id.
  replace (Z.to_nat _) with (length before + length mid)%nat by lia.
  rewrite take_app_length.
  rewrite <- drop_drop, drop_app_length, drop_app_length. reflexivity.
Qed.

Lemma spliceSegs_tail (before mid ins : list seg) :
  spliceSegs (before ++ mid) (len (before ++ mid) - len mid) (len (before ++ mid)) ins
  = before ++ ins.
Proof.
  pose proof (spliceSegs_middle before mid [] ins) as H.
  rewrite !app_nil_r in H. rewrite <- H. f_equal; rewrite len_app; lia.
Qed.

Lemma spliceSegs_head (mid after ins : list seg) :
  spliceSegs (mid ++ after) 0 (len mid) ins = ins ++ after.
Proof. apply (spliceSegs_middle [] mid after ins). Qed.

Lemma segAt_middle (before : list seg) (x : seg) (after : list seg) :
  segAt (before ++ x :: after) (length before) = Normal x.
Proof.
  unfold segAt. rewrite list_lookup_middle by reflexivity. reflexivity.
Qed.

Lemma segAt_lt (segs : list seg) (i : nat) :
  (i < length segs)%nat -> exists s, segs !! i = Some s /\ segAt segs i = Normal s.
Proof.
  intros H. destruct (lookup_lt_is_Some_2 segs i H) as [s Hs].
  exists s. unfold segAt. rewrite Hs. auto.
Qed.

(** ** The pair loop is the recursion [replacePairs] *)

Lemma replacePairLoop_spec (first second ins : jsstring) :
  length ins = 2%nat ->
  forall fuel done rest,
    (length rest <= fuel)%nat ->
    replacePairLoop first second ins fuel (length done) (done ++ rest)
    = Normal (done ++ replacePairs first second ins rest).
Proof.
  intros Hins. induction fuel as [|fuel IH]; intros done rest Hfuel.
  - destruct rest; [|simpl in Hfuel; lia]. simpl.
    rewrite len_app. unfold len. simpl.
    destruct (Z.ltb _ _) eqn:Hlt; [apply Z.ltb_lt in Hlt; lia|reflexivity].
  - destruct rest as [|sa [|sb rest']].
    + simpl. rewrite len_app. unfold len. simpl.
      destruct (Z.ltb _ _) eqn:Hlt; [apply Z.ltb_lt in Hlt; lia|reflexivity].
    + simpl. rewrite len_app. unfold len. simpl.
      destruct (Z.ltb _ _) eqn:Hlt; [apply Z.ltb_lt in Hlt; lia|reflexivity].
    + cbn [replacePairLoop replacePairs].
      destruct (Z.ltb_spec0 (Z.of_nat (length done)) (len (done ++ sa :: sb :: rest') - 1))
        as [_|Hge]; [|rewrite len_app in Hge; unfold len in Hge; simpl in Hge; lia].
      rewrite segAt_middle. cbn [bind].
      assert (Hsb : segAt (done ++ sa :: sb :: rest') (length done + 1) = Normal sb).
      { replace (done ++ sa :: sb :: rest') with ((done ++ [sa]) ++ sb :: rest')
          by (rewrite <- app_assoc; reflexivity).
        replace (length done + 1)%nat with (length (done ++ [sa]))
          by (rewrite length_app; reflexivity).
        apply segAt_middle. }
      rewrite Hsb. cbn [bind].
      destruct (streq (chUpper (ch sa)) first && streq (chUpper (ch sb)) second).
      * pose proof (spliceSegs_middle done [sa; sb] rest' (segFromString ins false)) as Hsp.
        change (len [sa; sb]) with 2%Z in Hsp. unfold len in Hsp.
        change ([sa; sb] ++ rest') with (sa :: sb :: rest') in Hsp.
        rewrite Hsp.
        replace (length done + 1 + 1)%nat
          with (length (done ++ segFromString ins false)).
        2:{ rewrite !length_app. unfold segFromString. rewrite length_fmap, Hins. lia. }
        rewrite app_assoc. rewrite IH by (simpl in Hfuel; lia).
        rewrite <- app_assoc. reflexivity.
      * replace (done ++ sa :: sb :: rest') with ((done ++ [sa]) ++ sb :: rest')
          by (rewrite <- app_assoc; reflexivity).
        replace (length done + 1)%nat with (length (done ++ [sa]))
          by (rewrite length_app; reflexivity).
        rewrite IH by (simpl in Hfuel; simpl; lia).
        rewrite <- app_assoc. reflexivity.
Qed.

(** ** Case mapping of single code units *)

Ltac case_bools :=
  repeat match goal with
    | |- context [N.leb ?a ?b] => destruct (N.leb_spec a b)
    | |- context [N.ltb ?a ?b] => destruct (N.ltb_spec a b)
    | |- context [N.eqb ?a ?b] => destruct (N.eqb_spec a b)
    | H : context [N.leb ?a ?b] |- _ => destruct (N.leb_spec a b)
    | H : context [N.ltb ?a ?b] |- _ => destruct (N.ltb_spec a b)
    | H : context [N.eqb ?a ?b] |- _ => destruct (N.eqb_spec a b)
    end; simpl in *.

Lemma chUpper_upperCp (c : char) : chUpper c = upperCp c.
Proof. unfold chUpper, toUpperCase. simpl. apply app_nil_r. Qed.

Lemma upperCp_not_nil (c : char) : upperCp c <> [].
Proof. unfold upperCp. case_bools; discriminate. Qed.

(** Exactly a capital letter and its small form upper-case to that capital. *)
Lemma upperCp_capital (c u : char) :
  65 <= u <= 90 ->
  upperCp c = [u] <-> c = u \/ c = u + 32.
Proof.
  intros Hu. unfold upperCp. case_bools; split; intros Heq;
    try (injection Heq as Heq); try discriminate; try lia; f_equal; lia.
Qed.

(** The upper-casing of a unit ends with a capital other than S only when it
    is that capital alone. *)
Lemma upperCp_last (c u : char) :
  65 <= u <= 90 -> u <> 83 ->
  last (upperCp c) = Some u -> upperCp c = [u].
Proof.
  intros Hu Hs. unfold upperCp. case_bools; intros Heq;
    try (injection Heq as Heq); try discriminate; try lia; f_equal; lia.
Qed.


Lemma lowerCp_small (c l : char) :
  97 <= l <= 122 ->
  lowerCp c = [l] <-> c = l \/ c = l - 32.
Proof.
  intros Hl. unfold lowerCp. case_bools; split; intros Heq;
    try (injection Heq as Heq); try discriminate; try lia; f_equal; lia.
Qed.


Lemma has_VOWELS (c : char) : has VOWELS (chUpper c) = true <-> vowelChar c.
Proof.
  rewrite chUpper_upperCp. unfold has, VOWELS, vowelChar.
  change (str "A") with [65]. change (str "E") with [69].
  change (str "I") with [73]. change (str "O") with [79]. change (str "U") with [85].
  simpl. rewrite !orb_true_iff, !streq_true.
  rewrite !upperCp_capital by lia. rewrite !elem_of_cons, elem_of_nil.
  simpl. intuition (subst; auto; try discriminate; try lia).
Qed.

(** ** Exceptions *)

Lemma applyExceptionsIn_first (table before after : list exception)
    (ex : exception) (part : jsstring) :
  table = before ++ ex :: after ->
  Forall (fun e => exMatches e part = false) before ->
  exMatches ex part = true ->
  applyExceptionsIn table part = ExResult true (evalOut (exOutOf ex) part).
Proof.
  intros -> Hbefore Hex. induction Hbefore as [|e before He _ IH]; simpl.
  - rewrite Hex. reflexivity.
  - rewrite He. exact IH.
Qed.

(** C2: a word-part matched by an entry of the exception table, none of the
    entries before it matching, is turned into that entry's output in upper
    case; no later stage takes part in the result. *)
Theorem exception_priority (part : jsstring)
    (before : list exception) (ex : exception) (after : list exception) :
  EXCEPTIONS = before ++ ex :: after ->
  Forall (fun e => exMatches e part = false) before ->
  exMatches ex part = true ->
  transformWordPart part = Normal (toUpperCase (evalOut (exOutOf ex) part)).
Proof.
  intros Htable Hbefore Hex. unfold transformWordPart, applyExceptions.
  rewrite (applyExceptionsIn_first _ _ _ _ _ Htable Hbefore Hex). reflexivity.
Qed.

Lemma exception_priority_witness :
  transformWordPart (str "Your") = Normal (str "YA").
Proof.
  apply (exception_priority (str "Your")
           [rx ["very"] "WELL"; rx ["well"] "WELL"]
           (rx ["you"; "your"] "YA")
           [rx ["the"] "THA"; rx ["for"] "FA"; rx ["please"] "PALEASE";
            rx ["deadline"] "DODLINE"; rx ["mistakes"] "MOSTAKES";
            rx ["aminur"] "AMINAH"; rx ["date"] "DATE"; rx ["name"] "NAME";
            rx ["set"] "SOT"]).
  - reflexivity.
  - repeat constructor.
  - reflexivity.
Defined.

(** ** The RE to RO prefix rule *)





(** ** Every stage returns normally *)

Lemma replaceAllERWithAH_spec (segs : list seg) :
  replaceAllERWithAH segs = Normal (replacePairs (str "E") (str "R") (str "AH") segs).
Proof.
  unfold replaceAllERWithAH.
  apply (replacePairLoop_spec _ _ (str "AH") eq_refl (length segs) [] segs). lia.
Qed.

Lemma replaceAllIRWithAR_spec (segs : list seg) :
  replaceAllIRWithAR segs = Normal (replacePairs (str "I") (str "R") (str "AR") segs).
Proof.
  unfold replaceAllIRWithAR.
  apply (replacePairLoop_spec _ _ (str "AR") eq_refl (length segs) [] segs). lia.
Qed.

Ltac case_ifs :=
  repeat match goal with
    | |- context [if ?b then _ else _] => destruct b
    end.

Lemma replaceStartingSWWithSAW_total (segs : list seg) :
  exists segs', replaceStartingSWWithSAW segs = Normal segs'.
Proof.
  unfold replaceStartingSWWithSAW.
  destruct segs as [|s0 [|s1 rest]]; unfold len; simpl; case_ifs; eauto.
Qed.

Lemma replaceStartingSNWithSAN_total (segs : list seg) :
  exists segs', replaceStartingSNWithSAN segs = Normal segs'.
Proof.
  unfold replaceStartingSNWithSAN.
  destruct segs as [|s0 [|s1 rest]]; unfold len; simpl; case_ifs; eauto.
Qed.

Lemma applyPrefixREToRO_total (segs : list seg) :
  exists segs', applyPrefixREToRO segs = Normal segs'.
Proof.
  unfold applyPrefixREToRO.
  destruct (streq _ _); [eauto|].
  destruct (startsWith _ _ && _) eqn:Hcond; [|eauto].
  apply andb_true_iff in Hcond as [_ Hlen]. apply Nat.leb_le in Hlen.
  destruct (lookup_lt_is_Some_2 (segToString segs) 2 ltac:(lia)) as [c ->].
  case_ifs; eauto.
Qed.

Lemma applyClusterInsertions_total (segs : list seg) :
  exists segs', applyClusterInsertions segs = Normal segs'.
Proof.
  unfold applyClusterInsertions.
  destruct segs as [|s0 [|s1 [|s2 rest]]]; unfold len;
    repeat first [progress simpl | progress case_ifs]; eauto.
Qed.

(** A counted loop whose body returns normally under an invariant returns
    normally, and the invariant holds at the end. *)
Lemma forLoop_invariant {St : Type} (Inv : St -> Prop)
    (body : nat -> St -> completion St) (n : nat) :
  forall from s,
    Inv s ->
    (forall i t, (from <= i < from + n)%nat -> Inv t ->
       exists t', body i t = Normal t' /\ Inv t') ->
    exists s', forLoop body from n s = Normal s' /\ Inv s'.
Proof.
  induction n as [|n IH]; intros from s Hs Hbody; simpl.
  - eauto.
  - destruct (Hbody from s ltac:(lia) Hs) as (t & -> & Ht). simpl.
    apply IH; [exact Ht|]. intros i u Hi Hu. apply Hbody; [lia|exact Hu].
Qed.

Lemma origVowelIdxOf_total (segs : list seg) :
  exists idx, origVowelIdxOf segs = Normal idx.
Proof.
  unfold origVowelIdxOf.
  destruct (forLoop_invariant (fun _ => True)
              (fun i (acc : list nat) =>
                 let* s := segAt segs i in
                 if negb (origin s) then Normal acc
                 else if has VOWELS (chUpper (ch s)) then Normal (acc ++ [i])
                      else Normal acc)
              (length segs) 0 [] I) as (idx & H & _); [|eauto].
  intros i t Hi _.
  destruct (segAt_lt segs i ltac:(lia)) as (s & _ & ->). cbn [bind].
  case_ifs; eauto.
Qed.

(** One step of the swap loop keeps the length, and changes at most the
    segment at [i], and only when [i] is not protected. *)
Lemma swapStep_spec (boundary : nat) (protectSet : gset nat)
    (i : nat) (segs : list seg) :
  (i < length segs)%nat ->
  exists segs', swapStep boundary protectSet i segs = Normal segs' /\
    length segs' = length segs /\
    (forall k, k <> i \/ k ∈ protectSet \/ (boundary <= k)%nat ->
               segs' !! k = segs !! k).
Proof.
  intros Hi. unfold swapStep.
  destruct (boundary <=? i)%nat eqn:Hb; [eauto|].
  destruct (segAt_lt segs i Hi) as (s & _ & ->). cbn [bind].
  destruct (negb (origin s)); [eauto|].
  destruct (negb (has SWAPPABLE (chUpper (ch s)))); [eauto|].
  destruct (bool_decide (i ∈ protectSet)) eqn:Hp; [eauto|].
  destruct (has VOWELS _); [eauto|].
  eexists. split; [reflexivity|]. split; [apply length_insert|].
  intros k [Hk|[Hk|Hk]].
  - apply list_lookup_insert_ne. congruence.
  - destruct (decide (k = i)) as [->|Hne].
    + apply bool_decide_eq_false in Hp. contradiction.
    + apply list_lookup_insert_ne. congruence.
  - apply Nat.leb_gt in Hb.
    apply list_lookup_insert_ne. lia.
Qed.

Lemma applyVowelSwaps_spec (segs : list seg) (flag : bool) :
  exists idx final,
    origVowelIdxOf segs = Normal idx /\
    applyVowelSwaps segs flag = Normal final /\
    length final = length segs /\
    (forall k, k ∈ protectSetOf flag idx \/ (protectedSuffixStartIndex segs <= k)%nat ->
               final !! k = segs !! k).
Proof.
  destruct (origVowelIdxOf_total segs) as [idx Hidx].
  exists idx. unfold applyVowelSwaps. rewrite Hidx. cbn [bind].
  set (P := protectSetOf flag idx). set (b := protectedSuffixStartIndex segs).
  destruct (forLoop_invariant
              (fun t => length t = length segs /\
                        forall k, k ∈ P \/ (b <= k)%nat -> t !! k = segs !! k)
              (swapStep b P) (length segs) 0 segs) as (final & Hfinal & Hlen & Hkeep).
  - auto.
  - intros i t Hi [Hlen Hkeep].
    destruct (swapStep_spec b P i t ltac:(lia)) as (t' & Ht' & Hlen' & Hsame).
    exists t'. split; [exact Ht'|]. split; [congruence|].
    intros k Hk. rewrite Hsame by tauto. apply Hkeep, Hk.
  - exists final. auto.
Qed.

(** The indices collected by the first loop are those of original vowels. *)
Lemma origVowelIdxOf_sound (segs : list seg) (idx : list nat) :
  origVowelIdxOf segs = Normal idx ->
  forall i, i ∈ idx ->
    exists s, segs !! i = Some s /\ origin s = true /\ vowelChar (ch s).
Proof.
  unfold origVowelIdxOf. intros Hidx.
  destruct (forLoop_invariant
              (fun acc : list nat => forall i, i ∈ acc ->
                 exists s, segs !! i = Some s /\ origin s = true /\ vowelChar (ch s))
              (fun i (acc : list nat) =>
                 let* s := segAt segs i in
                 if negb (origin s) then Normal acc
                 else if has VOWELS (chUpper (ch s)) then Normal (acc ++ [i])
                      else Normal acc)
              (length segs) 0 []) as (idx' & H & Hinv).
  - intros i Hi. apply elem_of_nil in Hi. contradiction.
  - intros i acc Hi Hacc.
    destruct (segAt_lt segs i ltac:(lia)) as (s & Hs & ->). cbn [bind].
    destruct (origin s) eqn:Ho; cbn [negb]; [|eauto].
    destruct (has VOWELS _) eqn:Hv; [|eauto].
    eexists. split; [reflexivity|]. intros k Hk.
    apply elem_of_app in Hk as [Hk|Hk]; [auto|].
    apply list_elem_of_singleton in Hk as ->.
    exists s. apply has_VOWELS in Hv. auto.
  - rewrite H in Hidx. injection Hidx as <-. exact Hinv.
Qed.

(** ** The pipeline, cut at the places the statements speak about *)

Ltac step_pipeline :=
  repeat match goal with
    | |- context [bind ?m _] =>
        lazymatch m with
        | bind _ _ => fail
        | match _ with _ => _ end => fail
        | Normal _ => fail
        | _ => destruct m; cbn [bind fst snd]
        end
    | |- context [let '(_, _) := ?p in _] => destruct p; cbn [bind fst snd]
    end.

Lemma transformWordPart_stages (part : jsstring) :
  transformWordPart part =
  if hit (applyExceptions part) then Normal (toUpperCase (out (applyExceptions part)))
  else
    let* st := stateAtVowelSwaps part in
    let* final := applyVowelSwaps st.1 st.2 in
    Normal (toUpperCase (segToString final)).
Proof.
  unfold transformWordPart, stateAtVowelSwaps, segsAtEndingAH.
  destruct (hit _); [reflexivity|]. step_pipeline; reflexivity.
Qed.

Lemma segsAtEndingAH_total (part : jsstring) :
  exists segs, segsAtEndingAH part = Normal segs.
Proof.
  unfold segsAtEndingAH.
  rewrite replaceAllERWithAH_spec. cbn [bind].
  rewrite replaceAllIRWithAR_spec. cbn [bind].
  step_pipeline. eauto.
Qed.

(** The flag that reaches the vowel swaps is the one [applyEndingAH]
    returned. *)
Lemma stateAtVowelSwaps_flag (part : jsstring) (segs5 : list seg) :
  segsAtEndingAH part = Normal segs5 ->
  exists segs, stateAtVowelSwaps part = Normal (segs, snd (applyEndingAH segs5)).
Proof.
  intros H5. unfold stateAtVowelSwaps. rewrite H5. cbn [bind].
  destruct (applyEndingAH segs5) as [s6 flag].
  destruct (replaceEndingAY s6) as [s7 ?].
  destruct (replaceEndingYToEH s7) as [s8 ?].
  destruct (replaceStartingSNWithSAN_total s8) as [s9 ->]. cbn [bind].
  destruct (replaceStartingSWWithSAW_total s9) as [s10 ->]. cbn [bind].
  destruct (applyPrefixREToRO_total s10) as [s11 ->]. cbn [bind].
  destruct (applyClusterInsertions_total s11) as [s12 ->]. cbn [bind].
  eauto.
Qed.

Lemma stateAtVowelSwaps_total (part : jsstring) :
  exists segs flag, stateAtVowelSwaps part = Normal (segs, flag).
Proof.
  destruct (segsAtEndingAH_total part) as [s5 H5].
  destruct (stateAtVowelSwaps_flag part s5 H5) as [segs H]. eauto.
Qed.

Lemma transformWordPart_total (part : jsstring) :
  exists result, transformWordPart part = Normal result.
Proof.
  rewrite transformWordPart_stages. destruct (hit _); [eauto|].
  destruct (stateAtVowelSwaps_total part) as (segs & flag & ->). cbn [bind fst snd].
  destruct (applyVowelSwaps_spec segs flag) as (idx & final & _ & -> & _).
  cbn [bind]. eauto.
Qed.

Lemma mapC_total {A B : Type} (f : A -> completion B) (xs : list A) :
  (forall x, exists y, f x = Normal y) ->
  exists ys, mapC f xs = Normal ys /\ length ys = length xs.
Proof.
  intros Hf. induction xs as [|x xs (ys & IH & Hlen)]; simpl.
  - eauto.
  - destruct (Hf x) as [y ->]. rewrite IH. simpl.
    eexists. split; [reflexivity|]. simpl. congruence.
Qed.

Lemma forOf_total {A St : Type} (body : St -> A -> completion St) (xs : list A) :
  (forall s x, exists s', body s x = Normal s') ->
  forall s, exists s', forOf body xs s = Normal s'.
Proof.
  intros Hbody. induction xs as [|x xs IH]; intros s; simpl.
  - eauto.
  - destruct (Hbody s x) as [s' ->]. simpl. apply IH.
Qed.

(** C3: when the vowel swaps start on an array with exactly four original
    vowels and the ending was not changed to AH, the stage returns an array in
    which the third and the fourth of them are the segments they were
    (original, vowel, unswapped), and the result of [transformWordPart] is the
    upper-cased rendering of that array. *)
Theorem last_two_of_four_vowels_kept (part : jsstring) (segs : list seg)
    (i1 i2 i3 i4 : nat) :
  hit (applyExceptions part) = false ->
  stateAtVowelSwaps part = Normal (segs, false) ->
  origVowelIdxOf segs = Normal [i1; i2; i3; i4] ->
  exists final s3 s4,
    applyVowelSwaps segs false = Normal final /\
    transformWordPart part = Normal (toUpperCase (segToString final)) /\
    segs !! i3 = Some s3 /\ final !! i3 = Some s3 /\
    segs !! i4 = Some s4 /\ final !! i4 = Some s4 /\
    origin s3 = true /\ vowelChar (ch s3) /\
    origin s4 = true /\ vowelChar (ch s4).
Proof.
  intros Hhit Hstate Hidx.
  destruct (applyVowelSwaps_spec segs false) as (idx & final & Hidx' & Hfinal & _ & Hkeep).
  rewrite Hidx in Hidx'. injection Hidx' as <-.
  destruct (origVowelIdxOf_sound segs _ Hidx i3) as (s3 & Hs3 & Ho3 & Hv3);
    [rewrite !elem_of_cons; auto|].
  destruct (origVowelIdxOf_sound segs _ Hidx i4) as (s4 & Hs4 & Ho4 & Hv4);
    [rewrite !elem_of_cons; auto|].
  exists final, s3, s4.
  assert (Hp3 : i3 ∈ protectSetOf false [i1; i2; i3; i4]).
  { unfold protectSetOf, addIdx. simpl. apply elem_of_union_l, elem_of_singleton. reflexivity. }
  assert (Hp4 : i4 ∈ protectSetOf false [i1; i2; i3; i4]).
  { unfold protectSetOf, addIdx. simpl.
    apply elem_of_union_r, elem_of_union_l, elem_of_singleton. reflexivity. }
  repeat split; auto.
  - rewrite transformWordPart_stages, Hhit, Hstate. cbn [bind fst snd].
    rewrite Hfinal. reflexivity.
  - rewrite Hkeep by auto. exact Hs3.
  - rewrite Hkeep by auto. exact Hs4.
Qed.

Lemma last_two_of_four_vowels_kept_witness :
  exists final s3 s4,
    applyVowelSwaps
      (segFromString (str "g") true ++ segFromString (str "A") false
         ++ segFromString (str "rammatical") true) false = Normal final /\
    transformWordPart (str "grammatical") = Normal (toUpperCase (segToString final)) /\
    (segFromString (str "g") true ++ segFromString (str "A") false
       ++ segFromString (str "rammatical") true) !! 8%nat = Some s3 /\
    final !! 8%nat = Some s3 /\
    (segFromString (str "g") true ++ segFromString (str "A") false
       ++ segFromString (str "rammatical") true) !! 10%nat = Some s4 /\
    final !! 10%nat = Some s4 /\
    origin s3 = true /\ vowelChar (ch s3) /\
    origin s4 = true /\ vowelChar (ch s4).
Proof.
  apply (last_two_of_four_vowels_kept (str "grammatical") _ 3 6 8 10).
  - reflexivity.
  - reflexivity.
  - reflexivity.
Defined.

(** The source's own example of the rule, with the cluster insertion that
    precedes the swaps: the first two A are swapped, I and the last A stay. *)
Example transform_grammatical :
  transformWordPart (str "grammatical") = Normal (str "GAROMMOTICAL").
Proof. vm_compute. reflexivity. Qed.

(** ** No ER is left when the ending-AH stage runs *)

Lemma pair_ind (P : list seg -> Prop) :
  P [] -> (forall s, P [s]) ->
  (forall sa sb rest, P rest -> P (sb :: rest) -> P (sa :: sb :: rest)) ->
  forall segs, P segs.
Proof.
  intros Hnil Hone Hstep segs.
  assert (H : P segs /\ forall s, P (s :: segs)); [|tauto].
  induction segs as [|sb rest [IH1 IH2]]; split; auto.
Qed.

Lemma endsWith_true (s suf : jsstring) :
  endsWith s suf = true <-> exists pre, s = pre ++ suf.
Proof.
  unfold endsWith. rewrite andb_true_iff, Nat.leb_le, streq_true. split.
  - intros [Hlen H]. exists (take (length s - length suf) s).
    rewrite <- H at 2. symmetry. apply take_drop.
  - intros [pre ->]. rewrite length_app. split; [lia|].
    replace (length pre + length suf - length suf)%nat with (length pre) by lia.
    apply drop_app_length.
Qed.

(** What a string ends with is decided by a long enough tail of it. *)
Lemma endsWith_app (x y suf : jsstring) :
  (length suf <= length y)%nat -> endsWith (x ++ y) suf = endsWith y suf.
Proof.
  intros Hlen. apply eq_true_iff_eq. rewrite !endsWith_true. split.
  - intros [pre H]. exists (drop (length x) pre).
    assert (length x <= length pre)%nat.
    { apply (f_equal length) in H. rewrite !length_app in H. lia. }
    apply (f_equal (drop (length x))) in H.
    rewrite drop_app_length in H. rewrite H.
    rewrite drop_app_le by lia. reflexivity.
  - intros [pre ->]. exists (x ++ pre). apply app_assoc.
Qed.

Lemma toUpperCase_app (a b : jsstring) :
  toUpperCase (a ++ b) = toUpperCase a ++ toUpperCase b.
Proof. apply bind_app. Qed.

Lemma segToString_app (a b : list seg) :
  segToString (a ++ b) = segToString a ++ segToString b.
Proof. apply fmap_app. Qed.

Lemma upper_snoc (segs : list seg) (z : seg) :
  toUpperCase (segToString (segs ++ [z]))
  = toUpperCase (segToString segs) ++ upperCp (ch z).
Proof.
  rewrite segToString_app, toUpperCase_app. f_equal.
  apply (chUpper_upperCp (ch z)).
Qed.

(** A rendering whose upper case ends with "ER" ends with a segment of E
    and a segment of R. *)
Lemma upper_endsWith_ER (segs : list seg) :
  endsWith (toUpperCase (segToString segs)) (str "ER") = true ->
  exists front y z, segs = front ++ [y; z] /\
    upperCp (ch y) = [69] /\ upperCp (ch z) = [82].
Proof.
  change (str "ER") with [69; 82]. rewrite endsWith_true. intros [pre H].
  destruct segs as [|z segs _] using rev_ind; [destruct pre; discriminate|].
  rewrite upper_snoc in H.
  assert (Hz : upperCp (ch z) = [82]).
  { apply upperCp_last; [lia|lia|].
    pose proof (upperCp_not_nil (ch z)) as Hne.
    apply (f_equal last) in H. rewrite last_app in H.
    destruct (last (upperCp (ch z))) eqn:Hl; [|apply last_None in Hl; contradiction].
    rewrite H. change (pre ++ [69; 82]) with (pre ++ [69] ++ [82]).
    rewrite app_assoc. apply last_snoc. }
  rewrite Hz in H. change (pre ++ [69; 82]) with (pre ++ [69] ++ [82]) in H.
  rewrite app_assoc in H. apply app_inj_tail in H as [H _].
  destruct segs as [|y segs _] using rev_ind; [destruct pre; discriminate|].
  rewrite upper_snoc in H.
  assert (Hy : upperCp (ch y) = [69]).
  { apply upperCp_last; [lia|lia|].
    pose proof (upperCp_not_nil (ch y)) as Hne.
    apply (f_equal last) in H. rewrite last_app in H.
    destruct (last (upperCp (ch y))) eqn:Hl; [|apply last_None in Hl; contradiction].
    rewrite H. apply last_snoc. }
  exists segs, y, z. rewrite <- app_assoc. auto.
Qed.

Lemma hasPair_snoc2 (first second : jsstring) (front : list seg) (y z : seg) :
  streq (chUpper (ch y)) first && streq (chUpper (ch z)) second = true ->
  hasPair first second (front ++ [y; z]) = true.
Proof.
  intros H. induction front as [|a [|b front] IH]; simpl in *.
  - rewrite H. reflexivity.
  - rewrite H. apply orb_true_r.
  - rewrite IH. apply orb_true_r.
Qed.

Lemma noPair_not_endsWith_ER (segs : list seg) :
  hasPair (str "E") (str "R") segs = false ->
  endsWith (toUpperCase (segToString segs)) (str "ER") = false.
Proof.
  intros Hno. destruct (endsWith _ _) eqn:Hends; [|reflexivity].
  apply upper_endsWith_ER in Hends as (front & y & z & -> & Hy & Hz).
  rewrite hasPair_snoc2 in Hno; [discriminate|].
  rewrite !chUpper_upperCp, Hy, Hz. reflexivity.
Qed.

Lemma hasPair_middle (first second : jsstring) (front : list seg) (y z : seg)
    (back : list seg) :
  streq (chUpper (ch y)) first && streq (chUpper (ch z)) second = true ->
  hasPair first second (front ++ y :: z :: back) = true.
Proof.
  intros H. induction front as [|a [|b front] IH]; simpl in *.
  - rewrite H. reflexivity.
  - rewrite H. apply orb_true_r.
  - rewrite IH. apply orb_true_r.
Qed.

Lemma replacePairs_cons2 (first second ins : jsstring) (sa sb : seg) (rest : list seg) :
  replacePairs first second ins (sa :: sb :: rest)
  = if streq (chUpper (ch sa)) first && streq (chUpper (ch sb)) second
    then segFromString ins false ++ replacePairs first second ins rest
    else sa :: replacePairs first second ins (sb :: rest).
Proof. reflexivity. Qed.

Lemma hasPair_cons2 (first second : jsstring) (sa sb : seg) (rest : list seg) :
  hasPair first second (sa :: sb :: rest)
  = (streq (chUpper (ch sa)) first && streq (chUpper (ch sb)) second)
    || hasPair first second (sb :: rest).
Proof. reflexivity. Qed.

(** Replacing pairs by two segments that are no E and do not start with an
    R leaves no E before an R, provided every E before an R was one of the
    pairs to replace. *)
Lemma replacePairs_no_ER (first second ins : jsstring) (x y : seg) :
  segFromString ins false = [x; y] ->
  streq (chUpper (ch x)) (str "E") = false ->
  streq (chUpper (ch x)) (str "R") = false ->
  streq (chUpper (ch y)) (str "E") = false ->
  forall segs,
    (forall front a b back, segs = front ++ a :: b :: back ->
       streq (chUpper (ch a)) (str "E") && streq (chUpper (ch b)) (str "R") = true ->
       streq (chUpper (ch a)) first && streq (chUpper (ch b)) second = true) ->
    hasPair (str "E") (str "R") (replacePairs first second ins segs) = false /\
    (forall h t, replacePairs first second ins segs = h :: t ->
       (exists t0, segs = h :: t0) \/ h = x).
Proof.
  intros Hins HxE HxR HyE segs.
  induction segs as [| s | sa sb rest IH1 IH2] using pair_ind; intros Hq.
  - split; [reflexivity|]. intros h t [=].
  - split; [reflexivity|]. intros h t [= <- <-]. eauto.
  - rewrite replacePairs_cons2.
    assert (Hq1 : forall front a b back, rest = front ++ a :: b :: back ->
       streq (chUpper (ch a)) (str "E") && streq (chUpper (ch b)) (str "R") = true ->
       streq (chUpper (ch a)) first && streq (chUpper (ch b)) second = true).
    { intros front a b back ->. apply (Hq (sa :: sb :: front) a b back). reflexivity. }
    assert (Hq2 : forall front a b back, sb :: rest = front ++ a :: b :: back ->
       streq (chUpper (ch a)) (str "E") && streq (chUpper (ch b)) (str "R") = true ->
       streq (chUpper (ch a)) first && streq (chUpper (ch b)) second = true).
    { intros front a b back E. apply (Hq (sa :: front) a b back).
      rewrite E. reflexivity. }
    destruct (IH1 Hq1) as [IH1a IH1b]. destruct (IH2 Hq2) as [IH2a IH2b].
    destruct (streq (chUpper (ch sa)) first && streq (chUpper (ch sb)) second) eqn:Hm.
    + rewrite Hins. cbn [app]. split; [|intros h t [= <- _]; auto].
      rewrite hasPair_cons2, HxE. cbn [andb orb].
      destruct (replacePairs first second ins rest) as [|h t]; [reflexivity|].
      rewrite hasPair_cons2, HyE. cbn [andb orb]. exact IH1a.
    + split; [|intros h t [= <- _]; eauto].
      destruct (replacePairs first second ins (sb :: rest)) as [|h t] eqn:Hrp;
        [reflexivity|].
      rewrite hasPair_cons2, IH2a, orb_false_r.
      destruct (IH2b h t eq_refl) as [[t0 [= <- _]] | ->].
      * destruct (streq (chUpper (ch sa)) (str "E") && streq (chUpper (ch sb)) (str "R"))
          eqn:Her; [|reflexivity].
        rewrite (Hq [] sa sb rest eq_refl Her) in Hm. discriminate.
      * rewrite HxR. apply andb_false_r.
Qed.

Lemma after_ER_IR_no_ER (segs : list seg) :
  hasPair (str "E") (str "R")
    (replacePairs (str "I") (str "R") (str "AR")
       (replacePairs (str "E") (str "R") (str "AH") segs)) = false.
Proof.
  assert (H1 : hasPair (str "E") (str "R")
                 (replacePairs (str "E") (str "R") (str "AH") segs) = false).
  { apply (replacePairs_no_ER _ _ (str "AH") (Seg 65 false) (Seg 72 false));
      [reflexivity..|]. auto. }
  apply (replacePairs_no_ER _ _ (str "AR") (Seg 65 false) (Seg 82 false));
    [reflexivity..|].
  intros front a b back E Her.
  rewrite E, hasPair_middle in H1 by exact Her. discriminate.
Qed.

Lemma spliceSegs_end (segs : list seg) (k : Z) (ins : list seg) :
  (0 <= k <= len segs)%Z ->
  spliceSegs segs (len segs - k) (len segs) ins
  = take (Z.to_nat (len segs - k)) segs ++ ins.
Proof.
  intros Hk.
  rewrite <- (take_drop (Z.to_nat (len segs - k)) segs) at 1 2 3.
  set (front := take _ segs). set (back := drop _ segs).
  assert (Hback : len back = k).
  { unfold len, back in *. rewrite length_drop. unfold len. lia. }
  rewrite <- Hback at 1. apply spliceSegs_tail.
Qed.

Lemma segToString_segFromString (s : jsstring) (o : bool) :
  segToString (segFromString s o) = s.
Proof.
  unfold segToString, segFromString. rewrite <- list_fmap_compose.
  apply list_fmap_id.
Qed.

(** After a splice at the end, the upper-cased rendering ends as the
    upper-cased insertion does. *)
Lemma endsWith_after_insert (front : list seg) (ins suf : jsstring) :
  (length suf <= length (toUpperCase ins))%nat ->
  endsWith (toUpperCase (segToString (front ++ segFromString ins false))) suf
  = endsWith (toUpperCase ins) suf.
Proof.
  intros Hlen.
  rewrite segToString_app, toUpperCase_app, segToString_segFromString.
  apply endsWith_app, Hlen.
Qed.

Lemma replaceEndingTION_not_ER (segs : list seg) :
  endsWith (toUpperCase (segToString segs)) (str "ER") = false ->
  endsWith (toUpperCase (segToString (replaceEndingTION segs).1)) (str "ER") = false.
Proof.
  intros H. unfold replaceEndingTION.
  destruct (endsWith _ (str "TION") && _) eqn:Hc; [|exact H].
  apply andb_true_iff in Hc as [_ Hlen]. apply Z.leb_le in Hlen.
  cbn [fst]. rewrite (spliceSegs_end segs 4) by lia.
  rewrite endsWith_after_insert by (vm_compute; lia). reflexivity.
Qed.

Lemma replaceEndingTY_not_ER (segs : list seg) :
  endsWith (toUpperCase (segToString segs)) (str "ER") = false ->
  endsWith (toUpperCase (segToString (replaceEndingTY segs).1)) (str "ER") = false.
Proof.
  intros H. unfold replaceEndingTY.
  destruct (endsWith _ (str "TY") && _) eqn:Hc; [|exact H].
  apply andb_true_iff in Hc as [_ Hlen]. apply Z.leb_le in Hlen.
  cbn [fst]. rewrite (spliceSegs_end segs 2) by lia.
  rewrite endsWith_after_insert by (vm_compute; lia). reflexivity.
Qed.

Lemma replaceEndingLY_not_ER (segs : list seg) :
  endsWith (toUpperCase (segToString segs)) (str "ER") = false ->
  endsWith (toUpperCase (segToString (replaceEndingLY segs))) (str "ER") = false.
Proof.
  intros H. unfold replaceEndingLY.
  destruct (endsWith _ (str "LEY") && _) eqn:Hc.
  { apply andb_true_iff in Hc as [_ Hlen]. apply Z.leb_le in Hlen.
    rewrite (spliceSegs_end segs 3) by lia.
    rewrite endsWith_after_insert by (vm_compute; lia). reflexivity. }
  destruct (endsWith _ (str "LY") && _) eqn:Hc'; [|exact H].
  apply andb_true_iff in Hc' as [_ Hlen]. apply Z.leb_le in Hlen.
  rewrite (spliceSegs_end segs 2) by lia.
  rewrite endsWith_after_insert by (vm_compute; lia). reflexivity.
Qed.

Lemma segsAtEndingAH_stages (part : jsstring) :
  segsAtEndingAH part =
  Normal (replaceEndingLY
            (replaceEndingTY
               (replaceEndingTION
                  (replacePairs (str "I") (str "R") (str "AR")
                     (replacePairs (str "E") (str "R") (str "AH")
                        (segFromString part true)))).1).1).
Proof.
  unfold segsAtEndingAH.
  rewrite replaceAllERWithAH_spec. cbn [bind].
  rewrite replaceAllIRWithAR_spec. cbn [bind].
  destruct (replaceEndingTION _) as [s3 ?]. cbn [fst].
  destruct (replaceEndingTY _) as [s4 ?]. reflexivity.
Qed.

(** C9: when [applyEndingAH] is called inside [transformWordPart], the
    upper-cased rendering does not end with "ER": the ER stage has rewritten
    every E before an R, and the IR, TION, TY and LY/LEY stages bring none
    back.  So the "ER" test of the stage is never the one that fires, and the
    flag that reaches the vowel swaps is true exactly when that rendering
    ends with "UR" or with "A". *)
Theorem ending_ER_unreachable (part : jsstring) :
  exists segs5 segs flag,
    segsAtEndingAH part = Normal segs5 /\
    stateAtVowelSwaps part = Normal (segs, flag) /\
    flag = snd (applyEndingAH segs5) /\
    endsWith (toUpperCase (segToString segs5)) (str "ER") = false /\
    flag = endsWith (toUpperCase (segToString segs5)) (str "UR")
           || endsWith (toUpperCase (segToString segs5)) (str "A").
Proof.
  pose proof (segsAtEndingAH_stages part) as H5.
  set (segs5 := replaceEndingLY _) in H5.
  destruct (stateAtVowelSwaps_flag part segs5 H5) as [segs Hstate].
  assert (Hno : endsWith (toUpperCase (segToString segs5)) (str "ER") = false).
  { apply replaceEndingLY_not_ER, replaceEndingTY_not_ER, replaceEndingTION_not_ER.
    apply noPair_not_endsWith_ER, after_ER_IR_no_ER. }
  exists segs5, segs, (snd (applyEndingAH segs5)).
  repeat split; auto.
  unfold applyEndingAH. rewrite Hno. cbn [orb].
  destruct (endsWith _ (str "UR")); [reflexivity|].
  destruct (endsWith _ (str "A")); reflexivity.
Qed.

Example ending_flag_examples :
  stateAtVowelSwaps (str "enter")
    = Normal (segFromString (str "ent") true ++ segFromString (str "AH") false, false) /\
  stateAtVowelSwaps (str "fur")
    = Normal (segFromString (str "f") true ++ segFromString (str "AH") false, true) /\
  stateAtVowelSwaps (str "data")
    = Normal (segFromString (str "dat") true ++ segFromString (str "AH") false, true).
Proof. vm_compute. repeat split; reflexivity. Qed.

(** ** The loops, for any total [transformWordPart] *)

Section LoopFacts.

Variable wordPart : jsstring -> completion jsstring.
Hypothesis wordPart_total : forall part, exists result, wordPart part = Normal result.

Local Abbreviation transformPiece := (Orchestrator.transformPiece wordPart).
Local Abbreviation transformWordToken := (Orchestrator.transformWordToken wordPart).
Local Abbreviation convertStep := (Orchestrator.convertStep wordPart).
Local Abbreviation convertText := (Orchestrator.convertText wordPart).

Lemma transformPiece_total (piece : jsstring) :
  exists result, transformPiece piece = Normal result.
Proof.
  unfold Orchestrator.transformPiece. destruct (_ || _); [eauto|apply wordPart_total].
Qed.

Lemma transformWordToken_total (token : jsstring) :
  exists result, transformWordToken token = Normal result.
Proof.
  unfold Orchestrator.transformWordToken.
  destruct (mapC_total transformPiece (splitSeparators token []) transformPiece_total)
    as (parts & -> & _).
  cbn [bind]. eauto.
Qed.

Lemma loop_total (input : jsstring) :
  exists output, convertText input = Normal output.
Proof.
  unfold Orchestrator.convertText.
  destruct (forOf_total (convertStep input) (matchAllWordTokens input))
    with (s := ([] : jsstring, 0%nat)) as [[out last] ->].
  - intros [out last] m. unfold Orchestrator.convertStep.
    destruct (transformWordToken_total (matched m)) as [t ->]. cbn [bind]. eauto.
  - cbn [bind]. eauto.
Qed.

(** *** The loop of [convertText] walks the chunks of the input *)

Lemma bind_assoc {A B C} (m : completion A) (f : A -> completion B)
    (g : B -> completion C) :
  bind (bind m f) g = bind m (fun a => bind (f a) g).
Proof. destruct m; reflexivity. Qed.

Lemma slice_middle (pre g rest : jsstring) :
  slice (pre ++ g ++ rest) (length pre) (length (pre ++ g)) = g.
Proof.
  unfold slice. rewrite drop_app_length, length_app.
  replace (length pre + length g - length pre)%nat with (length g) by lia.
  apply take_app_length.
Qed.

Lemma convertStep_spec (input pre g t rest out : jsstring) :
  input = pre ++ g ++ t ++ rest ->
  convertStep input (out, length pre) (Match (length (pre ++ g)) t)
  = let* t' := transformWordToken t in
    Normal ((out ++ g) ++ t', length (pre ++ g ++ t)).
Proof.
  intros ->. unfold Orchestrator.convertStep. cbn [index matched]. rewrite slice_middle.
  destruct (transformWordToken t); cbn [bind]; [|reflexivity..].
  rewrite !length_app. do 2 f_equal. lia.
Qed.

Lemma scan_chunks (input : jsstring) (K : jsstring * nat -> completion jsstring) :
  K = (fun st => Normal (toUpperCase (st.1 ++ sliceFrom input st.2))) ->
  forall s,
    (forall pre g out, input = pre ++ g ++ s ->
       bind (forOf (convertStep input) (scanTokens s (length (pre ++ g)) None)
               (out, length pre)) K
       = let* outs := mapC (renderChunk wordPart) (chunksFrom s (Gap g)) in
         Normal (toUpperCase (out ++ concat outs))) /\
    (forall pre g t out, input = pre ++ g ++ t ++ s ->
       bind (forOf (convertStep input)
               (scanTokens s (length (pre ++ g ++ t))
                  (Some (Match (length (pre ++ g)) t)))
               (out, length pre)) K
       = let* outs := mapC (renderChunk wordPart) (chunksFrom s (Token t)) in
         Normal (toUpperCase (out ++ g ++ concat outs))).
Proof.
  intros HK. induction s as [|c s [IHgap IHtok]]; split.
  - intros pre g out ->. subst K. cbn. unfold sliceFrom.
    rewrite drop_app_length, !app_nil_r. reflexivity.
  - intros pre g t out Hin. cbn [scanTokens forOf chunksFrom mapC renderChunk].
    rewrite (convertStep_spec input pre g t [] out Hin). subst input.
    destruct (transformWordToken t) as [t'| |]; cbn; [|reflexivity..].
    subst K. cbn. unfold sliceFrom, toUpperCase.
    rewrite !app_nil_r, drop_all, ?app_nil_r, <- !app_assoc. reflexivity.
  - intros pre g out Hin. cbn [scanTokens chunksFrom].
    destruct (isLetter c).
    + cbn [mapC renderChunk bind].
      replace (S (length (pre ++ g))) with (length (pre ++ g ++ [c]))
        by (rewrite !length_app; simpl; lia).
      rewrite (IHtok pre g [c] out) by (rewrite Hin; reflexivity).
      destruct (mapC (renderChunk wordPart) (chunksFrom s (Token [c]))); reflexivity.
    + replace (S (length (pre ++ g))) with (length (pre ++ (g ++ [c])))
        by (rewrite !length_app; simpl; lia).
      apply IHgap. rewrite Hin, <- app_assoc. reflexivity.
  - intros pre g t out Hin. cbn [scanTokens chunksFrom index matched].
    destruct (isLetter c || isSeparator c && startsWithLetter s).
    + replace (S (length (pre ++ g ++ t))) with (length (pre ++ g ++ (t ++ [c])))
        by (rewrite !length_app; simpl; lia).
      apply IHtok. rewrite Hin, <- app_assoc. reflexivity.
    + cbn [forOf mapC renderChunk]. rewrite bind_assoc.
      rewrite (convertStep_spec input pre g t (c :: s) out Hin). rewrite !bind_assoc.
      destruct (transformWordToken t) as [t'| |]; cbn [bind]; [|reflexivity..].
      replace (S (length (pre ++ g ++ t))) with (length ((pre ++ g ++ t) ++ [c]))
        by (rewrite !length_app; simpl; lia).
      rewrite (IHgap (pre ++ g ++ t) [c] ((out ++ g) ++ t'))
        by (rewrite Hin, <- !app_assoc; reflexivity).
      destruct (mapC (renderChunk wordPart) (chunksFrom s (Gap [c]))); cbn [bind]; [|reflexivity..].
      cbn [concat]. rewrite <- !app_assoc. reflexivity.
Qed.

Lemma convertText_chunks (input : jsstring) :
  convertText input =
  let* outs := mapC (renderChunk wordPart) (chunks input) in
  Normal (toUpperCase (concat outs)).
Proof.
  pose proof (proj1 (scan_chunks input _ eq_refl input) [] [] [] eq_refl) as H.
  unfold Orchestrator.convertText, matchAllWordTokens, chunks.
  cbn [app length] in H. rewrite <- H.
  destruct (forOf _ _ _) as [[out last]| |]; reflexivity.
Qed.

(** ** The chunks: what they are made of *)

Lemma chunksFrom_raw (s : jsstring) :
  forall cur, concat (raw <$> chunksFrom s cur) = raw cur ++ s.
Proof.
  induction s as [|c s IH]; intros [g|t]; cbn [chunksFrom].
  - cbn. rewrite !app_nil_r. reflexivity.
  - cbn. rewrite !app_nil_r. reflexivity.
  - destruct (isLetter c).
    + rewrite fmap_cons. cbn [concat raw]. rewrite IH. reflexivity.
    + rewrite IH. cbn [raw]. rewrite <- app_assoc. reflexivity.
  - destruct (isLetter c || _).
    + rewrite IH. cbn [raw]. rewrite <- app_assoc. reflexivity.
    + rewrite fmap_cons. cbn [concat raw]. rewrite IH. reflexivity.
Qed.

Lemma chunks_raw (input : jsstring) : concat (raw <$> chunks input) = input.
Proof. apply (chunksFrom_raw input (Gap [])). Qed.

(** The gaps are the spans [convertText] slices out of the input, and the
    tokens are the matches of the pattern. *)
Lemma scan_spans (input : jsstring) :
  forall s,
    (forall pre g, input = pre ++ g ++ s ->
       passThroughSpans input (scanTokens s (length (pre ++ g)) None) (length pre)
       = gapsOf (chunksFrom s (Gap g)) /\
       matched <$> scanTokens s (length (pre ++ g)) None
       = tokensOf (chunksFrom s (Gap g))) /\
    (forall pre g t, input = pre ++ g ++ t ++ s ->
       passThroughSpans input
         (scanTokens s (length (pre ++ g ++ t)) (Some (Match (length (pre ++ g)) t)))
         (length pre)
       = g :: gapsOf (chunksFrom s (Token t)) /\
       matched <$> scanTokens s (length (pre ++ g ++ t))
                     (Some (Match (length (pre ++ g)) t))
       = tokensOf (chunksFrom s (Token t))).
Proof.
  induction s as [|c s [IHgap IHtok]]; split.
  - intros pre g ->. cbn. unfold sliceFrom.
    rewrite drop_app_length, !app_nil_r. auto.
  - intros pre g t ->. cbn [scanTokens chunksFrom passThroughSpans index matched].
    unfold sliceFrom. rewrite slice_middle, app_nil_r.
    replace (length (pre ++ g) + length t)%nat with (length (pre ++ g ++ t))
      by (rewrite !length_app; lia).
    rewrite drop_all. auto.
  - intros pre g Hin. cbn [scanTokens chunksFrom].
    destruct (isLetter c).
    + replace (S (length (pre ++ g))) with (length (pre ++ g ++ [c]))
        by (rewrite !length_app; simpl; lia).
      destruct (IHtok pre g [c]) as [H1 H2]; [rewrite Hin; reflexivity|].
      rewrite H1, H2. auto.
    + replace (S (length (pre ++ g))) with (length (pre ++ (g ++ [c])))
        by (rewrite !length_app; simpl; lia).
      apply IHgap. rewrite Hin, <- app_assoc. reflexivity.
  - intros pre g t Hin. cbn [scanTokens chunksFrom index matched].
    destruct (isLetter c || isSeparator c && startsWithLetter s).
    + replace (S (length (pre ++ g ++ t))) with (length (pre ++ g ++ (t ++ [c])))
        by (rewrite !length_app; simpl; lia).
      apply IHtok. rewrite Hin, <- app_assoc. reflexivity.
    + cbn [passThroughSpans index matched].
      rewrite Hin at 1. rewrite slice_middle.
      replace (length (pre ++ g) + length t)%nat with (length (pre ++ g ++ t))
        by (rewrite !length_app; lia).
      replace (S (length (pre ++ g ++ t))) with (length ((pre ++ g ++ t) ++ [c]))
        by (rewrite !length_app; simpl; lia).
      destruct (IHgap (pre ++ g ++ t) [c]) as [H1 H2];
        [rewrite Hin, <- !app_assoc; reflexivity|].
      rewrite fmap_cons, H1, H2. auto.
Qed.

Lemma chunks_spans (input : jsstring) :
  passThroughSpans input (matchAllWordTokens input) 0 = gapsOf (chunks input) /\
  matched <$> matchAllWordTokens input = tokensOf (chunks input).
Proof. apply (proj1 (scan_spans input input) [] [] eq_refl). Qed.

Lemma wordToken_snoc_letter (t : jsstring) (c : char) :
  wordToken t -> isLetter c = true -> wordToken (t ++ [c]).
Proof.
  intros Ht Hc. induction Ht as [w Hne Hw | w sep t Hne Hw Hsep Ht IH].
  - apply wordToken_one; [destruct w; discriminate|].
    apply Forall_app; auto.
  - rewrite <- app_assoc. cbn [app]. apply wordToken_cons; auto.
Qed.

Lemma wordToken_snoc_separator (t : jsstring) (sep c : char) :
  wordToken t -> isSeparator sep = true -> isLetter c = true ->
  wordToken (t ++ [sep; c]).
Proof.
  intros Ht Hsep Hc. induction Ht as [w Hne Hw | w sep' t Hne Hw Hsep' Ht IH].
  - apply wordToken_cons; auto. apply wordToken_one; [discriminate|auto].
  - rewrite <- app_assoc. cbn [app]. apply wordToken_cons; auto.
Qed.

Lemma chunksFrom_wf (s : jsstring) :
  (forall g, Forall (fun c => isLetter c = false) g ->
     Forall chunkOK (chunksFrom s (Gap g))) /\
  (forall t,
     wordToken t \/
     (exists t0 sep, t = t0 ++ [sep] /\ wordToken t0 /\
        isSeparator sep = true /\ startsWithLetter s = true) ->
     Forall chunkOK (chunksFrom s (Token t))).
Proof.
  induction s as [|c s [IHgap IHtok]]; split.
  - intros g Hg. constructor; [exact Hg|constructor].
  - intros t [Ht | (t0 & sep & _ & _ & _ & Hs)]; [|discriminate].
    constructor; [exact Ht|]. constructor; [|constructor]. constructor.
  - intros g Hg. cbn [chunksFrom]. destruct (isLetter c) eqn:Hc.
    + constructor; [exact Hg|]. apply IHtok. left.
      apply wordToken_one; [discriminate|]. auto.
    + apply IHgap. apply Forall_app. auto.
  - intros t Ht. cbn [chunksFrom]. destruct (isLetter c) eqn:Hc; cbn [orb].
    + apply IHtok. left. destruct Ht as [Ht | (t0 & sep & -> & Ht0 & Hsep & _)].
      * apply wordToken_snoc_letter; auto.
      * rewrite <- app_assoc. apply wordToken_snoc_separator; auto.
    + assert (Ht' : wordToken t).
      { destruct Ht as [Ht | (t0 & sep & _ & _ & _ & Hs)]; [exact Ht|].
        cbn in Hs. congruence. }
      destruct (isSeparator c && startsWithLetter s) eqn:Hsep.
      * apply andb_true_iff in Hsep as [Hsep Hs].
        apply IHtok. right. exists t, c. auto.
      * constructor; [exact Ht'|]. apply IHgap. auto.
Qed.

Lemma chunks_wf (input : jsstring) : Forall chunkOK (chunks input).
Proof. apply (proj1 (chunksFrom_wf input)). constructor. Qed.



Lemma letter_not_separator (c : char) : isLetter c = true -> isSeparator c = false.
Proof. unfold isLetter, isSeparator. case_bools; intros Heq; try discriminate; lia. Qed.

Lemma isLetter_range (c : char) :
  isLetter c = true <-> 65 <= c <= 90 \/ 97 <= c <= 122.
Proof. unfold isLetter. case_bools; split; intros Heq; try discriminate; lia. Qed.




Lemma upperCp_ascii_other (c : char) :
  c < 128 -> isLetter c = false -> upperCp c = [c].
Proof.
  unfold isLetter, upperCp. intros Hc. case_bools; intros Heq; try discriminate;
    try reflexivity; lia.
Qed.

Lemma toUpperCase_fixed (g : jsstring) :
  Forall (fun c => upperCp c = [c]) g -> toUpperCase g = g.
Proof.
  unfold toUpperCase. induction 1 as [|c g Hc Hg IH]; [reflexivity|].
  rewrite bind_cons, Hc, IH. reflexivity.
Qed.

Lemma toUpperCase_concat (outs : list jsstring) :
  toUpperCase (concat outs) = concat (toUpperCase <$> outs).
Proof.
  induction outs as [|o outs IH]; [reflexivity|].
  cbn [concat fmap list_fmap]. rewrite toUpperCase_app, IH. reflexivity.
Qed.

Lemma mapC_lookup {A B : Type} (f : A -> completion B) (xs : list A) (ys : list B) :
  mapC f xs = Normal ys ->
  forall k x, xs !! k = Some x -> exists y, ys !! k = Some y /\ f x = Normal y.
Proof.
  revert ys. induction xs as [|x0 xs IH]; intros ys H k x Hk; [discriminate|].
  cbn [mapC] in H. apply bind_Normal in H as (y0 & Hy0 & H).
  apply bind_Normal in H as (ys' & Hys' & [= <-]).
  destruct k as [|k].
  - injection Hk as <-. exists y0. auto.
  - apply (IH ys' Hys' k x Hk).
Qed.

Lemma renderChunks_total (input : jsstring) :
  exists outs, mapC (renderChunk wordPart) (chunks input) = Normal outs.
Proof.
  destruct (mapC_total (renderChunk wordPart) (chunks input)) as (outs & H & _); [|eauto].
  intros [g|t]; cbn [renderChunk]; [eauto|apply transformWordToken_total].
Qed.


Lemma slice_concat (pieces : list jsstring) (k : nat) (x : jsstring) :
  pieces !! k = Some x ->
  slice (concat pieces) (offsetOf pieces k) (offsetOf pieces k + length x) = x.
Proof.
  intros Hk. unfold offsetOf.
  rewrite <- (take_drop_middle pieces k x Hk) at 1.
  rewrite concat_app. cbn [concat].
  replace (length (concat (take k pieces)) + length x)%nat
    with (length (concat (take k pieces) ++ x)) by (rewrite length_app; reflexivity).
  apply slice_middle.
Qed.

(** The output is the upper-cased concatenation of what the chunks render
    to; a gap renders to itself. *)
Lemma spans_kept_for (input : jsstring) :
  exists outs,
    mapC (renderChunk wordPart) (chunks input) = Normal outs /\
    convertText input = Normal (concat (toUpperCase <$> outs)) /\
    concat (raw <$> chunks input) = input /\
    gapsOf (chunks input) = passThroughSpans input (matchAllWordTokens input) 0 /\
    tokensOf (chunks input) = matched <$> matchAllWordTokens input /\
    forall k g, chunks input !! k = Some (Gap g) ->
      outs !! k = Some g /\
      Forall (fun c => isLetter c = false) g /\
      (Forall (fun c => upperCp c = [c]) g -> toUpperCase g = g) /\
      (Forall (fun c => c < 128) g -> toUpperCase g = g) /\
      (let at_ := offsetOf (raw <$> chunks input) k in
       slice input at_ (at_ + length g) = g) /\
      (let at_ := offsetOf (toUpperCase <$> outs) k in
       slice (concat (toUpperCase <$> outs)) at_ (at_ + length (toUpperCase g))
       = toUpperCase g).
Proof.
  destruct (renderChunks_total input) as [outs Houts]. exists outs.
  destruct (chunks_spans input) as [Hgaps Htokens].
  repeat split; auto using chunks_raw.
  - rewrite convertText_chunks, Houts. cbn [bind].
    rewrite toUpperCase_concat. reflexivity.
  - destruct (mapC_lookup _ _ _ Houts k (Gap g) H) as (y & Hy & [= <-]). exact Hy.
  - pose proof (chunks_wf input) as Hwf. rewrite Forall_lookup in Hwf.
    apply (Hwf k (Gap g) H).
  - apply toUpperCase_fixed.
  - intros Hascii. apply toUpperCase_fixed.
    pose proof (chunks_wf input) as Hwf. rewrite Forall_lookup in Hwf.
    pose proof (Hwf k (Gap g) H) as Hg. cbn in Hg.
    rewrite Forall_forall in *. intros c Hc.
    apply upperCp_ascii_other; auto.
  - cbv zeta. rewrite <- (chunks_raw input) at 1.
    apply (slice_concat (raw <$> chunks input) k g).
    rewrite list_lookup_fmap, H. reflexivity.
  - cbv zeta. apply (slice_concat (toUpperCase <$> outs) k (toUpperCase g)).
    destruct (mapC_lookup _ _ _ Houts k (Gap g) H) as (y & Hy & [= <-]).
    rewrite list_lookup_fmap, Hy. reflexivity.
Qed.


End LoopFacts.

(** ** The engine returns normally *)

(** C8: [convertText] returns normally on every input string: no read of a
    property of [undefined] is ever reached, and every loop ends within its
    bound.  The empty string, strings of separators only and strings without
    letters are inputs like any other. *)
Theorem convertText_total (input : jsstring) :
  exists output, convertText input = Normal output.
Proof. exact (loop_total transformWordPart transformWordPart_total input). Qed.

Example convertText_no_letters :
  convertText [] = Normal [] /\
  convertText (str "-'-") = Normal (str "-'-") /\
  convertText (str "12, 3!") = Normal (str "12, 3!").
Proof. vm_compute. repeat split; reflexivity. Qed.

(** ** What happens to the characters that are no letters *)





(** ** The other copy *)

Lemma applyStartingUYoo_total (segs : list seg) :
  exists segs', Duplicate.applyStartingUYoo segs = Normal segs'.
Proof.
  unfold Duplicate.applyStartingUYoo.
  destruct segs as [|s0 [|s1 rest]]; unfold len; simpl; case_ifs; eauto.
Qed.

Lemma duplicate_transformWordPart_total (part : jsstring) :
  exists result, Duplicate.transformWordPart part = Normal result.
Proof.
  unfold Duplicate.transformWordPart. destruct (hit _); [eauto|].
  rewrite replaceAllERWithAH_spec. cbn [bind].
  destruct (replaceEndingTION _) as [s2 ?].
  destruct (replaceEndingTY s2) as [s3 ?].
  destruct (applyEndingAH _) as [s5 flag].
  destruct (replaceEndingYToEH s5) as [s6 ?].
  destruct (applyStartingUYoo_total s6) as [s7 ->]. cbn [bind].
  destruct (applyPrefixREToRO_total s7) as [s8 ->]. cbn [bind].
  destruct (applyClusterInsertions_total s8) as [s9 ->]. cbn [bind].
  destruct (applyVowelSwaps_spec s9 flag) as (idx & final & _ & -> & _).
  cbn [bind]. eauto.
Qed.

(** The statements about the loops hold for the other copy as well. *)
Lemma duplicate_loop_total (input : jsstring) :
  exists output, Duplicate.convertText input = Normal output.
Proof.
  exact (loop_total Duplicate.transformWordPart duplicate_transformWordPart_total input).
Qed.

Lemma duplicate_spans_kept (input : jsstring) :
  exists outs,
    mapC (renderChunk Duplicate.transformWordPart) (chunks input) = Normal outs /\
    Duplicate.convertText input = Normal (concat (toUpperCase <$> outs)) /\
    concat (raw <$> chunks input) = input /\
    gapsOf (chunks input) = passThroughSpans input (matchAllWordTokens input) 0 /\
    tokensOf (chunks input) = matched <$> matchAllWordTokens input /\
    forall k g, chunks input !! k = Some (Gap g) ->
      outs !! k = Some g /\
      Forall (fun c => isLetter c = false) g /\
      (Forall (fun c => upperCp c = [c]) g -> toUpperCase g = g) /\
      (Forall (fun c => c < 128) g -> toUpperCase g = g) /\
      (let at_ := offsetOf (raw <$> chunks input) k in
       slice input at_ (at_ + length g) = g) /\
      (let at_ := offsetOf (toUpperCase <$> outs) k in
       slice (concat (toUpperCase <$> outs)) at_ (at_ + length (toUpperCase g))
       = toUpperCase g).
Proof.
  exact (spans_kept_for Duplicate.transformWordPart duplicate_transformWordPart_total input).
Qed.

(** There, too, a character that is no letter moves and changes: a final A
    becomes AH in both copies. *)
Example duplicate_moves_and_changes :
  Duplicate.convertText (str "a!") = Normal (str "AH!") /\
  convertText (str "a!") = Normal (str "AH!") /\
  Duplicate.convertText [233] = Normal [201] /\
  Duplicate.convertText (str "snake") = Normal (str "SNOKE").
Proof. vm_compute. repeat split; reflexivity. Qed.

(** * Further properties of the engine *)

(** ** The vowel swaps, as a map over the array on entry *)

Lemma forLoop_invariant_at {St : Type} (Inv : nat -> St -> Prop)
    (body : nat -> St -> completion St) (n : nat) :
  forall from s,
    Inv from s ->
    (forall i t, (from <= i < from + n)%nat -> Inv i t ->
       exists t', body i t = Normal t' /\ Inv (S i) t') ->
    exists s', forLoop body from n s = Normal s' /\ Inv (from + n)%nat s'.
Proof.
  induction n as [|n IH]; intros from s Hs Hbody; simpl.
  - rewrite Nat.add_0_r. eauto.
  - destruct (Hbody from s ltac:(lia) Hs) as (t & -> & Ht). simpl.
    replace (from + S n)%nat with (S from + n)%nat by lia.
    apply IH; [exact Ht|]. intros i u Hi Hu. apply Hbody; [lia|exact Hu].
Qed.

Lemma origVowelIdxOf_spec (segs : list seg) :
  origVowelIdxOf segs = Normal (origVowelIdx segs).
Proof.
  unfold origVowelIdxOf, origVowelIdx.
  destruct (forLoop_invariant_at
              (fun i (acc : list nat) =>
                 acc = List.filter (isOrigVowel segs) (seq 0 i))
              (fun i (acc : list nat) =>
                 let* s := segAt segs i in
                 if negb (origin s) then Normal acc
                 else if has VOWELS (chUpper (ch s)) then Normal (acc ++ [i])
                      else Normal acc)
              (length segs) 0 []) as (idx & H & Hinv).
  - reflexivity.
  - intros i acc Hi ->.
    destruct (segAt_lt segs i ltac:(lia)) as (s & Hs & ->). cbn [bind].
    rewrite seq_S, List.filter_app. cbn [List.filter Nat.add].
    assert (isOrigVowel segs i = origin s && has VOWELS (chUpper (ch s))) as ->
      by (unfold isOrigVowel; rewrite Hs; reflexivity).
    destruct (origin s); cbn [negb andb];
      [destruct (has VOWELS _)|]; eexists; split; try reflexivity;
      rewrite ?app_nil_r; reflexivity.
  - rewrite H, Hinv. reflexivity.
Qed.

Lemma swapStep_exact (segs t : list seg) (boundary : nat) (protectSet : gset nat)
    (i : nat) :
  (i < length segs)%nat ->
  t !! i = segs !! i -> t !! (i + 1)%nat = segs !! (i + 1)%nat ->
  swapStep boundary protectSet i t
  = Normal (if swapsAt segs boundary protectSet i
            then <[ i := Seg (N_of_ascii "o") false ]> t else t).
Proof.
  intros Hi Hti Hnext. unfold swapStep, swapsAt, segAt. rewrite Hti, Hnext.
  destruct (lookup_lt_is_Some_2 segs i Hi) as [s ->]. cbn [bind].
  destruct (Nat.leb_spec boundary i), (Nat.ltb_spec i boundary); try lia;
    cbn [andb]; [reflexivity|].
  destruct (origin s); cbn [negb andb]; [|reflexivity].
  destruct (has SWAPPABLE _); cbn [negb andb]; [|reflexivity].
  destruct (bool_decide _); cbn [negb andb]; [reflexivity|].
  destruct (has VOWELS _); reflexivity.
Qed.

Lemma applyVowelSwaps_exact (segs : list seg) (flag : bool) :
  applyVowelSwaps segs flag = Normal (vowelSwapsOf segs flag).
Proof.
  unfold applyVowelSwaps, vowelSwapsOf. rewrite origVowelIdxOf_spec. cbn [bind].
  set (b := protectedSuffixStartIndex segs).
  set (P := protectSetOf flag (origVowelIdx segs)).
  destruct (forLoop_invariant_at
              (fun i t => length t = length segs /\
                 forall k, t !! k =
                   if (k <? i)%nat && swapsAt segs b P k
                   then Some (Seg (N_of_ascii "o") false) else segs !! k)
              (swapStep b P) (length segs) 0 segs) as (final & -> & Hlen & Hfinal).
  - split; [reflexivity|]. intros k. reflexivity.
  - intros i t Hi [Hlen Ht].
    rewrite (swapStep_exact segs t b P i); [| lia | |].
    2:{ rewrite Ht. rewrite Nat.ltb_irrefl. reflexivity. }
    2:{ rewrite Ht. destruct (Nat.ltb_spec (i + 1) i); [lia|]. reflexivity. }
    eexists. split; [reflexivity|].
    destruct (swapsAt segs b P i) eqn:Hsw.
    + split; [rewrite length_insert; exact Hlen|]. intros k.
      destruct (decide (k = i)) as [->|Hne].
      * rewrite list_lookup_insert_eq by lia.
        destruct (Nat.ltb_spec i (S i)); [|lia]. rewrite Hsw. reflexivity.
      * rewrite list_lookup_insert_ne by congruence. rewrite Ht.
        destruct (Nat.ltb_spec k i), (Nat.ltb_spec k (S i)); try lia; reflexivity.
    + split; [exact Hlen|]. intros k. rewrite Ht.
      destruct (decide (k = i)) as [->|Hne].
      * rewrite Nat.ltb_irrefl. cbn [andb]. rewrite Hsw, andb_false_r. reflexivity.
      * destruct (Nat.ltb_spec k i), (Nat.ltb_spec k (S i)); try lia; reflexivity.
  - f_equal. apply list_eq. intros k. rewrite Hfinal, list_lookup_imap.
    cbn [Nat.add]. destruct (segs !! k) as [s|] eqn:Hk;
      cbn [fmap option_fmap option_map].
    + apply lookup_lt_Some in Hk as Hlt.
      destruct (Nat.ltb_spec k (length segs)); [|lia]. cbn [andb].
      destruct (swapsAt segs b P k); reflexivity.
    + unfold swapsAt. rewrite Hk, andb_false_r. reflexivity.
Qed.

(** ** The protected suffix boundary *)

Lemma find_first {A : Type} (f : A -> bool) (l : list A) (x : A) :
  List.find f l = Some x ->
  exists pre post, l = pre ++ x :: post /\ f x = true /\
    Forall (fun y => f y = false) pre.
Proof.
  induction l as [|a l IH]; [discriminate|]. cbn [List.find].
  destruct (f a) eqn:Ha.
  - intros [= <-]. exists [], l. auto.
  - intros H. destruct (IH H) as (pre & post & -> & Hx & Hpre).
    exists (a :: pre), post. auto.
Qed.

Lemma find_nothing {A : Type} (f : A -> bool) (l : list A) :
  List.find f l = None -> Forall (fun y => f y = false) l.
Proof.
  induction l as [|a l IH]; [constructor|]. cbn [List.find].
  destruct (f a) eqn:Ha; [discriminate|]. auto.
Qed.

Lemma lengthsDescend_head (a : jsstring) (l : list jsstring) :
  lengthsDescend (a :: l) = true ->
  lengthsDescend l = true /\ Forall (fun y => (length y <= length a)%nat) l.
Proof.
  revert a. induction l as [|b l IH]; intros a H; [auto|].
  cbn [lengthsDescend] in H. apply andb_true_iff in H as [Hab Hrest].
  apply Nat.leb_le in Hab. destruct (IH b Hrest) as [Hl Hall].
  split; [exact Hrest|]. constructor; [exact Hab|].
  eapply Forall_impl; [exact Hall|]. cbn. intros y Hy. lia.
Qed.

Lemma lengthsDescend_later (l pre post : list jsstring) (x : jsstring) :
  lengthsDescend l = true -> l = pre ++ x :: post ->
  Forall (fun y => (length y <= length x)%nat) post.
Proof.
  revert l. induction pre as [|a pre IH]; intros l H ->.
  - apply (lengthsDescend_head x post H).
  - apply (IH (pre ++ x :: post)); [|reflexivity].
    apply (lengthsDescend_head a _ H).
Qed.

Lemma PROTECTED_SUFFIXES_descend : lengthsDescend PROTECTED_SUFFIXES = true.
Proof. vm_compute. reflexivity. Qed.

Lemma endsWith_length (s suf : jsstring) :
  endsWith s suf = true ->
  (length suf <= length s)%nat /\ drop (length s - length suf) s = suf.
Proof.
  unfold endsWith. rewrite andb_true_iff, Nat.leb_le, streq_true. auto.
Qed.

Lemma boundary_cases (segs : list seg) :
  let upper := toUpperCase (segToString segs) in
  let boundary := protectedSuffixStartIndex segs in
  (boundary <= length upper)%nat /\
  ((boundary = length upper /\
    Forall (fun suf => endsWith upper suf = false) PROTECTED_SUFFIXES) \/
   (In (drop boundary upper) PROTECTED_SUFFIXES /\
    endsWith upper (drop boundary upper) = true /\
    forall suf, In suf PROTECTED_SUFFIXES -> endsWith upper suf = true ->
      (length upper - length suf >= boundary)%nat)).
Proof.
  cbv zeta. unfold protectedSuffixStartIndex.
  set (upper := toUpperCase (segToString segs)).
  destruct (List.find (endsWith upper) PROTECTED_SUFFIXES) as [suf0|] eqn:Hfind.
  - destruct (find_first _ _ _ Hfind) as (pre & post & Htable & Hsuf0 & Hpre).
    destruct (endsWith_length _ _ Hsuf0) as [Hlen Hdrop].
    split; [lia|]. right. rewrite Hdrop. split; [|split; [exact Hsuf0|]].
    + rewrite Htable. apply in_or_app. right. left. reflexivity.
    + intros suf Hin Hsuf. rewrite Htable in Hin.
      apply in_app_or in Hin as [Hin|[<-|Hin]].
      * rewrite Forall_forall in Hpre. apply list_elem_of_In in Hin.
        rewrite (Hpre suf Hin) in Hsuf. discriminate.
      * lia.
      * pose proof (lengthsDescend_later _ _ _ _ PROTECTED_SUFFIXES_descend Htable) as Hd.
        rewrite Forall_forall in Hd. apply list_elem_of_In in Hin.
        specialize (Hd suf Hin). cbn in Hd. lia.
  - split; [lia|]. left. split; [reflexivity|]. apply find_nothing, Hfind.
Qed.

(** X1: the boundary that [protectedSuffixStartIndex] returns lies inside
    the upper-cased rendering.  If no protected suffix ends the rendering it
    is the length; else the rendering from the boundary on is a protected
    suffix, and the longest of those that end the rendering. *)
Theorem boundary_is_longest_protected_suffix (segs : list seg) :
  let upper := toUpperCase (segToString segs) in
  let boundary := protectedSuffixStartIndex segs in
  (boundary <= length upper)%nat /\
  ((boundary = length upper /\
    Forall (fun suf => endsWith upper suf = false) PROTECTED_SUFFIXES) \/
   (In (drop boundary upper) PROTECTED_SUFFIXES /\
    endsWith upper (drop boundary upper) = true /\
    forall suf, In suf PROTECTED_SUFFIXES -> endsWith upper suf = true ->
      (length suf <= length (drop boundary upper))%nat)).
Proof.
  destruct (boundary_cases segs) as [Hle [Hnone|(Hin & Hends & Hlongest)]];
    cbv zeta in *; split; auto.
  right. split; [exact Hin|]. split; [exact Hends|].
  intros suf Hsuf Hmatch. specialize (Hlongest suf Hsuf Hmatch).
  destruct (endsWith_length _ _ Hmatch) as [Hlen _].
  rewrite length_drop. lia.
Qed.

(** ** What the vowel swaps change and what they leave *)

Lemma vowelSwapsOf_lookup (segs : list seg) (flag : bool) (i : nat) :
  vowelSwapsOf segs flag !! i =
  if swapsAt segs (protectedSuffixStartIndex segs)
       (protectSetOf flag (origVowelIdx segs)) i
  then Some (Seg (N_of_ascii "o") false) else segs !! i.
Proof.
  unfold vowelSwapsOf. rewrite list_lookup_imap.
  destruct (segs !! i) as [s|] eqn:Hi; cbn [fmap option_fmap option_map].
  - destruct (swapsAt _ _ _ i); reflexivity.
  - unfold swapsAt. rewrite Hi. reflexivity.
Qed.

Lemma vowelSwapsOf_length (segs : list seg) (flag : bool) :
  length (vowelSwapsOf segs flag) = length segs.
Proof. unfold vowelSwapsOf. apply length_imap. Qed.

(** X2: the two loops of [applyVowelSwaps] never throw, keep the length
    of the array, and replace by a synthesized "o" exactly the segments
    that pass the tests of the second loop taken on the array as it was on
    entry: a swap made earlier in the loop never changes a later decision. *)
Theorem vowel_swaps_decided_on_entry (segs : list seg) (flag : bool) :
  exists final,
    applyVowelSwaps segs flag = Normal final /\
    origVowelIdxOf segs = Normal (origVowelIdx segs) /\
    length final = length segs /\
    forall i,
      final !! i =
      if swapsAt segs (protectedSuffixStartIndex segs)
           (protectSetOf flag (origVowelIdx segs)) i
      then Some (Seg (N_of_ascii "o") false) else segs !! i.
Proof.
  exists (vowelSwapsOf segs flag).
  split; [apply applyVowelSwaps_exact|]. split; [apply origVowelIdxOf_spec|].
  split; [apply vowelSwapsOf_length|]. apply vowelSwapsOf_lookup.
Qed.

Lemma has_In (set : list jsstring) (x : jsstring) :
  has set x = true <-> In x set.
Proof.
  unfold has. rewrite existsb_exists. split.
  - intros (y & Hy & Heq). apply streq_true in Heq. subst. exact Hy.
  - intros Hx. exists x. split; [exact Hx|apply streq_refl].
Qed.

Lemma applyVowelSwaps_lookup (segs final : list seg) (flag : bool) (i : nat) :
  applyVowelSwaps segs flag = Normal final ->
  final !! i =
  if swapsAt segs (protectedSuffixStartIndex segs)
       (protectSetOf flag (origVowelIdx segs)) i
  then Some (Seg (N_of_ascii "o") false) else segs !! i.
Proof.
  rewrite applyVowelSwaps_exact. intros [= <-]. apply vowelSwapsOf_lookup.
Qed.

(** X3: no segment inside a protected suffix that ends the upper-cased
    rendering is swapped, whichever suffix of the table it is. *)
Theorem protected_suffix_never_swapped (segs final : list seg) (flag : bool)
    (suf : jsstring) (k : nat) :
  applyVowelSwaps segs flag = Normal final ->
  has PROTECTED_SUFFIXES suf = true ->
  endsWith (toUpperCase (segToString segs)) suf = true ->
  (length (toUpperCase (segToString segs)) - length suf <= k)%nat ->
  final !! k = segs !! k.
Proof.
  intros Hfinal Hsuf Hends Hk.
  rewrite (applyVowelSwaps_lookup _ _ _ k Hfinal).
  destruct (boundary_cases segs) as [_ [[_ Hnone]|(_ & _ & Hlongest)]]; cbv zeta in *.
  - apply has_In in Hsuf. rewrite Forall_forall in Hnone.
    apply list_elem_of_In in Hsuf. rewrite (Hnone suf Hsuf) in Hends. discriminate.
  - apply has_In in Hsuf. specialize (Hlongest suf Hsuf Hends).
    unfold swapsAt. destruct (segs !! k); [|reflexivity].
    destruct (Nat.ltb_spec k (protectedSuffixStartIndex segs)); [lia|]. reflexivity.
Qed.

Lemma protected_suffix_never_swapped_witness :
  segFromString (str "table") true !! 1%nat = segFromString (str "table") true !! 1%nat.
Proof.
  apply (protected_suffix_never_swapped
           (segFromString (str "table") true) (segFromString (str "table") true)
           false (str "ABLE") 1).
  - reflexivity.
  - reflexivity.
  - reflexivity.
  - vm_compute. lia.
Defined.

(** X4: a segment directly followed by a vowel letter, original or
    synthesized, in either case, is not swapped. *)
Theorem vowel_before_vowel_never_swapped (segs final : list seg) (flag : bool)
    (i : nat) (next : seg) :
  applyVowelSwaps segs flag = Normal final ->
  segs !! (i + 1)%nat = Some next ->
  vowelChar (ch next) ->
  final !! i = segs !! i.
Proof.
  intros Hfinal Hnext Hv.
  rewrite (applyVowelSwaps_lookup _ _ _ i Hfinal).
  unfold swapsAt. destruct (segs !! i); [|reflexivity].
  rewrite Hnext, (proj2 (has_VOWELS _) Hv), andb_false_r. reflexivity.
Qed.

Lemma vowel_before_vowel_never_swapped_witness :
  (segFromString (str "cle") true ++ segFromString (str "o") false
     ++ segFromString (str "n") true) !! 2%nat
  = segFromString (str "clean") true !! 2%nat.
Proof.
  apply (vowel_before_vowel_never_swapped
           (segFromString (str "clean") true)
           (segFromString (str "cle") true ++ segFromString (str "o") false
     ++ segFromString (str "n") true)
           true 2 (Seg 97 true)).
  - reflexivity.
  - reflexivity.
  - unfold vowelChar. rewrite !elem_of_cons. auto 10.
Defined.

Lemma filter_seq_none (f : nat -> bool) (a m : nat) :
  (forall j, (a <= j < a + m)%nat -> f j = false) ->
  List.filter f (seq a m) = [].
Proof.
  induction m as [|m IH]; intros Hf; [reflexivity|].
  rewrite seq_S, List.filter_app, IH by (intros j Hj; apply Hf; lia).
  cbn [List.filter app]. rewrite Hf by lia. reflexivity.
Qed.

Lemma filter_seq_last (f : nat -> bool) (n k : nat) :
  (k < n)%nat -> f k = true ->
  (forall j, (k < j < n)%nat -> f j = false) ->
  last (List.filter f (seq 0 n)) = Some k.
Proof.
  intros Hk Hf Hlater.
  replace n with (S k + (n - S k))%nat by lia.
  rewrite seq_app, seq_S, !List.filter_app. cbn [Nat.add List.filter]. rewrite Hf.
  rewrite (filter_seq_none f (S k)) by (intros j Hj; apply Hlater; lia).
  rewrite app_nil_r. apply last_snoc.
Qed.

Lemma protectSetOf_last (idx : list nat) (k : nat) :
  last idx = Some k -> k ∈ protectSetOf false idx.
Proof.
  intros Hlast. unfold protectSetOf.
  assert (Hlen : (1 <= length idx)%nat).
  { destruct idx; [discriminate|simpl; lia]. }
  destruct (Z.leb_spec 1 (Z.of_nat (length idx))); [|lia]. cbn [negb andb].
  assert (Hin : k ∈ addIdx idx (Z.of_nat (length idx) - 1) ∅).
  { unfold addIdx. destruct (Z.ltb_spec (Z.of_nat (length idx) - 1) 0); [lia|].
    replace (Z.to_nat (Z.of_nat (length idx) - 1)) with (pred (length idx)) by lia.
    rewrite <- last_lookup, Hlast. apply elem_of_union_l, elem_of_singleton.
    reflexivity. }
  destruct (Z.of_nat (length idx) =? 4)%Z; [|exact Hin].
  unfold addIdx at 1.
  destruct (if (_ <? 0)%Z then None else _); [apply elem_of_union_r|]; exact Hin.
Qed.

(** X5: when the ending was not changed to AH, the last original vowel of
    the array is not swapped, however many original vowels there are. *)
Theorem last_original_vowel_kept (segs final : list seg) (k : nat) :
  applyVowelSwaps segs false = Normal final ->
  isOrigVowel segs k = true ->
  (forall j, (k < j)%nat -> isOrigVowel segs j = false) ->
  final !! k = segs !! k.
Proof.
  intros Hfinal Hk Hlater.
  rewrite (applyVowelSwaps_lookup _ _ _ k Hfinal).
  assert (Hlt : (k < length segs)%nat).
  { unfold isOrigVowel in Hk. destruct (segs !! k) eqn:E; [|discriminate].
    apply lookup_lt_Some in E. exact E. }
  assert (Hlast : last (origVowelIdx segs) = Some k).
  { apply filter_seq_last; auto. intros j Hj. apply Hlater. lia. }
  apply protectSetOf_last in Hlast.
  unfold swapsAt. destruct (segs !! k); [|reflexivity].
  rewrite (bool_decide_eq_true_2 _ Hlast). cbn [negb].
  rewrite andb_false_r. reflexivity.
Qed.

Lemma last_original_vowel_kept_witness :
  (segFromString (str "o") false ++ segFromString (str "nt") true
     ++ segFromString (str "AH") false ++ segFromString (str "net") true) !! 6%nat
  = (segFromString (str "int") true ++ segFromString (str "AH") false
       ++ segFromString (str "net") true) !! 6%nat.
Proof.
  apply (last_original_vowel_kept
           (segFromString (str "int") true ++ segFromString (str "AH") false
              ++ segFromString (str "net") true)).
  - reflexivity.
  - reflexivity.
  - intros j Hj. do 8 (destruct j as [|j]; [first [lia | reflexivity]|]).
    reflexivity.
Defined.




(** ** The exception table *)

Lemma canonicalize_small (c w : char) :
  97 <= w <= 122 ->
  canonicalize c = w - 32 <-> asciiLower c = w.
Proof.
  intros Hw. unfold canonicalize, upperCp, asciiLower.
  case_bools; split; intros Heq; case_bools; lia.
Qed.

Lemma canonicalize_word (w part : jsstring) :
  Forall (fun c => 97 <= c <= 122) w ->
  canonicalize <$> w = canonicalize <$> part <-> asciiLower <$> part = w.
Proof.
  intros Hw. revert part. induction Hw as [|c w Hc Hw IH]; intros [|p part];
    rewrite ?fmap_nil, ?fmap_cons; try (split; discriminate); [tauto|].
  assert (Hcc : canonicalize c = c - 32)
    by (apply canonicalize_small; [lia|]; unfold asciiLower; case_bools; lia).
  split.
  - intros [= Hhead Htail]. f_equal.
    + apply canonicalize_small; [lia|]. congruence.
    + apply IH, Htail.
  - intros [= Hhead Htail]. f_equal.
    + rewrite Hcc. symmetry. apply canonicalize_small; [lia|exact Hhead].
    + apply IH, Htail.
Qed.

Lemma small_letters_ok (w : jsstring) :
  forallb (fun c => (97 <=? c) && (c <=? 122)) w = true ->
  Forall (fun c => 97 <= c <= 122) w.
Proof.
  rewrite forallb_forall, Forall_forall. intros H c Hc.
  apply list_elem_of_In in Hc. specialize (H c Hc).
  apply andb_true_iff in H as [H1 H2].
  apply N.leb_le in H1. apply N.leb_le in H2. lia.
Qed.

Lemma matchesWord_small (w part : jsstring) :
  forallb (fun c => (97 <=? c) && (c <=? 122)) w = true ->
  matchesWord w part = streq (asciiLower <$> part) w.
Proof.
  intros Hw. apply small_letters_ok in Hw. apply eq_true_iff_eq.
  unfold matchesWord. rewrite !streq_true. apply canonicalize_word, Hw.
Qed.

Lemma applyExceptions_words (part : jsstring) :
  applyExceptions part =
  match lookupWord exceptionWords (asciiLower <$> part) with
  | Some o => ExResult true o
  | None => ExResult false part
  end.
Proof.
  unfold applyExceptions, EXCEPTIONS, exceptionWords, rx.
  cbn [applyExceptionsIn exMatches regExpMatch existsb exOutOf evalOut lookupWord
       fmap list_fmap].
  rewrite !matchesWord_small by reflexivity.
  generalize (asciiLower <$> part). intros l.
  repeat (match goal with |- context [streq l ?w] => destruct (streq l w) end;
          cbn [orb]; try reflexivity).
Qed.

(** X7: [applyExceptions] hits exactly the thirteen words of the table,
    written in any mix of upper and lower case, the whole word-part and
    nothing but ASCII letters; it then returns the word's fixed output, and
    otherwise the word-part as it is. *)
Theorem exceptions_are_whole_words_in_any_case (part : jsstring) :
  applyExceptions part =
  match lookupWord exceptionWords (asciiLower <$> part) with
  | Some o => ExResult true o
  | None => ExResult false part
  end /\
  (hit (applyExceptions part) = true <->
   In (asciiLower <$> part) (fst <$> exceptionWords)).
Proof.
  split; [apply applyExceptions_words|].
  rewrite applyExceptions_words.
  generalize (asciiLower <$> part). intros l.
  unfold exceptionWords. cbn [lookupWord fmap list_fmap fst In].
  repeat (match goal with
          | |- context [streq l ?w] =>
              let E := fresh "E" in
              destruct (streq l w) eqn:E;
              [apply streq_true in E; subst l; cbn [hit]; split; auto 20|
               apply streq_false in E]
          end).
  cbn [hit]. split; [discriminate|]. intuition congruence.
Qed.

(** ** The ER and IR stages *)

Lemma replacePairs_length (first second ins : jsstring) (segs : list seg) :
  length ins = 2%nat ->
  length (replacePairs first second ins segs) = length segs.
Proof.
  intros Hins. induction segs as [| s | sa sb rest IH1 IH2] using pair_ind;
    [reflexivity..|].
  rewrite replacePairs_cons2. destruct (_ && _).
  - rewrite length_app, IH1. unfold segFromString. rewrite length_fmap, Hins.
    reflexivity.
  - cbn [length]. rewrite IH2. reflexivity.
Qed.

Lemma replacePairs_none (first second ins : jsstring) (segs : list seg) :
  hasPair first second segs = false ->
  replacePairs first second ins segs = segs.
Proof.
  induction segs as [| s | sa sb rest IH1 IH2] using pair_ind; [reflexivity..|].
  rewrite hasPair_cons2, replacePairs_cons2. intros H.
  apply orb_false_iff in H as [-> H]. rewrite IH2 by exact H. reflexivity.
Qed.

(** Place by place, the result holds the segment that was there or one of
    the two inserted ones. *)
Lemma replacePairs_places (first second ins : jsstring) (x y : seg) (segs : list seg) :
  segFromString ins false = [x; y] ->
  Forall2 (fun a b => b = a \/ b = x \/ b = y) segs
    (replacePairs first second ins segs).
Proof.
  intros Hins. induction segs as [| s | sa sb rest IH1 IH2] using pair_ind.
  - constructor.
  - repeat constructor.
  - rewrite replacePairs_cons2. destruct (_ && _).
    + rewrite Hins. cbn [app]. repeat (constructor; auto).
    + constructor; auto.
Qed.

Lemma replacePairs_no_target (t1 t2 first second ins : jsstring) (x y : seg) :
  segFromString ins false = [x; y] ->
  streq (chUpper (ch x)) t1 = false ->
  streq (chUpper (ch x)) t2 = false ->
  streq (chUpper (ch y)) t1 = false ->
  forall segs,
    (forall front a b back, segs = front ++ a :: b :: back ->
       streq (chUpper (ch a)) t1 && streq (chUpper (ch b)) t2 = true ->
       streq (chUpper (ch a)) first && streq (chUpper (ch b)) second = true) ->
    hasPair t1 t2 (replacePairs first second ins segs) = false /\
    (forall h t, replacePairs first second ins segs = h :: t ->
       (exists t0, segs = h :: t0) \/ h = x).
Proof.
  intros Hins Hx1 Hx2 Hy1 segs.
  induction segs as [| s | sa sb rest IH1 IH2] using pair_ind; intros Hq.
  - split; [reflexivity|]. intros h t [=].
  - split; [reflexivity|]. intros h t [= <- <-]. eauto.
  - rewrite replacePairs_cons2.
    assert (Hq1 : forall front a b back, rest = front ++ a :: b :: back ->
       streq (chUpper (ch a)) t1 && streq (chUpper (ch b)) t2 = true ->
       streq (chUpper (ch a)) first && streq (chUpper (ch b)) second = true).
    { intros front a b back ->. apply (Hq (sa :: sb :: front) a b back). reflexivity. }
    assert (Hq2 : forall front a b back, sb :: rest = front ++ a :: b :: back ->
       streq (chUpper (ch a)) t1 && streq (chUpper (ch b)) t2 = true ->
       streq (chUpper (ch a)) first && streq (chUpper (ch b)) second = true).
    { intros front a b back E. apply (Hq (sa :: front) a b back).
      rewrite E. reflexivity. }
    destruct (IH1 Hq1) as [IH1a IH1b]. destruct (IH2 Hq2) as [IH2a IH2b].
    destruct (streq (chUpper (ch sa)) first && streq (chUpper (ch sb)) second) eqn:Hm.
    + rewrite Hins. cbn [app]. split; [|intros h t [= <- _]; auto].
      rewrite hasPair_cons2, Hx1. cbn [andb orb].
      destruct (replacePairs first second ins rest) as [|h t]; [reflexivity|].
      rewrite hasPair_cons2, Hy1. cbn [andb orb]. exact IH1a.
    + split; [|intros h t [= <- _]; eauto].
      destruct (replacePairs first second ins (sb :: rest)) as [|h t] eqn:Hrp;
        [reflexivity|].
      rewrite hasPair_cons2, IH2a, orb_false_r.
      destruct (IH2b h t eq_refl) as [[t0 [= <- _]] | ->].
      * destruct (streq (chUpper (ch sa)) t1 && streq (chUpper (ch sb)) t2)
          eqn:Her; [|reflexivity].
        rewrite (Hq [] sa sb rest eq_refl Her) in Hm. discriminate.
      * rewrite Hx2. apply andb_false_r.
Qed.

(** X8: [replaceAllERWithAH] never throws and ends within its bound; it
    keeps the length of the array and every place holds the segment that was
    there or a synthesized A or H; afterwards no E stands directly before an
    R, in any case; an array without such a pair is returned as it is. *)
Theorem ER_stage_leaves_no_ER (segs : list seg) :
  exists result,
    replaceAllERWithAH segs = Normal result /\
    length result = length segs /\
    hasPair (str "E") (str "R") result = false /\
    Forall2 (fun a b => b = a \/ b = Seg 65 false \/ b = Seg 72 false) segs result /\
    (hasPair (str "E") (str "R") segs = false -> result = segs).
Proof.
  exists (replacePairs (str "E") (str "R") (str "AH") segs).
  split; [apply replaceAllERWithAH_spec|].
  split; [apply replacePairs_length; reflexivity|].
  split; [|split].
  - apply (replacePairs_no_target _ _ _ _ (str "AH") (Seg 65 false) (Seg 72 false));
      [reflexivity..|]. auto.
  - apply (replacePairs_places _ _ (str "AH")). reflexivity.
  - apply replacePairs_none.
Qed.

(** X9: [replaceAllIRWithAR] never throws and ends within its bound; it
    keeps the length of the array and every place holds the segment that was
    there or a synthesized A or R; afterwards no I stands directly before an
    R, in any case; an array without such a pair is returned as it is. *)
Theorem IR_stage_leaves_no_IR (segs : list seg) :
  exists result,
    replaceAllIRWithAR segs = Normal result /\
    length result = length segs /\
    hasPair (str "I") (str "R") result = false /\
    Forall2 (fun a b => b = a \/ b = Seg 65 false \/ b = Seg 82 false) segs result /\
    (hasPair (str "I") (str "R") segs = false -> result = segs).
Proof.
  exists (replacePairs (str "I") (str "R") (str "AR") segs).
  split; [apply replaceAllIRWithAR_spec|].
  split; [apply replacePairs_length; reflexivity|].
  split; [|split].
  - apply (replacePairs_no_target _ _ _ _ (str "AR") (Seg 65 false) (Seg 82 false));
      [reflexivity..|]. auto.
  - apply (replacePairs_places _ _ (str "AR")). reflexivity.
  - apply replacePairs_none.
Qed.

(** ** The ending stages exclude each other *)

Lemma endsWith_last (s suf : jsstring) (x : char) :
  endsWith s suf = true -> last suf = Some x -> last s = Some x.
Proof.
  intros Hends Hlast. apply endsWith_true in Hends as [pre ->].
  rewrite last_app, Hlast. reflexivity.
Qed.

Lemma closedEnding_not (segs : list seg) (suf : jsstring) (x : char) :
  closedEnding segs -> last suf = Some x -> x <> 72 -> x <> 78 ->
  endsWith (toUpperCase (segToString segs)) suf = false.
Proof.
  intros Hclosed Hlast H72 H78.
  destruct (endsWith _ suf) eqn:Hends; [|reflexivity].
  unfold closedEnding in Hclosed.
  rewrite (endsWith_last _ _ _ Hends Hlast) in Hclosed.
  destruct Hclosed as [[= ?]|[= ?]]; congruence.
Qed.

(** A splice at the end by an insertion that ends with H or N. *)
Lemma end_splice_closed (segs : list seg) (k : Z) (ins : jsstring) :
  (0 <= k <= len segs)%Z ->
  last (toUpperCase ins) = Some 72 \/ last (toUpperCase ins) = Some 78 ->
  closedEnding (spliceSegs segs (len segs - k) (len segs) (segFromString ins false)) /\
  length (spliceSegs segs (len segs - k) (len segs) (segFromString ins false))
  = (length segs - Z.to_nat k + length ins)%nat.
Proof.
  intros Hk Hlast. rewrite spliceSegs_end by exact Hk. split.
  - unfold closedEnding.
    rewrite segToString_app, toUpperCase_app, segToString_segFromString, last_app.
    destruct Hlast as [-> | ->]; auto.
  - rewrite length_app, length_take. unfold segFromString. rewrite length_fmap.
    unfold len in *. lia.
Qed.

Lemma replaceEndingTION_cases (segs : list seg) :
  replaceEndingTION segs = (segs, false) \/
  (last (toUpperCase (segToString segs)) = Some 78 /\
   closedEnding (replaceEndingTION segs).1 /\
   length (replaceEndingTION segs).1 = length segs).
Proof.
  unfold replaceEndingTION.
  destruct (endsWith _ (str "TION") && _) eqn:Hc; [right|left; reflexivity].
  apply andb_true_iff in Hc as [Hends Hc]. apply Z.leb_le in Hc.
  split; [apply (endsWith_last _ _ _ Hends); reflexivity|].
  destruct (end_splice_closed segs 4 (str "SHAN")) as [Hcl Hlen];
    [lia|vm_compute; auto|].
  cbn [fst]. split; [exact Hcl|]. rewrite Hlen. unfold len in Hc.
  change (length (str "SHAN")) with 4%nat. lia.
Qed.

Lemma replaceEndingTY_cases (segs : list seg) :
  replaceEndingTY segs = (segs, false) \/
  (last (toUpperCase (segToString segs)) = Some 89 /\
   closedEnding (replaceEndingTY segs).1 /\
   length (replaceEndingTY segs).1 = S (length segs)).
Proof.
  unfold replaceEndingTY.
  destruct (endsWith _ (str "TY") && _) eqn:Hc; [right|left; reflexivity].
  apply andb_true_iff in Hc as [Hends Hc]. apply Z.leb_le in Hc.
  split; [apply (endsWith_last _ _ _ Hends); reflexivity|].
  destruct (end_splice_closed segs 2 (str "TEH")) as [Hcl Hlen];
    [lia|vm_compute; auto|].
  cbn [fst]. split; [exact Hcl|]. rewrite Hlen. unfold len in Hc.
  change (length (str "TEH")) with 3%nat. lia.
Qed.

Lemma replaceEndingLY_cases (segs : list seg) :
  replaceEndingLY segs = segs \/
  (last (toUpperCase (segToString segs)) = Some 89 /\
   closedEnding (replaceEndingLY segs) /\
   (length segs <= length (replaceEndingLY segs) <= S (length segs))%nat).
Proof.
  unfold replaceEndingLY.
  destruct (endsWith _ (str "LEY") && _) eqn:Hc.
  { right. apply andb_true_iff in Hc as [Hends Hc]. apply Z.leb_le in Hc.
    split; [apply (endsWith_last _ _ _ Hends); reflexivity|].
    destruct (end_splice_closed segs 3 (str "LEH")) as [Hcl Hlen];
      [lia|vm_compute; auto|].
    split; [exact Hcl|]. rewrite Hlen. unfold len in Hc.
    change (length (str "LEH")) with 3%nat. lia. }
  destruct (endsWith _ (str "LY") && _) eqn:Hc'; [right|left; reflexivity].
  apply andb_true_iff in Hc' as [Hends Hc']. apply Z.leb_le in Hc'.
  split; [apply (endsWith_last _ _ _ Hends); reflexivity|].
  destruct (end_splice_closed segs 2 (str "LEH")) as [Hcl Hlen];
    [lia|vm_compute; auto|].
  split; [exact Hcl|]. rewrite Hlen. unfold len in Hc'.
  change (length (str "LEH")) with 3%nat. lia.
Qed.

Lemma endsWith_nonempty_segs (segs : list seg) (suf : jsstring) :
  endsWith (toUpperCase (segToString segs)) suf = true -> suf <> [] ->
  (1 <= len segs)%Z.
Proof.
  intros Hends Hne. destruct segs; [|unfold len; simpl; lia].
  apply endsWith_true in Hends as [pre H]. destruct pre, suf; try discriminate.
  congruence.
Qed.

(** A rendering whose upper case ends with two capitals other than S ends
    with two segments that upper-case to them. *)
Lemma upper_endsWith_pair (segs : list seg) (a b : char) :
  65 <= a <= 90 -> a <> 83 -> 65 <= b <= 90 -> b <> 83 ->
  endsWith (toUpperCase (segToString segs)) [a; b] = true ->
  exists front y z, segs = front ++ [y; z] /\
    upperCp (ch y) = [a] /\ upperCp (ch z) = [b].
Proof.
  intros Ha Ha' Hb Hb'. rewrite endsWith_true. intros [pre H].
  destruct segs as [|z segs _] using rev_ind; [destruct pre; discriminate|].
  rewrite upper_snoc in H.
  assert (Hz : upperCp (ch z) = [b]).
  { apply upperCp_last; [lia|exact Hb'|].
    pose proof (upperCp_not_nil (ch z)) as Hne.
    apply (f_equal last) in H. rewrite last_app in H.
    destruct (last (upperCp (ch z))) eqn:Hl; [|apply last_None in Hl; contradiction].
    rewrite H. change (pre ++ [a; b]) with (pre ++ [a] ++ [b]).
    rewrite app_assoc. apply last_snoc. }
  rewrite Hz in H. change (pre ++ [a; b]) with (pre ++ [a] ++ [b]) in H.
  rewrite app_assoc in H. apply app_inj_tail in H as [H _].
  destruct segs as [|y segs _] using rev_ind; [destruct pre; discriminate|].
  rewrite upper_snoc in H.
  assert (Hy : upperCp (ch y) = [a]).
  { apply upperCp_last; [lia|exact Ha'|].
    pose proof (upperCp_not_nil (ch y)) as Hne.
    apply (f_equal last) in H. rewrite last_app in H.
    destruct (last (upperCp (ch y))) eqn:Hl; [|apply last_None in Hl; contradiction].
    rewrite H. apply last_snoc. }
  exists segs, y, z. rewrite <- app_assoc. auto.
Qed.

Lemma upper_endsWith_two (segs : list seg) (a b : char) :
  65 <= a <= 90 -> a <> 83 -> 65 <= b <= 90 -> b <> 83 ->
  endsWith (toUpperCase (segToString segs)) [a; b] = true ->
  (2 <= len segs)%Z.
Proof.
  intros Ha Ha' Hb Hb' H.
  destruct (upper_endsWith_pair segs a b Ha Ha' Hb Hb' H) as (front & y & z & -> & _).
  unfold len. rewrite length_app. simpl. lia.
Qed.

Lemma applyEndingAH_cases (segs : list seg) :
  applyEndingAH segs = (segs, false) \/
  ((applyEndingAH segs).2 = true /\ closedEnding (applyEndingAH segs).1 /\
   (length segs <= length (applyEndingAH segs).1 <= S (length segs))%nat).
Proof.
  unfold applyEndingAH.
  destruct (endsWith _ (str "ER") || endsWith _ (str "UR")) eqn:Hc.
  { right. cbn [fst snd]. split; [reflexivity|].
    assert (Hlen2 : (2 <= len segs)%Z).
    { apply orb_true_iff in Hc as [Hc|Hc].
      - apply (upper_endsWith_two segs 69 82); try lia; exact Hc.
      - apply (upper_endsWith_two segs 85 82); try lia; exact Hc. }
    destruct (end_splice_closed segs 2 (str "AH")) as [Hcl Hlen];
      [lia|vm_compute; auto|].
    split; [exact Hcl|]. rewrite Hlen. unfold len in Hlen2.
    change (length (str "AH")) with 2%nat. lia. }
  destruct (endsWith _ (str "A")) eqn:Hc'; [right|left; reflexivity].
  cbn [fst snd]. split; [reflexivity|].
  pose proof (endsWith_nonempty_segs segs _ Hc' ltac:(discriminate)) as Hlen1.
  destruct (end_splice_closed segs 1 (str "AH")) as [Hcl Hlen];
    [lia|vm_compute; auto|].
  split; [exact Hcl|]. rewrite Hlen. unfold len in Hlen1.
  change (length (str "AH")) with 2%nat. lia.
Qed.

Lemma replaceEndingAY_cases (segs : list seg) :
  replaceEndingAY segs = (segs, false) \/
  (closedEnding (replaceEndingAY segs).1 /\
   length (replaceEndingAY segs).1 = S (length segs)).
Proof.
  unfold replaceEndingAY.
  destruct (endsWith _ (str "AY") && _) eqn:Hc; [right|left; reflexivity].
  apply andb_true_iff in Hc as [_ Hc]. apply Z.leb_le in Hc.
  destruct (end_splice_closed segs 2 (str "AEH")) as [Hcl Hlen];
    [lia|vm_compute; auto|].
  cbn [fst]. split; [exact Hcl|]. rewrite Hlen. unfold len in Hc.
  change (length (str "AEH")) with 3%nat. lia.
Qed.

Lemma replaceEndingYToEH_cases (segs : list seg) :
  replaceEndingYToEH segs = (segs, false) \/
  (closedEnding (replaceEndingYToEH segs).1 /\
   length (replaceEndingYToEH segs).1 = S (length segs)).
Proof.
  unfold replaceEndingYToEH.
  destruct (_ || _ || _); [left; reflexivity|].
  destruct (endsWith _ (str "Y") && _) eqn:Hc; [right|left; reflexivity].
  apply andb_true_iff in Hc as [_ Hc]. apply Z.leb_le in Hc.
  destruct (end_splice_closed segs 1 (str "EH")) as [Hcl Hlen];
    [lia|vm_compute; auto|].
  cbn [fst]. split; [exact Hcl|]. rewrite Hlen. unfold len in Hc.
  change (length (str "EH")) with 2%nat. lia.
Qed.

Lemma last_not_endsWith (segs : list seg) (suf : jsstring) (x y : char) :
  last (toUpperCase (segToString segs)) = Some y -> last suf = Some x -> x <> y ->
  endsWith (toUpperCase (segToString segs)) suf = false.
Proof.
  intros Hy Hx Hne. destruct (endsWith _ suf) eqn:Hends; [|reflexivity].
  rewrite (endsWith_last _ _ _ Hends Hx) in Hy. congruence.
Qed.

(** An array whose rendering ends with H, N or Y is left alone by
    [applyEndingAH]. *)
Lemma applyEndingAH_idle (segs : list seg) (y : char) :
  last (toUpperCase (segToString segs)) = Some y -> y <> 82 -> y <> 65 ->
  applyEndingAH segs = (segs, false).
Proof.
  intros Hy H82 H65. unfold applyEndingAH.
  rewrite (last_not_endsWith segs (str "ER") 82 y), (last_not_endsWith segs (str "UR") 82 y),
    (last_not_endsWith segs (str "A") 65 y) by (auto; reflexivity).
  reflexivity.
Qed.

Lemma closedEnding_idle (segs : list seg) :
  closedEnding segs ->
  replaceEndingTY segs = (segs, false) /\
  replaceEndingLY segs = segs /\
  applyEndingAH segs = (segs, false) /\
  replaceEndingAY segs = (segs, false) /\
  replaceEndingYToEH segs = (segs, false).
Proof.
  intros Hc.
  assert (HY : forall suf, last suf = Some 89 ->
            endsWith (toUpperCase (segToString segs)) suf = false).
  { intros suf Hs. apply (closedEnding_not segs suf 89 Hc Hs); discriminate. }
  unfold replaceEndingTY, replaceEndingLY, replaceEndingAY, replaceEndingYToEH.
  rewrite (HY (str "TY")), (HY (str "LEY")), (HY (str "LY")), (HY (str "AY")),
    (HY (str "Y")) by reflexivity.
  repeat split.
  destruct Hc as [Hc|Hc]; apply (applyEndingAH_idle segs _ Hc); discriminate.
Qed.

Lemma endingStages_cases (segs : list seg) :
  ((endingStages segs).1 = segs \/
   (endingStages segs).1 = (replaceEndingTION segs).1 \/
   (endingStages segs).1 = (replaceEndingTY segs).1 \/
   (endingStages segs).1 = replaceEndingLY segs \/
   (endingStages segs).1 = (applyEndingAH segs).1 \/
   (endingStages segs).1 = (replaceEndingAY segs).1 \/
   (endingStages segs).1 = (replaceEndingYToEH segs).1) /\
  (length segs <= length (endingStages segs).1 <= S (length segs))%nat /\
  (endingStages segs).2 = (applyEndingAH segs).2.
Proof.
  unfold endingStages.
  destruct (replaceEndingTION_cases segs) as [E1|(Hl & Hc & Hlen)].
  2:{ destruct (replaceEndingTION segs) as [s1 b1]. cbn [fst] in *.
      destruct (closedEnding_idle s1 Hc) as (-> & -> & -> & -> & ->). cbn [fst snd].
      rewrite (applyEndingAH_idle segs _ Hl) by discriminate.
      split; [auto|]. split; [lia|reflexivity]. }
  rewrite E1.
  destruct (replaceEndingTY_cases segs) as [E2|(Hl & Hc & Hlen)].
  2:{ destruct (replaceEndingTY segs) as [s2 b2]. cbn [fst] in *.
      destruct (closedEnding_idle s2 Hc) as (_ & -> & -> & -> & ->). cbn [fst snd].
      rewrite (applyEndingAH_idle segs _ Hl) by discriminate.
      split; [auto|]. split; [lia|reflexivity]. }
  rewrite E2.
  destruct (replaceEndingLY_cases segs) as [E3|(Hl & Hc & Hlen)].
  2:{ destruct (closedEnding_idle _ Hc) as (_ & _ & -> & -> & ->). cbn [fst snd].
      rewrite (applyEndingAH_idle segs _ Hl) by discriminate.
      split; [auto 10|]. split; [lia|reflexivity]. }
  rewrite E3.
  destruct (applyEndingAH_cases segs) as [E4|(Hflag & Hc & Hlen)].
  2:{ destruct (applyEndingAH segs) as [s4 b4]. cbn [fst snd] in *.
      destruct (closedEnding_idle s4 Hc) as (_ & _ & _ & -> & ->). cbn [fst snd].
      split; [auto 10|]. split; [lia|reflexivity]. }
  rewrite E4.
  destruct (replaceEndingAY_cases segs) as [E5|(Hc & Hlen)].
  2:{ destruct (replaceEndingAY segs) as [s5 b5]. cbn [fst] in *.
      destruct (closedEnding_idle s5 Hc) as (_ & _ & _ & _ & ->). cbn [fst snd].
      split; [auto 10|]. split; [lia|reflexivity]. }
  rewrite E5.
  destruct (replaceEndingYToEH_cases segs) as [E6|(Hc & Hlen)].
  - rewrite E6. cbn [fst snd]. split; [auto|]. split; [lia|reflexivity].
  - destruct (replaceEndingYToEH segs) as [s6 b6]. cbn [fst snd] in *.
    split; [auto 10|]. split; [lia|reflexivity].
Qed.

(** X10: of the six ending stages of [transformWordPart] (TION, TY,
    LY/LEY, A/ER/UR, AY, final Y) at most one changes the array: together
    they do what one of them does alone, or nothing; the array keeps its
    length or grows by one; and the flag that is carried to the vowel swaps
    is the one [applyEndingAH] returns on the array as the stages found it. *)
Theorem ending_stages_fire_at_most_once (segs : list seg) :
  ((endingStages segs).1 = segs \/
   (endingStages segs).1 = (replaceEndingTION segs).1 \/
   (endingStages segs).1 = (replaceEndingTY segs).1 \/
   (endingStages segs).1 = replaceEndingLY segs \/
   (endingStages segs).1 = (applyEndingAH segs).1 \/
   (endingStages segs).1 = (replaceEndingAY segs).1 \/
   (endingStages segs).1 = (replaceEndingYToEH segs).1) /\
  (length segs <= length (endingStages segs).1 <= S (length segs))%nat /\
  (endingStages segs).2 = (applyEndingAH segs).2.
Proof. exact (endingStages_cases segs). Qed.

(** ** The onset stages exclude each other *)

Ltac case_lens :=
  repeat match goal with
    | |- context [(?a <=? len ?l)%Z] => destruct (a <=? len l)%Z eqn:?
    end.

Lemma replaceStartingSNWithSAN_cases (segs : list seg) :
  replaceStartingSNWithSAN segs = Normal segs \/
  exists r, replaceStartingSNWithSAN segs = Normal r /\ settledOnset r /\
    length r = S (length segs).
Proof.
  unfold replaceStartingSNWithSAN.
  destruct segs as [|s0 [|s1 rest]]; [left; reflexivity..|].
  destruct (2 <=? len _)%Z; [|left; reflexivity].
  cbn [segAt lookup list_lookup bind].
  destruct (streq _ _ && streq _ _); [right|left; reflexivity].
  change (s0 :: s1 :: rest) with ([s0; s1] ++ rest).
  rewrite (spliceSegs_head [s0; s1]).
  eexists. split; [reflexivity|]. split; [|reflexivity].
  exists (Seg 83 false), (Seg 65 false), (Seg 78 false :: rest). auto.
Qed.

Lemma replaceStartingSWWithSAW_cases (segs : list seg) :
  replaceStartingSWWithSAW segs = Normal segs \/
  exists r, replaceStartingSWWithSAW segs = Normal r /\ settledOnset r /\
    length r = S (length segs).
Proof.
  unfold replaceStartingSWWithSAW.
  destruct segs as [|s0 [|s1 rest]]; [left; reflexivity..|].
  destruct (2 <=? len _)%Z; [|left; reflexivity].
  cbn [segAt lookup list_lookup bind].
  destruct (streq _ _ && streq _ _); [right|left; reflexivity].
  change (s0 :: s1 :: rest) with ([s0; s1] ++ rest).
  rewrite (spliceSegs_head [s0; s1]).
  eexists. split; [reflexivity|]. split; [|reflexivity].
  exists (Seg 83 false), (Seg 65 false), (Seg 87 false :: rest). auto.
Qed.

Lemma applyPrefixREToRO_cases (segs : list seg) :
  applyPrefixREToRO segs = Normal segs \/
  exists r, applyPrefixREToRO segs = Normal r /\ settledOnset r /\
    length r = length segs.
Proof.
  unfold applyPrefixREToRO.
  destruct (streq _ (str "re")); [left; reflexivity|].
  destruct (startsWith _ _ && _) eqn:Hcond; [|left; reflexivity].
  apply andb_true_iff in Hcond as [_ Hlen]. apply Nat.leb_le in Hlen.
  destruct segs as [|s0 [|s1 [|s2 rest]]]; try (simpl in Hlen; lia).
  unfold segToString. rewrite !fmap_cons. cbn [lookup list_lookup].
  destruct (has VOWELS _); [right|left; reflexivity].
  change (s0 :: s1 :: s2 :: rest) with ([s0; s1] ++ s2 :: rest).
  rewrite (spliceSegs_head [s0; s1]).
  eexists. split; [reflexivity|]. split; [|reflexivity].
  exists (Seg 114 false), (Seg 111 false), (s2 :: rest). auto.
Qed.

Lemma applyClusterInsertions_cases (segs : list seg) :
  exists r, applyClusterInsertions segs = Normal r /\
    (length segs <= length r <= S (length segs))%nat.
Proof.
  unfold applyClusterInsertions.
  destruct segs as [|s0 [|s1 [|s2 rest]]].
  - eexists. split; [reflexivity|]. simpl. lia.
  - eexists. split; [reflexivity|]. simpl. lia.
  - change (3 <=? len [s0; s1])%Z with false. change (2 <=? len [s0; s1])%Z with true.
    cbn [bind segAt lookup list_lookup].
    destruct (isConsonantLetter _ && _).
    + change [s0; s1] with ([s0] ++ [] ++ [s1]).
      rewrite (spliceSegs_middle [s0] [] [s1]).
      eexists. split; [reflexivity|]. simpl. lia.
    + eexists. split; [reflexivity|]. simpl. lia.
  - case_lens; cbn [bind segAt lookup list_lookup].
    all: repeat match goal with
           | |- context [if ?b then _ else _] => destruct b; cbn [bind]
           end.
    all: try (eexists; split; [reflexivity|]; simpl; lia).
    all: try (change (s0 :: s1 :: s2 :: rest) with ([s0; s1] ++ [] ++ s2 :: rest);
              rewrite (spliceSegs_middle [s0; s1] []);
              eexists; split; [reflexivity|]; simpl; lia).
    all: try (change (s0 :: s1 :: s2 :: rest) with ([s0] ++ [] ++ s1 :: s2 :: rest);
              rewrite (spliceSegs_middle [s0] []);
              eexists; split; [reflexivity|]; simpl; lia).
Qed.

(** An array that starts with S,A or with r,o is left alone by the SW, RE
    and cluster stages. *)
Lemma settledOnset_idle (segs : list seg) :
  settledOnset segs ->
  replaceStartingSWWithSAW segs = Normal segs /\
  applyPrefixREToRO segs = Normal segs /\
  applyClusterInsertions segs = Normal segs.
Proof.
  intros ([cx ox] & [cy oy] & rest & -> & Hxy). cbn [ch] in Hxy.
  unfold replaceStartingSWWithSAW, applyPrefixREToRO, applyClusterInsertions.
  destruct Hxy as [[-> ->]|[-> ->]]; (split; [|split]).
  all: case_lens; cbn [bind segAt lookup list_lookup ch]; try reflexivity.
  all: destruct rest as [|[cz oz] rest]; cbn [bind segAt lookup list_lookup ch];
    try reflexivity; try discriminate.
Qed.

Lemma onsetStages_cases (segs : list seg) :
  exists r, onsetStages segs = Normal r /\
    (replaceStartingSNWithSAN segs = Normal r \/
     replaceStartingSWWithSAW segs = Normal r \/
     applyPrefixREToRO segs = Normal r \/
     applyClusterInsertions segs = Normal r) /\
    (length segs <= length r <= S (length segs))%nat.
Proof.
  unfold onsetStages.
  destruct (replaceStartingSNWithSAN_cases segs) as [E1|(r & E1 & Hs & Hlen)].
  2:{ rewrite E1. cbn [bind]. destruct (settledOnset_idle r Hs) as (H1 & H2 & H3).
      rewrite H1. cbn [bind]. rewrite H2. cbn [bind]. rewrite H3. exists r. split; [reflexivity|]. split; [auto|lia]. }
  rewrite E1. cbn [bind].
  destruct (replaceStartingSWWithSAW_cases segs) as [E2|(r & E2 & Hs & Hlen)].
  2:{ rewrite E2. cbn [bind]. destruct (settledOnset_idle r Hs) as (_ & H2 & H3).
      rewrite H2. cbn [bind]. rewrite H3. exists r. split; [reflexivity|]. split; [auto|lia]. }
  rewrite E2. cbn [bind].
  destruct (applyPrefixREToRO_cases segs) as [E3|(r & E3 & Hs & Hlen)].
  2:{ rewrite E3. cbn [bind]. destruct (settledOnset_idle r Hs) as (_ & _ & ->).
      exists r. split; [reflexivity|]. split; [auto|lia]. }
  rewrite E3. cbn [bind].
  destruct (applyClusterInsertions_cases segs) as (r & E4 & Hlen).
  exists r. split; [exact E4|]. split; [auto|exact Hlen].
Qed.

(** X11: of the four onset stages of [transformWordPart] (SN, SW, RE to RO,
    cluster insertion) at most one changes the array: run one after the
    other they return what one of them returns alone on the same array, and
    the array keeps its length or grows by one. *)
Theorem onset_stages_fire_at_most_once (segs : list seg) :
  exists r, onsetStages segs = Normal r /\
    (replaceStartingSNWithSAN segs = Normal r \/
     replaceStartingSWWithSAW segs = Normal r \/
     applyPrefixREToRO segs = Normal r \/
     applyClusterInsertions segs = Normal r) /\
    (length segs <= length r <= S (length segs))%nat.
Proof. exact (onsetStages_cases segs). Qed.

(** ** What the stages keep: original segments and letters *)

Lemma originals_app (a b : list seg) : originals (a ++ b) = originals a ++ originals b.
Proof. apply List.filter_app. Qed.

Lemma originals_synthesized (lit : jsstring) : originals (segFromString lit false) = [].
Proof. induction lit as [|c lit IH]; [reflexivity|exact IH]. Qed.

Lemma originals_typed (s : jsstring) : originals (segFromString s true) = segFromString s true.
Proof. induction s as [|c s IH]; [reflexivity|]. cbn. f_equal. exact IH. Qed.

Lemma originals_sublist (a b : list seg) :
  sublist a b -> sublist (originals a) (originals b).
Proof.
  induction 1 as [|x a b _ IH|x a b _ IH]; cbn.
  - constructor.
  - destruct (origin x); [apply sublist_skip|]; exact IH.
  - destruct (origin x); [apply sublist_cons|]; exact IH.
Qed.

Lemma letterSeg_synthesized (lit : jsstring) (o : bool) :
  Forall (fun c => isLetter c = true) lit -> Forall letterSeg (segFromString lit o).
Proof. induction 1; constructor; auto. Qed.

Lemma keeps_refl (segs : list seg) : keeps segs segs.
Proof. split; [reflexivity|auto]. Qed.

Lemma keeps_trans (a b c : list seg) : keeps a b -> keeps b c -> keeps a c.
Proof. intros [H1 H2] [H3 H4]. split; [etrans; eauto|auto]. Qed.

Lemma spliceSegs_keeps (segs : list seg) (start end_ : Z) (lit : jsstring) :
  Forall (fun c => isLetter c = true) lit ->
  keeps segs (spliceSegs segs start end_ (segFromString lit false)).
Proof.
  intros Hlit. unfold spliceSegs.
  set (n := Z.to_nat _). set (m := Z.to_nat _).
  assert (Hnm : (n <= m)%nat) by (unfold n, m; destruct (Z.ltb_spec start 0); lia).
  split.
  - rewrite !originals_app, originals_synthesized. cbn [app].
    rewrite <- (take_drop n segs) at 3. rewrite originals_app.
    apply sublist_app; [reflexivity|]. apply originals_sublist.
    replace m with (n + (m - n))%nat by lia. rewrite <- drop_drop. apply sublist_drop.
  - intros Hsegs. rewrite !Forall_app.
    auto using Forall_take, Forall_drop, letterSeg_synthesized.
Qed.

Lemma places_keep (x y : seg) (segs result : list seg) :
  origin x = false -> origin y = false -> letterSeg x -> letterSeg y ->
  Forall2 (fun a b => b = a \/ b = x \/ b = y) segs result ->
  keeps segs result.
Proof.
  intros Hx Hy Lx Ly. induction 1 as [|a b segs result Hab _ [IH1 IH2]].
  - apply keeps_refl.
  - split.
    + assert (Hskip : sublist (originals result) (originals (a :: segs))).
      { cbn. destruct (origin a); [apply sublist_cons|]; exact IH1. }
      destruct Hab as [->|[->| ->]].
      * cbn. destruct (origin a); [apply sublist_skip|]; exact IH1.
      * unfold originals at 1. cbn [List.filter]. rewrite Hx. exact Hskip.
      * unfold originals at 1. cbn [List.filter]. rewrite Hy. exact Hskip.
    + intros Hl. apply Forall_cons in Hl as [Ha Hl]. constructor; [|auto].
      destruct Hab as [->|[->| ->]]; auto.
Qed.

Lemma replaceAllERWithAH_keeps (segs : list seg) :
  keeps segs (replacePairs (str "E") (str "R") (str "AH") segs).
Proof.
  apply (places_keep (Seg 65 false) (Seg 72 false)); try reflexivity.
  apply (replacePairs_places _ _ (str "AH")). reflexivity.
Qed.

Lemma replaceAllIRWithAR_keeps (segs : list seg) :
  keeps segs (replacePairs (str "I") (str "R") (str "AR") segs).
Proof.
  apply (places_keep (Seg 65 false) (Seg 82 false)); try reflexivity.
  apply (replacePairs_places _ _ (str "AR")). reflexivity.
Qed.

Lemma vowelSwapsOf_keeps (segs : list seg) (flag : bool) :
  keeps segs (vowelSwapsOf segs flag).
Proof.
  apply (places_keep (Seg 111 false) (Seg 111 false)); try reflexivity.
  apply Forall2_same_length_lookup_2.
  - symmetry. apply vowelSwapsOf_length.
  - intros i a b Ha Hb. rewrite vowelSwapsOf_lookup, Ha in Hb.
    destruct (swapsAt _ _ _ i); injection Hb as <-; auto.
Qed.

Ltac keeps_stage H :=
  repeat first
    [ discriminate H
    | match type of H with
      | Normal _ = Normal _ => fail 1
      | context [bind (segAt ?l ?i) _] => destruct (segAt l i); cbn [bind] in H
      | context [match ?x with Some _ => _ | None => _ end] => destruct x
      | context [if ?b then _ else _] => destruct b; cbn [bind] in H
      end ];
  match type of H with
  | Normal ?a = Normal ?b => assert (a = b) as <- by congruence
  end;
  first [apply keeps_refl | apply spliceSegs_keeps; repeat constructor].

Lemma endingStages_keeps (segs : list seg) : keeps segs (endingStages segs).1.
Proof.
  assert (H1 : forall s, keeps s (replaceEndingTION s).1)
    by (intros s; unfold replaceEndingTION; case_ifs;
        first [apply keeps_refl | apply spliceSegs_keeps; repeat constructor]).
  assert (H2 : forall s, keeps s (replaceEndingTY s).1)
    by (intros s; unfold replaceEndingTY; case_ifs;
        first [apply keeps_refl | apply spliceSegs_keeps; repeat constructor]).
  assert (H3 : forall s, keeps s (replaceEndingLY s))
    by (intros s; unfold replaceEndingLY; case_ifs;
        first [apply keeps_refl | apply spliceSegs_keeps; repeat constructor]).
  assert (H4 : forall s, keeps s (applyEndingAH s).1)
    by (intros s; unfold applyEndingAH; case_ifs;
        first [apply keeps_refl | apply spliceSegs_keeps; repeat constructor]).
  assert (H5 : forall s, keeps s (replaceEndingAY s).1)
    by (intros s; unfold replaceEndingAY; case_ifs;
        first [apply keeps_refl | apply spliceSegs_keeps; repeat constructor]).
  assert (H6 : forall s, keeps s (replaceEndingYToEH s).1)
    by (intros s; unfold replaceEndingYToEH; case_ifs;
        first [apply keeps_refl | apply spliceSegs_keeps; repeat constructor]).
  unfold endingStages.
  specialize (H1 segs). destruct (replaceEndingTION segs) as [s1 ?].
  specialize (H2 s1). destruct (replaceEndingTY s1) as [s2 ?].
  specialize (H3 s2). specialize (H4 (replaceEndingLY s2)).
  destruct (applyEndingAH _) as [s4 flag].
  specialize (H5 s4). destruct (replaceEndingAY s4) as [s5 ?].
  specialize (H6 s5). destruct (replaceEndingYToEH s5) as [s6 ?].
  cbn [fst] in *. repeat (eapply keeps_trans; [eassumption|]). apply keeps_refl.
Qed.

Lemma onsetStages_keeps (segs r : list seg) :
  onsetStages segs = Normal r -> keeps segs r.
Proof.
  assert (H1 : forall s r, replaceStartingSNWithSAN s = Normal r -> keeps s r)
    by (intros s r' H; unfold replaceStartingSNWithSAN in H; keeps_stage H).
  assert (H2 : forall s r, replaceStartingSWWithSAW s = Normal r -> keeps s r)
    by (intros s r' H; unfold replaceStartingSWWithSAW in H; keeps_stage H).
  assert (H3 : forall s r, applyPrefixREToRO s = Normal r -> keeps s r)
    by (intros s r' H; unfold applyPrefixREToRO in H; keeps_stage H).
  assert (H4 : forall s r, applyClusterInsertions s = Normal r -> keeps s r)
    by (intros s r' H; unfold applyClusterInsertions in H; keeps_stage H).
  unfold onsetStages. intros H.
  apply bind_Normal in H as (s1 & E1 & H).
  apply bind_Normal in H as (s2 & E2 & H).
  apply bind_Normal in H as (s3 & E3 & H).
  apply (keeps_trans _ s1); [auto|]. apply (keeps_trans _ s2); [auto|].
  apply (keeps_trans _ s3); auto.
Qed.

(** ** The pipeline as a whole *)

(** The state at the vowel swaps, stage group by stage group. *)
Lemma stateAtVowelSwaps_groups (part : jsstring) :
  stateAtVowelSwaps part =
  let segs := replacePairs (str "I") (str "R") (str "AR")
                (replacePairs (str "E") (str "R") (str "AH") (segFromString part true)) in
  let* onset := onsetStages (endingStages segs).1 in
  Normal (onset, (endingStages segs).2).
Proof.
  unfold stateAtVowelSwaps, segsAtEndingAH, endingStages, onsetStages.
  rewrite replaceAllERWithAH_spec. cbn [bind]. rewrite replaceAllIRWithAR_spec.
  cbn [bind]. cbv zeta.
  destruct (replaceEndingTION _) as [s1 ?]. destruct (replaceEndingTY s1) as [s2 ?].
  cbn [bind]. destruct (applyEndingAH _) as [s4 flag].
  destruct (replaceEndingAY s4) as [s5 ?]. destruct (replaceEndingYToEH s5) as [s6 ?].
  cbn [fst snd]. step_pipeline; reflexivity.
Qed.

Lemma pipeline_keeps (part : jsstring) :
  exists segs flag,
    stateAtVowelSwaps part = Normal (segs, flag) /\
    applyVowelSwaps segs flag = Normal (vowelSwapsOf segs flag) /\
    keeps (segFromString part true) segs /\
    keeps segs (vowelSwapsOf segs flag) /\
    (length part <= length segs <= length part + 2)%nat /\
    length (vowelSwapsOf segs flag) = length segs.
Proof.
  rewrite stateAtVowelSwaps_groups. cbv zeta.
  set (s0 := segFromString part true).
  set (s1 := replacePairs _ _ (str "AH") s0).
  set (s2 := replacePairs _ _ (str "AR") s1).
  destruct (onsetStages_cases (endingStages s2).1) as (r & Hr & _ & Hlen).
  rewrite Hr. cbn [bind]. exists r, (endingStages s2).2.
  split; [reflexivity|]. split; [apply applyVowelSwaps_exact|].
  split; [|split; [apply vowelSwapsOf_keeps|split; [|apply vowelSwapsOf_length]]].
  - apply (keeps_trans _ s1); [apply replaceAllERWithAH_keeps|].
    apply (keeps_trans _ s2); [apply replaceAllIRWithAR_keeps|].
    apply (keeps_trans _ (endingStages s2).1); [apply endingStages_keeps|].
    apply onsetStages_keeps, Hr.
  - destruct (endingStages_cases s2) as (_ & Hlen2 & _).
    assert (length s2 = length part) as Hs2.
    { unfold s2, s1, s0. rewrite !replacePairs_length by reflexivity.
      unfold segFromString. apply length_fmap. }
    lia.
Qed.

(** X12: the origin flags tell the truth all along the pipeline.  The
    segments marked original when the vowel swaps start are characters of
    the word-part as typed, in the typed order, and so are those still marked
    original when the swaps are done: no stage marks a character it
    synthesized as original, and none reorders the typed characters. *)
Theorem originals_are_typed_characters (part : jsstring) :
  exists segs flag final,
    stateAtVowelSwaps part = Normal (segs, flag) /\
    applyVowelSwaps segs flag = Normal final /\
    sublist (originals segs) (segFromString part true) /\
    sublist (originals final) (originals segs).
Proof.
  destruct (pipeline_keeps part) as (segs & flag & Hst & Hsw & [H1 _] & [H2 _] & _).
  exists segs, flag, (vowelSwapsOf segs flag).
  rewrite originals_typed in H1. auto.
Qed.

Lemma upperCp_letter (c : char) :
  isLetter c = true -> exists u, upperCp c = [u] /\ capital u.
Proof.
  unfold isLetter, upperCp, capital. case_bools; intros Heq; try discriminate;
    first [exfalso; lia | eexists; (split; [reflexivity|lia])].
Qed.

Lemma toUpperCase_letters (s : jsstring) :
  Forall (fun c => isLetter c = true) s ->
  Forall capital (toUpperCase s) /\ length (toUpperCase s) = length s.
Proof.
  unfold toUpperCase. induction 1 as [|c s Hc _ [IH1 IH2]]; [split; [constructor|reflexivity]|].
  rewrite bind_cons. destruct (upperCp_letter c Hc) as (u & -> & Hu).
  cbn [app length]. split; [constructor; assumption|congruence].
Qed.

Lemma letterSeg_string (segs : list seg) :
  Forall letterSeg segs -> Forall (fun c => isLetter c = true) (segToString segs).
Proof. unfold segToString. rewrite Forall_fmap. auto. Qed.

Lemma exceptionWords_outputs (l o : jsstring) :
  lookupWord exceptionWords l = Some o ->
  Forall (fun c => isLetter c = true) o /\ o <> [].
Proof.
  unfold exceptionWords. cbn [lookupWord].
  repeat (match goal with |- context [streq l ?w] => destruct (streq l w) end;
          [intros [= <-]; split; [repeat constructor|discriminate]|]).
  discriminate.
Qed.

(** What [transformWordPart] returns for a word-part of letters. *)
Lemma transformWordPart_letters (part : jsstring) :
  Forall (fun c => isLetter c = true) part ->
  exists out,
    transformWordPart part = Normal out /\
    Forall capital out /\
    (part <> [] -> out <> []) /\
    (hit (applyExceptions part) = false ->
     (length part <= length out <= length part + 2)%nat).
Proof.
  intros Hpart. rewrite transformWordPart_stages, applyExceptions_words.
  destruct (lookupWord exceptionWords _) as [o|] eqn:Hlook; cbn [hit out].
  - destruct (exceptionWords_outputs _ _ Hlook) as [Ho Hne].
    destruct (toUpperCase_letters o Ho) as [Hcap Hlen].
    exists (toUpperCase o). split; [reflexivity|]. split; [exact Hcap|].
    split; [|discriminate].
    intros _ Hnil. apply (f_equal length) in Hnil. rewrite Hlen in Hnil.
    destruct o; [congruence|discriminate].
  - destruct (pipeline_keeps part) as (segs & flag & -> & Hsw & [_ H1] & [_ H2] & Hlen & Hlen2).
    cbn [bind fst snd]. rewrite Hsw. cbn [bind].
    assert (Hfinal : Forall letterSeg (vowelSwapsOf segs flag)).
    { apply H2, H1, letterSeg_synthesized, Hpart. }
    destruct (toUpperCase_letters _ (letterSeg_string _ Hfinal)) as [Hcap Hup].
    unfold segToString in Hup at 2. rewrite length_fmap, Hlen2 in Hup.
    eexists. split; [reflexivity|]. split; [exact Hcap|]. split.
    + intros Hne Hnil. apply (f_equal length) in Hnil. rewrite Hup in Hnil.
      destruct part; [congruence|]. simpl in *. lia.
    + intros _. lia.
Qed.

(** X13: a word-part of ASCII letters comes out as capital ASCII letters
    only, and a word-part that is not empty never comes out empty: neither
    the exception table nor any stage produces a character that is no
    letter, and the final upper-casing leaves no small letter. *)
Theorem letters_in_capitals_out (part : jsstring) :
  Forall (fun c => isLetter c = true) part -> part <> [] ->
  exists out,
    transformWordPart part = Normal out /\ Forall capital out /\ out <> [].
Proof.
  intros Hpart Hne.
  destruct (transformWordPart_letters part Hpart) as (out & H & Hcap & Hout & _).
  eauto.
Qed.

Lemma letters_in_capitals_out_witness :
  exists out,
    transformWordPart (str "Sweaty") = Normal out /\ Forall capital out /\ out <> [].
Proof.
  apply (letters_in_capitals_out (str "Sweaty")).
  - repeat constructor.
  - discriminate.
Defined.

(** X14: a word-part of ASCII letters that is no exception word never gets
    shorter and grows by at most two characters: one from the ending stages
    and one from the onset stages, of which at most one fires each. *)
Theorem word_part_grows_by_at_most_two (part : jsstring) :
  Forall (fun c => isLetter c = true) part ->
  hit (applyExceptions part) = false ->
  exists out,
    transformWordPart part = Normal out /\
    (length part <= length out <= length part + 2)%nat.
Proof.
  intros Hpart Hhit.
  destruct (transformWordPart_letters part Hpart) as (out & H & _ & _ & Hlen).
  eauto.
Qed.

Lemma word_part_grows_by_at_most_two_witness :
  exists out,
    transformWordPart (str "sweaty") = Normal out /\
    (length (str "sweaty") <= length out <= length (str "sweaty") + 2)%nat.
Proof.
  apply (word_part_grows_by_at_most_two (str "sweaty")).
  - repeat constructor.
  - reflexivity.
Defined.

Example sweaty_grows_by_two :
  transformWordPart (str "sweaty") = Normal (str "SAWEATEH").
Proof. vm_compute. reflexivity. Qed.

(** ** Tokens are split and joined without loss *)

Lemma splitSeparators_concat (s : jsstring) :
  forall cur, concat (splitSeparators s cur) = cur ++ s.
Proof.
  induction s as [|c s IH]; intros cur; cbn [splitSeparators].
  - cbn. rewrite !app_nil_r. reflexivity.
  - destruct (isSeparator c).
    + cbn [concat]. rewrite IH. reflexivity.
    + rewrite IH, <- app_assoc. reflexivity.
Qed.

Lemma splitSeparators_shape (s : jsstring) :
  forall cur, Forall (fun c => isSeparator c = false) cur ->
    Forall pieceShape (splitSeparators s cur).
Proof.
  induction s as [|c s IH]; intros cur Hcur; cbn [splitSeparators].
  - constructor; [right; exact Hcur|constructor].
  - destruct (isSeparator c) eqn:Hc.
    + constructor; [right; exact Hcur|].
      constructor; [left; eauto|]. apply IH. constructor.
    + apply IH. apply Forall_app. auto.
Qed.

Lemma splitSeparators_length (s : jsstring) :
  forall cur,
    length (splitSeparators s cur) = (2 * length (List.filter isSeparator s) + 1)%nat.
Proof.
  induction s as [|c s IH]; intros cur; cbn [splitSeparators List.filter].
  - reflexivity.
  - destruct (isSeparator c); cbn [length]; rewrite IH; lia.
Qed.

(** X15: [token.split(/([-'])/)] loses nothing: the pieces joined give the
    token back; every piece is one hyphen or apostrophe by itself, or a run
    (maybe empty) without any; and a token with [k] separators gives
    [2k + 1] pieces. *)
Theorem split_keeps_every_character (token : jsstring) :
  concat (splitSeparators token []) = token /\
  Forall pieceShape (splitSeparators token []) /\
  length (splitSeparators token [])
    = (2 * length (List.filter isSeparator token) + 1)%nat.
Proof.
  split; [apply (splitSeparators_concat token [])|].
  split; [apply splitSeparators_shape; constructor|apply splitSeparators_length].
Qed.

(** ** Tokens and texts are converted piece by piece *)

Ltac binds :=
  repeat (cbn [bind];
          match goal with
          | |- context [bind ?m _] =>
              lazymatch m with
              | Normal _ => fail
              | bind _ _ => fail
              | _ => destruct m
              end
          end);
  cbn [bind].

Section Composition.

Variable wordPart : jsstring -> completion jsstring.

Local Abbreviation transformPiece := (Orchestrator.transformPiece wordPart).
Local Abbreviation transformWordToken := (Orchestrator.transformWordToken wordPart).

Lemma mapC_app {A B : Type} (f : A -> completion B) (xs ys : list A) :
  mapC f (xs ++ ys) =
  let* a := mapC f xs in let* b := mapC f ys in Normal (a ++ b).
Proof.
  induction xs as [|x xs IH]; cbn [app mapC].
  - cbn [bind]. destruct (mapC f ys); reflexivity.
  - destruct (f x); cbn [bind]; [|reflexivity..]. rewrite IH.
    destruct (mapC f xs); cbn [bind]; [|reflexivity..].
    destruct (mapC f ys); reflexivity.
Qed.

Lemma splitSeparators_at (t0 : jsstring) (sep : char) (t : jsstring) :
  isSeparator sep = true ->
  forall cur,
    splitSeparators (t0 ++ sep :: t) cur
    = splitSeparators t0 cur ++ [sep] :: splitSeparators t [].
Proof.
  intros Hsep. induction t0 as [|c t0 IH]; intros cur; cbn [app splitSeparators].
  - rewrite Hsep. reflexivity.
  - destruct (isSeparator c); [|apply IH]. rewrite IH. reflexivity.
Qed.

Lemma transformPiece_separator (sep : char) :
  isSeparator sep = true -> transformPiece [sep] = Normal [sep].
Proof.
  unfold isSeparator, Orchestrator.transformPiece.
  change (str "-") with [45]. change (str "'") with [39]. cbn [streq].
  rewrite !andb_true_r. intros ->. reflexivity.
Qed.

Lemma transformPiece_run (w : jsstring) :
  Forall (fun c => isSeparator c = false) w -> transformPiece w = wordPart w.
Proof.
  unfold Orchestrator.transformPiece.
  change (str "-") with [45]. change (str "'") with [39].
  intros Hw. destruct Hw as [|c w Hc Hw]; [reflexivity|].
  destruct w; cbn [streq]; rewrite ?andb_false_r; [|reflexivity].
  unfold isSeparator in Hc. rewrite !andb_true_r, Hc. reflexivity.
Qed.

Lemma splitSeparators_run (w : jsstring) :
  Forall (fun c => isSeparator c = false) w ->
  forall cur, splitSeparators w cur = [cur ++ w].
Proof.
  induction 1 as [|c w Hc _ IH]; intros cur; cbn [splitSeparators].
  - rewrite app_nil_r. reflexivity.
  - rewrite Hc, IH, <- app_assoc. reflexivity.
Qed.

Lemma transformWordToken_run (w : jsstring) :
  Forall (fun c => isSeparator c = false) w ->
  transformWordToken w = wordPart w.
Proof.
  intros Hw. unfold Orchestrator.transformWordToken.
  rewrite (splitSeparators_run w Hw []). cbn [app mapC].
  rewrite (transformPiece_run w Hw).
  destruct (wordPart w); cbn [bind concat]; rewrite ?app_nil_r; reflexivity.
Qed.

Lemma transformWordToken_at (t0 : jsstring) (sep : char) (t : jsstring) :
  isSeparator sep = true ->
  transformWordToken (t0 ++ sep :: t) =
  let* o0 := transformWordToken t0 in
  let* o := transformWordToken t in
  Normal (o0 ++ sep :: o).
Proof.
  intros Hsep. unfold Orchestrator.transformWordToken.
  rewrite (splitSeparators_at t0 sep t Hsep []), mapC_app. cbn [mapC].
  rewrite (transformPiece_separator sep Hsep).
  destruct (mapC transformPiece (splitSeparators t0 [])) as [p0| |]; cbn [bind];
    [|reflexivity..].
  destruct (mapC transformPiece (splitSeparators t [])) as [p| |]; cbn [bind];
    [|reflexivity..].
  rewrite concat_app. reflexivity.
Qed.

Lemma renderAll_cons (c : chunk) (cs : list chunk) :
  renderAll wordPart (c :: cs) =
  let* o := renderChunk wordPart c in
  let* r := renderAll wordPart cs in
  Normal (o ++ r).
Proof.
  unfold renderAll. cbn [mapC].
  destruct (renderChunk wordPart c); cbn [bind]; [|reflexivity..].
  destruct (mapC _ cs); reflexivity.
Qed.

(** A gap under construction is a prefix of what is rendered. *)
Lemma renderAll_gap (s g : jsstring) :
  renderAll wordPart (chunksFrom s (Gap g)) =
  let* r := renderAll wordPart (chunksFrom s (Gap [])) in Normal (g ++ r).
Proof.
  revert g. induction s as [|c s IH]; intros g; cbn [chunksFrom].
  - cbn. rewrite !app_nil_r. reflexivity.
  - destruct (isLetter c).
    + rewrite !renderAll_cons. cbn [renderChunk bind].
      destruct (renderAll wordPart (chunksFrom s (Token [c]))); reflexivity.
    + rewrite (IH (g ++ [c])), (IH ([] ++ [c])).
      destruct (renderAll wordPart (chunksFrom s (Gap []))); cbn [bind];
        [|reflexivity..].
      rewrite <- app_assoc. reflexivity.
Qed.

(** A token under construction that holds a separator is rendered part by
    part. *)
Lemma renderAll_token (s t0 : jsstring) (sep : char) :
  isSeparator sep = true ->
  forall t,
    renderAll wordPart (chunksFrom s (Token (t0 ++ sep :: t))) =
    let* o0 := transformWordToken t0 in
    let* r := renderAll wordPart (chunksFrom s (Token t)) in
    Normal (o0 ++ sep :: r).
Proof.
  intros Hsep. induction s as [|c s IH]; intros t; cbn [chunksFrom].
  - rewrite !renderAll_cons. cbn [renderChunk].
    rewrite (transformWordToken_at t0 sep t Hsep).
    destruct (transformWordToken t0); cbn [bind]; [|reflexivity..].
    destruct (transformWordToken t); cbn [bind]; [|reflexivity..].
    cbn. rewrite !app_nil_r. reflexivity.
  - destruct (isLetter c || _).
    + rewrite <- (IH (t ++ [c])). rewrite <- app_assoc. reflexivity.
    + rewrite !renderAll_cons. cbn [renderChunk].
      rewrite (transformWordToken_at t0 sep t Hsep).
      destruct (transformWordToken t0); cbn [bind]; [|reflexivity..].
      destruct (transformWordToken t); cbn [bind]; [|reflexivity..].
      destruct (renderAll _ _); cbn [bind]; [|reflexivity..].
      rewrite <- app_assoc. reflexivity.
Qed.

Lemma startsWithLetter_app (a b : jsstring) (c : char) :
  isLetter c = false ->
  startsWithLetter (a ++ c :: b) = startsWithLetter a.
Proof. intros Hc. destruct a; [exact Hc|reflexivity]. Qed.

(** The text around a character that is no letter is rendered on its own
    on either side. *)
Lemma renderAll_around (a b : jsstring) (c : char) :
  isLetter c = false ->
  forall cur,
    renderAll wordPart (chunksFrom (a ++ c :: b) cur) =
    let* x := renderAll wordPart (chunksFrom a cur) in
    let* y := renderAll wordPart (chunks b) in
    Normal (x ++ c :: y).
Proof.
  intros Hc. induction a as [|l a IH]; intros cur.
  - cbn [app]. destruct cur as [g|t]; cbn [chunksFrom]; rewrite Hc; cbn [orb].
    + rewrite renderAll_gap. unfold chunks, renderAll at 2. cbn [mapC renderChunk bind].
      binds; try reflexivity; cbn [concat app]; rewrite ?app_nil_r, <- ?app_assoc; reflexivity.
    + destruct (isSeparator c && startsWithLetter b) eqn:Hext.
      * apply andb_true_iff in Hext as [Hsep Hb].
        destruct b as [|l b]; [discriminate|]. cbn [startsWithLetter] in Hb.
        unfold chunks. cbn [chunksFrom]. rewrite Hb. cbn [orb].
        rewrite <- app_assoc. cbn [app].
        rewrite (renderAll_token b t c Hsep [l]).
        rewrite !renderAll_cons. cbn [renderChunk]. unfold renderAll at 2.
        cbn [mapC bind]. binds; try reflexivity; cbn [concat app]; rewrite ?app_nil_r, <- ?app_assoc; reflexivity.
      * rewrite !renderAll_cons. cbn [renderChunk]. rewrite renderAll_gap.
        unfold chunks, renderAll at 2. cbn [mapC bind].
        binds; try reflexivity; cbn [concat app]; rewrite ?app_nil_r, <- ?app_assoc; reflexivity.
  - cbn [app]. destruct cur as [g|t]; cbn [chunksFrom].
    + destruct (isLetter l).
      * rewrite !renderAll_cons. cbn [renderChunk bind]. rewrite IH.
        binds; try reflexivity; cbn [concat app]; rewrite ?app_nil_r, <- ?app_assoc; reflexivity.
      * apply IH.
    + rewrite (startsWithLetter_app a b c Hc).
      destruct (isLetter l || _).
      * apply IH.
      * rewrite !renderAll_cons. cbn [renderChunk]. rewrite IH.
        binds; try reflexivity; cbn [concat app]; rewrite ?app_nil_r, <- ?app_assoc; reflexivity.
Qed.

Lemma convertText_renderAll (input : jsstring) :
  Orchestrator.convertText wordPart input =
  let* r := renderAll wordPart (chunks input) in Normal (toUpperCase r).
Proof.
  rewrite convertText_chunks. unfold renderAll.
  destruct (mapC _ _); reflexivity.
Qed.

Lemma convertText_around (a b : jsstring) (c : char) :
  isLetter c = false ->
  Orchestrator.convertText wordPart (a ++ c :: b) =
  let* x := Orchestrator.convertText wordPart a in
  let* y := Orchestrator.convertText wordPart b in
  Normal (x ++ toUpperCase [c] ++ y).
Proof.
  intros Hc. rewrite !convertText_renderAll. unfold chunks at 1.
  rewrite (renderAll_around a b c Hc). fold (chunks a).
  destruct (renderAll wordPart (chunks a)); cbn [bind]; [|reflexivity..].
  destruct (renderAll wordPart (chunks b)); cbn [bind]; [|reflexivity..].
  change (a0 ++ c :: a1) with (a0 ++ [c] ++ a1).
  rewrite !toUpperCase_app. reflexivity.
Qed.

End Composition.

(** X16: [transformWordToken] works part by part.  A token cut at a hyphen
    or apostrophe is transformed as its two sides are, with the separator
    copied between them; a token without separator goes to
    [transformWordPart] whole. *)
Theorem token_is_transformed_part_by_part (t0 t : jsstring) (sep : char) :
  isSeparator sep = true ->
  transformWordToken (t0 ++ sep :: t) =
    (let* o0 := transformWordToken t0 in
     let* o := transformWordToken t in
     Normal (o0 ++ sep :: o)) /\
  (Forall (fun c => isSeparator c = false) t ->
   transformWordToken t = transformWordPart t).
Proof.
  intros Hsep. split.
  - apply (transformWordToken_at transformWordPart t0 sep t Hsep).
  - apply (transformWordToken_run transformWordPart t).
Qed.

Lemma token_is_transformed_part_by_part_witness :
  transformWordToken (str "mother" ++ 45 :: str "in") =
    (let* o0 := transformWordToken (str "mother") in
     let* o := transformWordToken (str "in") in
     Normal (o0 ++ 45 :: o)) /\
  (Forall (fun c => isSeparator c = false) (str "in") ->
   transformWordToken (str "in") = transformWordPart (str "in")).
Proof.
  apply (token_is_transformed_part_by_part (str "mother") (str "in") 45).
  reflexivity.
Defined.

(** X17: text on the two sides of a character of Basic Latin or Latin-1
    that is no ASCII letter is converted independently: the conversion of
    the whole is the conversion of the left side, the character upper-cased,
    and the conversion of the right side.  This holds for a hyphen or an
    apostrophe between two letters as well. *)
Theorem sides_of_a_non_letter_convert_independently (a b : jsstring) (c : char) :
  c < 256 -> isLetter c = false ->
  exists x y,
    convertText a = Normal x /\ convertText b = Normal y /\
    convertText (a ++ c :: b) = Normal (x ++ toUpperCase [c] ++ y).
Proof.
  intros _ Hc.
  destruct (loop_total transformWordPart transformWordPart_total a) as [x Hx].
  destruct (loop_total transformWordPart transformWordPart_total b) as [y Hy].
  exists x, y. split; [exact Hx|]. split; [exact Hy|].
  unfold convertText in *. rewrite (convertText_around transformWordPart a b c Hc).
  rewrite Hx, Hy. reflexivity.
Qed.

Lemma sides_of_a_non_letter_convert_independently_witness :
  exists x y,
    convertText (str "well done") = Normal x /\ convertText (str "t") = Normal y /\
    convertText (str "well done" ++ 39 :: str "t")
      = Normal (x ++ toUpperCase [39] ++ y).
Proof.
  apply (sides_of_a_non_letter_convert_independently (str "well done") (str "t") 39).
  - reflexivity.
  - reflexivity.
Defined.

(** ** The output is in upper case *)

Lemma upperCp_id (u : char) :
  ~ small u -> u <> 181 -> u <> 223 -> ~ (224 <= u <= 254 /\ u <> 247) -> u <> 255 ->
  upperCp u = [u].
Proof.
  unfold upperCp, small. intros H1 H2 H3 H4 H5.
  case_bools; try reflexivity; exfalso; lia.
Qed.

Lemma upperCp_settled (c u : char) :
  u ∈ upperCp c -> upperCp u = [u] /\ ~ small u.
Proof.
  intros Hu.
  assert (Hcases :
    (u = c - 32 /\ 97 <= c <= 122) \/ u = 924 \/ u = 83 \/
    (u = c - 32 /\ 224 <= c <= 254 /\ c <> 247) \/ u = 376 \/
    (u = c /\ ~ small c /\ c <> 181 /\ c <> 223 /\
     ~ (224 <= c <= 254 /\ c <> 247) /\ c <> 255)).
  { revert Hu. unfold upperCp, small.
    case_bools; rewrite ?elem_of_cons, elem_of_nil; intros Hu; lia. }
  split; [apply upperCp_id|]; unfold small in *; lia.
Qed.

Lemma toUpperCase_settled (s : jsstring) :
  toUpperCase (toUpperCase s) = toUpperCase s /\ Forall (fun u => ~ small u) (toUpperCase s).
Proof.
  assert (H : Forall (fun u => upperCp u = [u] /\ ~ small u) (toUpperCase s)).
  { unfold toUpperCase. apply Forall_forall. intros u Hu.
    apply list_elem_of_bind in Hu as (c & Hu & _). apply (upperCp_settled c u Hu). }
  split.
  - apply toUpperCase_fixed. eapply Forall_impl; [exact H|]. intros u [Hu _]. exact Hu.
  - eapply Forall_impl; [exact H|]. intros u [_ Hu]. exact Hu.
Qed.

(** X18: the output of [convertText] is in upper case: upper-casing it
    again changes nothing, and it holds no small ASCII letter, whatever the
    input. *)
Theorem output_is_upper_case (input : jsstring) :
  exists out,
    convertText input = Normal out /\
    toUpperCase out = out /\
    Forall (fun u => ~ small u) out.
Proof.
  destruct (renderChunks_total transformWordPart transformWordPart_total input)
    as [outs Houts].
  exists (toUpperCase (concat outs)).
  split; [|apply toUpperCase_settled].
  unfold convertText. rewrite convertText_chunks, Houts. reflexivity.
Qed.

(** ** The characters that are no letters come out in their order *)

Lemma chunksFrom_letters (w : jsstring) :
  Forall (fun c => isLetter c = true) w ->
  forall t, chunksFrom w (Token t) = [Token (t ++ w); Gap []].
Proof.
  induction 1 as [|c w Hc _ IH]; intros t; cbn [chunksFrom].
  - rewrite app_nil_r. reflexivity.
  - rewrite Hc. cbn [orb]. rewrite IH, <- app_assoc. reflexivity.
Qed.

Lemma capital_letter (c : char) : capital c -> isLetter c = true.
Proof. unfold capital. intros H. apply isLetter_range. lia. Qed.

Lemma capital_fixed (s : jsstring) : Forall capital s -> toUpperCase s = s.
Proof.
  intros H. apply toUpperCase_fixed. eapply Forall_impl; [exact H|].
  intros c Hc. apply upperCp_id; unfold small, capital in *; lia.
Qed.

Lemma nonLetters_app (a b : jsstring) : nonLetters (a ++ b) = nonLetters a ++ nonLetters b.
Proof. apply List.filter_app. Qed.

Lemma nonLetters_capitals (s : jsstring) : Forall capital s -> nonLetters s = [].
Proof.
  induction 1 as [|c s Hc _ IH]; [reflexivity|].
  unfold nonLetters. cbn [List.filter]. rewrite (capital_letter c Hc). exact IH.
Qed.

(** A run of letters is one token and goes to [transformWordPart] whole. *)
Lemma convertText_word (w : jsstring) :
  Forall (fun c => isLetter c = true) w ->
  exists out, convertText w = Normal out /\ Forall capital out.
Proof.
  intros Hw. unfold convertText. rewrite convertText_renderAll.
  destruct Hw as [|l w Hl Hw].
  - exists []. split; [reflexivity|constructor].
  - unfold chunks, renderAll. cbn [chunksFrom]. rewrite Hl.
    rewrite (chunksFrom_letters w Hw [l]). cbn [mapC renderChunk app bind].
    rewrite transformWordToken_run.
    2:{ constructor; [apply letter_not_separator, Hl|].
        eapply Forall_impl; [exact Hw|]. apply letter_not_separator. }
    destruct (transformWordPart_letters (l :: w)) as (out & -> & Hcap & _);
      [constructor; assumption|].
    cbn [bind concat app]. rewrite app_nil_r, (capital_fixed out Hcap). eauto.
Qed.

Lemma nonLetters_kept (rest : jsstring) :
  Forall (fun c => c < 128) rest ->
  forall w, Forall (fun c => isLetter c = true) w ->
    exists out, convertText (w ++ rest) = Normal out /\ nonLetters out = nonLetters rest.
Proof.
  induction 1 as [|c rest Hc _ IH]; intros w Hw.
  - rewrite app_nil_r. destruct (convertText_word w Hw) as (out & Hout & Hcap).
    exists out. split; [exact Hout|apply nonLetters_capitals, Hcap].
  - destruct (isLetter c) eqn:Hl.
    + destruct (IH (w ++ [c])) as (out & Hout & Hkept).
      { apply Forall_app. split; [exact Hw|repeat constructor; exact Hl]. }
      rewrite <- app_assoc in Hout. exists out. split; [exact Hout|].
      rewrite Hkept. unfold nonLetters. cbn [List.filter]. rewrite Hl. reflexivity.
    + destruct (convertText_word w Hw) as (x & Hx & Hcap).
      destruct (IH [] ltac:(constructor)) as (y & Hy & Hkept). cbn [app] in Hy.
      exists (x ++ toUpperCase [c] ++ y). split.
      * unfold convertText in *.
        rewrite (convertText_around transformWordPart w rest c Hl), Hx, Hy. reflexivity.
      * rewrite !nonLetters_app, (nonLetters_capitals x Hcap), Hkept.
        unfold toUpperCase. cbn [mbind list_bind app].
        rewrite (upperCp_ascii_other c Hc Hl). unfold nonLetters. cbn [List.filter app].
        rewrite Hl. reflexivity.
Qed.

(** X19: for an ASCII input the characters that are no letters come out of
    [convertText] unchanged, all of them and in their order, and nothing that
    is no letter is added: the output with its letters removed is the input
    with its letters removed. *)
Theorem non_letters_come_out_in_order (input : jsstring) :
  Forall (fun c => c < 128) input ->
  exists out, convertText input = Normal out /\ nonLetters out = nonLetters input.
Proof.
  intros Hascii. apply (nonLetters_kept input Hascii []). constructor.
Qed.

Lemma non_letters_come_out_in_order_witness :
  exists out,
    convertText (str "It's a re-run, 2 snakes!") = Normal out /\
    nonLetters out = nonLetters (str "It's a re-run, 2 snakes!").
Proof.
  apply (non_letters_come_out_in_order (str "It's a re-run, 2 snakes!")).
  apply Forall_forall. intros c Hc. apply list_elem_of_In in Hc.
  repeat (destruct Hc as [<-|Hc]; [reflexivity|]). destruct Hc.
Defined.

(** ** The case of the input does not matter *)

Lemma asciiLower_upperCp (c : char) : upperCp (asciiLower c) = upperCp c.
Proof.
  unfold asciiLower. destruct (N.leb_spec 65 c), (N.leb_spec c 90); cbn [andb];
    try reflexivity.
  rewrite (proj2 (upperCp_capital (c + 32) c ltac:(lia))) by auto.
  rewrite (proj2 (upperCp_capital c c ltac:(lia))) by auto. reflexivity.
Qed.

Lemma asciiLower_lowerCp (c : char) : lowerCp (asciiLower c) = lowerCp c.
Proof.
  unfold asciiLower. destruct (N.leb_spec 65 c), (N.leb_spec c 90); cbn [andb];
    try reflexivity.
  rewrite (proj2 (lowerCp_small (c + 32) (c + 32) ltac:(lia))) by auto.
  rewrite (proj2 (lowerCp_small c (c + 32) ltac:(lia))) by (right; lia). reflexivity.
Qed.

Lemma asciiLower_isLetter (c : char) : isLetter (asciiLower c) = isLetter c.
Proof. unfold asciiLower, isLetter. case_bools; try reflexivity; lia. Qed.

Lemma asciiLower_other (c : char) : isLetter c = false -> asciiLower c = c.
Proof. unfold asciiLower, isLetter. case_bools; intros Heq; try discriminate; reflexivity. Qed.

Lemma asciiLower_isSeparator (c : char) : isSeparator (asciiLower c) = isSeparator c.
Proof. unfold asciiLower, isSeparator. case_bools; try reflexivity; lia. Qed.

Lemma sameSeg_refl (x : seg) : sameSeg x x.
Proof. split; reflexivity. Qed.

Lemma sameSegs_refl (l : list seg) : Forall2 sameSeg l l.
Proof. induction l; constructor; auto using sameSeg_refl. Qed.

Lemma sameSeg_upper (x y : seg) : sameSeg x y -> chUpper (ch x) = chUpper (ch y).
Proof.
  intros [_ H]. rewrite !chUpper_upperCp.
  rewrite <- (asciiLower_upperCp (ch x)), H. apply asciiLower_upperCp.
Qed.

Lemma sameSeg_letter (x y : seg) : sameSeg x y -> isLetter (ch x) = isLetter (ch y).
Proof.
  intros [_ H]. rewrite <- (asciiLower_isLetter (ch x)), H. apply asciiLower_isLetter.
Qed.

Lemma sameSeg_consonant (x y : seg) :
  sameSeg x y -> isConsonantLetter (ch x) = isConsonantLetter (ch y).
Proof.
  intros H. unfold isConsonantLetter.
  rewrite (sameSeg_letter x y H), (sameSeg_upper x y H). reflexivity.
Qed.

Lemma sameSegs_upper (a b : list seg) :
  Forall2 sameSeg a b -> toUpperCase (segToString a) = toUpperCase (segToString b).
Proof.
  induction 1 as [|x y a b Hxy _ IH]; [reflexivity|].
  change (upperCp (ch x) ++ toUpperCase (segToString a)
          = upperCp (ch y) ++ toUpperCase (segToString b)).
  rewrite <- !chUpper_upperCp, (sameSeg_upper x y Hxy), IH. reflexivity.
Qed.

Lemma sameSegs_lower (a b : list seg) :
  Forall2 sameSeg a b -> toLowerCase (segToString a) = toLowerCase (segToString b).
Proof.
  induction 1 as [|x y a b [_ Hxy] _ IH]; [reflexivity|].
  change (lowerCp (ch x) ++ toLowerCase (segToString a)
          = lowerCp (ch y) ++ toLowerCase (segToString b)).
  rewrite <- (asciiLower_lowerCp (ch x)), Hxy, asciiLower_lowerCp, IH. reflexivity.
Qed.

Lemma sameSegs_len (a b : list seg) : Forall2 sameSeg a b -> len a = len b.
Proof. intros H. unfold len. rewrite (Forall2_length _ _ _ H). reflexivity. Qed.

Lemma sameSegs_splice (a b : list seg) (start end_ : Z) (ins : list seg) :
  Forall2 sameSeg a b ->
  Forall2 sameSeg (spliceSegs a start end_ ins) (spliceSegs b start end_ ins).
Proof.
  intros H. unfold spliceSegs. rewrite (Forall2_length _ _ _ H).
  repeat apply Forall2_app; auto using Forall2_take, Forall2_drop, sameSegs_refl.
Qed.

Lemma replacePairs_same (first second ins : jsstring) (a : list seg) :
  forall b, Forall2 sameSeg a b ->
    Forall2 sameSeg (replacePairs first second ins a) (replacePairs first second ins b).
Proof.
  induction a as [| s | sa sb rest IH1 IH2] using pair_ind; intros b H.
  - inversion H. constructor.
  - inversion H as [|? s' ? ? Hs Hrest]; subst. inversion Hrest; subst.
    constructor; [exact Hs|constructor].
  - inversion H as [|? sa' ? b1 Ha H1]; subst.
    inversion H1 as [|? sb' ? rest' Hb Hrest]; subst.
    rewrite !replacePairs_cons2.
    rewrite (sameSeg_upper sa sa' Ha), (sameSeg_upper sb sb' Hb).
    destruct (_ && _).
    + apply Forall2_app; [apply sameSegs_refl|apply IH1, Hrest].
    + constructor; [exact Ha|apply IH2, H1].
Qed.

Ltac same_ending HR :=
  rewrite (sameSegs_upper _ _ HR), (sameSegs_len _ _ HR);
  case_ifs; cbn [fst snd]; (split; [|reflexivity]);
  first [exact HR | apply sameSegs_splice, HR].

Lemma endingStages_same (a b : list seg) :
  Forall2 sameSeg a b ->
  Forall2 sameSeg (endingStages a).1 (endingStages b).1 /\
  (endingStages a).2 = (endingStages b).2.
Proof.
  assert (H1 : forall a b, Forall2 sameSeg a b ->
            Forall2 sameSeg (replaceEndingTION a).1 (replaceEndingTION b).1 /\
            (replaceEndingTION a).2 = (replaceEndingTION b).2)
    by (intros x y HR; unfold replaceEndingTION; same_ending HR).
  assert (H2 : forall a b, Forall2 sameSeg a b ->
            Forall2 sameSeg (replaceEndingTY a).1 (replaceEndingTY b).1 /\
            (replaceEndingTY a).2 = (replaceEndingTY b).2)
    by (intros x y HR; unfold replaceEndingTY; same_ending HR).
  assert (H3 : forall a b, Forall2 sameSeg a b ->
            Forall2 sameSeg (replaceEndingLY a) (replaceEndingLY b)).
  { intros x y HR; unfold replaceEndingLY.
    rewrite (sameSegs_upper _ _ HR), (sameSegs_len _ _ HR).
    case_ifs; first [exact HR | apply sameSegs_splice, HR]. }
  assert (H4 : forall a b, Forall2 sameSeg a b ->
            Forall2 sameSeg (applyEndingAH a).1 (applyEndingAH b).1 /\
            (applyEndingAH a).2 = (applyEndingAH b).2)
    by (intros x y HR; unfold applyEndingAH; same_ending HR).
  assert (H5 : forall a b, Forall2 sameSeg a b ->
            Forall2 sameSeg (replaceEndingAY a).1 (replaceEndingAY b).1 /\
            (replaceEndingAY a).2 = (replaceEndingAY b).2)
    by (intros x y HR; unfold replaceEndingAY; same_ending HR).
  assert (H6 : forall a b, Forall2 sameSeg a b ->
            Forall2 sameSeg (replaceEndingYToEH a).1 (replaceEndingYToEH b).1 /\
            (replaceEndingYToEH a).2 = (replaceEndingYToEH b).2)
    by (intros x y HR; unfold replaceEndingYToEH; same_ending HR).
  intros HR. unfold endingStages.
  destruct (H1 a b HR) as [R1 _].
  destruct (replaceEndingTION a) as [xa1 ?], (replaceEndingTION b) as [xb1 ?].
  cbn [fst] in R1. destruct (H2 xa1 xb1 R1) as [R2 _].
  destruct (replaceEndingTY xa1) as [xa2 ?], (replaceEndingTY xb1) as [xb2 ?].
  cbn [fst] in R2. pose proof (H3 xa2 xb2 R2) as R3.
  destruct (H4 _ _ R3) as [R4 F4].
  destruct (applyEndingAH (replaceEndingLY xa2)) as [xa4 fa],
    (applyEndingAH (replaceEndingLY xb2)) as [xb4 fb].
  cbn [fst snd] in R4, F4. destruct (H5 xa4 xb4 R4) as [R5 _].
  destruct (replaceEndingAY xa4) as [xa5 ?], (replaceEndingAY xb4) as [xb5 ?].
  cbn [fst] in R5. destruct (H6 xa5 xb5 R5) as [R6 _].
  destruct (replaceEndingYToEH xa5) as [xa6 ?], (replaceEndingYToEH xb5) as [xb6 ?].
  cbn [fst snd] in *. auto.
Qed.

Ltac same_onset :=
  case_lens; try discriminate; cbn [bind segAt lookup list_lookup];
  repeat match goal with
    | H : sameSeg ?x ?y |- context [chUpper (ch ?x)] => rewrite (sameSeg_upper x y H)
    | H : sameSeg ?x ?y |- context [isConsonantLetter (ch ?x)] =>
        rewrite (sameSeg_consonant x y H)
    end;
  repeat match goal with
    | |- context [if ?b then _ else _] => destruct b; cbn [bind]
    end;
  (eexists _, _; split; [reflexivity|]; split; [reflexivity|]);
  first [apply sameSegs_splice|idtac]; repeat (constructor; try assumption).

Lemma onsetStages_same (a b : list seg) :
  Forall2 sameSeg a b ->
  exists ra rb, onsetStages a = Normal ra /\ onsetStages b = Normal rb /\
    Forall2 sameSeg ra rb.
Proof.
  assert (H1 : forall a b, Forall2 sameSeg a b ->
            exists ra rb, replaceStartingSNWithSAN a = Normal ra /\
              replaceStartingSNWithSAN b = Normal rb /\ Forall2 sameSeg ra rb).
  { intros x y HR. unfold replaceStartingSNWithSAN. rewrite (sameSegs_len _ _ HR).
    destruct HR as [|x0 y0 xs0 ys0 E0 [|x1 y1 xs1 ys1 E1 HR]]; same_onset. }
  assert (H2 : forall a b, Forall2 sameSeg a b ->
            exists ra rb, replaceStartingSWWithSAW a = Normal ra /\
              replaceStartingSWWithSAW b = Normal rb /\ Forall2 sameSeg ra rb).
  { intros x y HR. unfold replaceStartingSWWithSAW. rewrite (sameSegs_len _ _ HR).
    destruct HR as [|x0 y0 xs0 ys0 E0 [|x1 y1 xs1 ys1 E1 HR]]; same_onset. }
  assert (H3 : forall a b, Forall2 sameSeg a b ->
            exists ra rb, applyPrefixREToRO a = Normal ra /\
              applyPrefixREToRO b = Normal rb /\ Forall2 sameSeg ra rb).
  { intros x y HR. unfold applyPrefixREToRO. rewrite (sameSegs_lower _ _ HR).
    assert (length (segToString x) = length (segToString y)) as ->
      by (unfold segToString; rewrite !length_fmap; apply (Forall2_length _ _ _ HR)).
    destruct (streq _ _); [eauto 6|].
    destruct (startsWith _ _ && _) eqn:Hcond; [|eauto 6].
    apply andb_true_iff in Hcond as [_ Hlen]. apply Nat.leb_le in Hlen.
    destruct HR as [|x0 y0 xs0 ys0 E0 [|x1 y1 xs1 ys1 E1 [|x2 y2 xs2 ys2 E2 HR]]];
      try (simpl in Hlen; lia).
    unfold segToString. rewrite !fmap_cons. cbn [lookup list_lookup].
    rewrite (sameSeg_upper x2 y2 E2).
    destruct (has VOWELS _);
      (eexists _, _; split; [reflexivity|]; split; [reflexivity|]);
      first [apply sameSegs_splice|idtac]; repeat (constructor; try assumption). }
  assert (H4 : forall a b, Forall2 sameSeg a b ->
            exists ra rb, applyClusterInsertions a = Normal ra /\
              applyClusterInsertions b = Normal rb /\ Forall2 sameSeg ra rb).
  { intros x y HR. unfold applyClusterInsertions. rewrite (sameSegs_len _ _ HR).
    destruct HR as [|x0 y0 xs0 ys0 E0 [|x1 y1 xs1 ys1 E1 [|x2 y2 xs2 ys2 E2 HR]]]; same_onset. }
  intros HR. unfold onsetStages.
  destruct (H1 a b HR) as (a1 & b1 & -> & -> & R1). cbn [bind].
  destruct (H2 a1 b1 R1) as (a2 & b2 & -> & -> & R2). cbn [bind].
  destruct (H3 a2 b2 R2) as (a3 & b3 & -> & -> & R3). cbn [bind].
  apply (H4 a3 b3 R3).
Qed.

Lemma isOrigVowel_same (a b : list seg) (i : nat) :
  Forall2 sameSeg a b -> isOrigVowel a i = isOrigVowel b i.
Proof.
  intros HR. unfold isOrigVowel.
  destruct (a !! i) as [x|] eqn:Ha.
  - destruct (Forall2_lookup_l _ _ _ _ _ HR Ha) as (y & -> & Hxy).
    rewrite (sameSeg_upper x y Hxy). destruct Hxy as [-> _]. reflexivity.
  - apply lookup_ge_None in Ha. rewrite (Forall2_length _ _ _ HR) in Ha.
    apply lookup_ge_None in Ha. rewrite Ha. reflexivity.
Qed.

Lemma nextUpper_same (a b : list seg) (i : nat) :
  Forall2 sameSeg a b ->
  match a !! i with Some n => chUpper (ch n) | None => [] end
  = match b !! i with Some n => chUpper (ch n) | None => [] end.
Proof.
  intros HR. destruct (a !! i) as [x|] eqn:Ha.
  - destruct (Forall2_lookup_l _ _ _ _ _ HR Ha) as (y & -> & Hxy).
    apply sameSeg_upper, Hxy.
  - apply lookup_ge_None in Ha. rewrite (Forall2_length _ _ _ HR) in Ha.
    apply lookup_ge_None in Ha. rewrite Ha. reflexivity.
Qed.

Lemma swapsAt_same (a b : list seg) (boundary : nat) (protectSet : gset nat) (i : nat) :
  Forall2 sameSeg a b ->
  swapsAt a boundary protectSet i = swapsAt b boundary protectSet i.
Proof.
  intros HR. unfold swapsAt. rewrite (nextUpper_same a b (i + 1) HR).
  destruct (a !! i) as [x|] eqn:Ha.
  - destruct (Forall2_lookup_l _ _ _ _ _ HR Ha) as (y & -> & Hxy).
    rewrite (sameSeg_upper x y Hxy). destruct Hxy as [-> _]. reflexivity.
  - apply lookup_ge_None in Ha. rewrite (Forall2_length _ _ _ HR) in Ha.
    apply lookup_ge_None in Ha. rewrite Ha. reflexivity.
Qed.

Lemma vowelSwapsOf_same (a b : list seg) (flag : bool) :
  Forall2 sameSeg a b ->
  Forall2 sameSeg (vowelSwapsOf a flag) (vowelSwapsOf b flag).
Proof.
  intros HR.
  assert (Hb : protectedSuffixStartIndex a = protectedSuffixStartIndex b)
    by (unfold protectedSuffixStartIndex; rewrite (sameSegs_upper a b HR); reflexivity).
  assert (Hidx : origVowelIdx a = origVowelIdx b).
  { unfold origVowelIdx. rewrite (Forall2_length _ _ _ HR).
    apply List.filter_ext. intros i. apply isOrigVowel_same, HR. }
  apply Forall2_same_length_lookup_2.
  - rewrite !vowelSwapsOf_length. apply (Forall2_length _ _ _ HR).
  - intros i x y Hx Hy. rewrite vowelSwapsOf_lookup in Hx, Hy.
    rewrite Hb, Hidx, (swapsAt_same a b _ _ i HR) in Hx.
    destruct (swapsAt b _ _ i).
    + injection Hx as <-. injection Hy as <-. apply sameSeg_refl.
    + apply (Forall2_lookup_lr _ _ _ _ _ _ HR Hx Hy).
Qed.

Lemma segFromString_same (p q : jsstring) :
  asciiLower <$> p = asciiLower <$> q ->
  Forall2 sameSeg (segFromString p true) (segFromString q true).
Proof.
  revert q. induction p as [|c p IH]; intros [|d q] H; try discriminate.
  - constructor.
  - rewrite !fmap_cons in H. injection H as Hc H.
    constructor; [split; [reflexivity|exact Hc]|apply IH, H].
Qed.

(** Word-parts that differ in the case of ASCII letters only are
    transformed alike. *)
Lemma transformWordPart_same (p q : jsstring) :
  asciiLower <$> p = asciiLower <$> q ->
  transformWordPart p = transformWordPart q.
Proof.
  intros H. rewrite !transformWordPart_stages, !applyExceptions_words, H.
  destruct (lookupWord exceptionWords _); cbn [hit out]; [reflexivity|].
  rewrite !stateAtVowelSwaps_groups. cbv zeta.
  pose proof (replacePairs_same (str "I") (str "R") (str "AR") _ _
                (replacePairs_same (str "E") (str "R") (str "AH") _ _
                   (segFromString_same p q H))) as HR.
  destruct (endingStages_same _ _ HR) as [HE ->].
  destruct (onsetStages_same _ _ HE) as (ra & rb & -> & -> & HO).
  cbn [bind fst snd]. rewrite !applyVowelSwaps_exact. cbn [bind].
  rewrite (sameSegs_upper _ _ (vowelSwapsOf_same ra rb _ HO)). reflexivity.
Qed.

Section CaseOfTokens.

Variable wordPart : jsstring -> completion jsstring.
Hypothesis wordPart_same : forall p, wordPart (asciiLower <$> p) = wordPart p.

Lemma splitSeparators_lower (s : jsstring) :
  forall cur : jsstring,
    splitSeparators (asciiLower <$> s) (asciiLower <$> cur)
    = (fun piece : jsstring => asciiLower <$> piece) <$> splitSeparators s cur.
Proof.
  induction s as [|c s IH]; intros cur; [reflexivity|].
  rewrite fmap_cons. cbn [splitSeparators]. rewrite asciiLower_isSeparator.
  destruct (isSeparator c).
  - rewrite !fmap_cons. do 2 f_equal. apply (IH []).
  - rewrite <- IH, fmap_app. reflexivity.
Qed.

Lemma transformPiece_lower (piece : jsstring) :
  Orchestrator.transformPiece wordPart (asciiLower <$> piece)
  = Orchestrator.transformPiece wordPart piece.
Proof.
  unfold Orchestrator.transformPiece.
  change (str "-") with [45]. change (str "'") with [39].
  destruct piece as [|c [|d piece]]; rewrite ?fmap_cons; cbn [streq fmap list_fmap].
  - apply (wordPart_same []).
  - pose proof (asciiLower_isSeparator c) as Hsep. unfold isSeparator in Hsep.
    rewrite !andb_true_r, Hsep. clear Hsep.
    destruct ((c =? 45) || (c =? 39)) eqn:Hc; [|apply (wordPart_same [c])].
    rewrite asciiLower_other; [reflexivity|].
    destruct (isLetter c) eqn:Hl; [|reflexivity].
    apply letter_not_separator in Hl. unfold isSeparator in Hl. congruence.
  - rewrite !andb_false_r. apply (wordPart_same (c :: d :: piece)).
Qed.

Lemma mapC_fmap {A B C : Type} (f : B -> completion C) (g : A -> B) (l : list A) :
  mapC f (g <$> l) = mapC (fun x => f (g x)) l.
Proof.
  induction l as [|x l IH]; [reflexivity|].
  rewrite fmap_cons. cbn [mapC]. rewrite IH. reflexivity.
Qed.

Lemma mapC_ext {A B : Type} (f g : A -> completion B) (l : list A) :
  (forall x, f x = g x) -> mapC f l = mapC g l.
Proof.
  intros H. induction l as [|x l IH]; [reflexivity|].
  cbn [mapC]. rewrite H, IH. reflexivity.
Qed.

Lemma transformWordToken_lower (t : jsstring) :
  Orchestrator.transformWordToken wordPart (asciiLower <$> t)
  = Orchestrator.transformWordToken wordPart t.
Proof.
  unfold Orchestrator.transformWordToken.
  change (splitSeparators (asciiLower <$> t) [])
    with (splitSeparators (asciiLower <$> t) (asciiLower <$> [])).
  rewrite (splitSeparators_lower t []), mapC_fmap.
  rewrite (mapC_ext _ _ _ transformPiece_lower). reflexivity.
Qed.

Lemma startsWithLetter_lower (s : jsstring) :
  startsWithLetter (asciiLower <$> s) = startsWithLetter s.
Proof. destruct s; [reflexivity|apply asciiLower_isLetter]. Qed.

Lemma renderAll_lower (s : jsstring) :
  forall cur,
    renderAll wordPart (chunksFrom (asciiLower <$> s) (lowerChunk cur))
    = renderAll wordPart (chunksFrom s cur).
Proof.
  induction s as [|c s IH]; intros cur.
  - destruct cur as [g|t]; [reflexivity|]. cbn [fmap list_fmap chunksFrom lowerChunk].
    rewrite !renderAll_cons. cbn [renderChunk]. rewrite transformWordToken_lower.
    reflexivity.
  - rewrite fmap_cons. destruct cur as [g|t]; cbn [chunksFrom lowerChunk].
    + rewrite asciiLower_isLetter. destruct (isLetter c) eqn:Hl.
      * rewrite !renderAll_cons. rewrite <- (IH (Token [c])). reflexivity.
      * rewrite (asciiLower_other c Hl). apply (IH (Gap (g ++ [c]))).
    + rewrite asciiLower_isLetter, asciiLower_isSeparator, startsWithLetter_lower.
      destruct (isLetter c) eqn:Hl; cbn [orb].
      * rewrite <- (IH (Token (t ++ [c]))). cbn [lowerChunk].
        rewrite fmap_app. reflexivity.
      * destruct (isSeparator c && startsWithLetter s).
        -- rewrite <- (IH (Token (t ++ [c]))). cbn [lowerChunk].
           rewrite fmap_app. reflexivity.
        -- rewrite !renderAll_cons. cbn [renderChunk].
           rewrite transformWordToken_lower, (asciiLower_other c Hl).
           rewrite <- (IH (Gap [c])). reflexivity.
Qed.

Lemma convertText_lower (input : jsstring) :
  Orchestrator.convertText wordPart (asciiLower <$> input)
  = Orchestrator.convertText wordPart input.
Proof.
  rewrite !convertText_renderAll. unfold chunks.
  rewrite <- (renderAll_lower input (Gap [])). reflexivity.
Qed.

End CaseOfTokens.

(** X20: the case of the input does not matter.  Two inputs that differ
    only in the case of ASCII letters are converted to the same output, and
    so are two such word-parts by [transformWordPart]: every test of the
    pipeline reads the letters through [toUpperCase] or [toLowerCase], the
    exception patterns ignore case, and the result is upper-cased. *)
Theorem case_of_the_input_does_not_matter (a b : jsstring) :
  asciiLower <$> a = asciiLower <$> b ->
  convertText a = convertText b /\ transformWordPart a = transformWordPart b.
Proof.
  intros H. split; [|apply transformWordPart_same, H].
  assert (Hpart : forall p, transformWordPart (asciiLower <$> p) = transformWordPart p).
  { intros p. apply transformWordPart_same. rewrite <- list_fmap_compose.
    apply list_fmap_ext. intros _ c _. cbn. unfold asciiLower at 1.
    destruct ((65 <=? asciiLower c) && (asciiLower c <=? 90)) eqn:Hc; [|reflexivity].
    exfalso. unfold asciiLower in Hc. revert Hc. case_bools; intros Heq; try discriminate; lia. }
  unfold convertText.
  rewrite <- (convertText_lower transformWordPart Hpart a), H.
  apply (convertText_lower transformWordPart Hpart b).
Qed.

Lemma case_of_the_input_does_not_matter_witness :
  convertText (str "ReAction") = convertText (str "reaction")
  /\ transformWordPart (str "ReAction") = transformWordPart (str "reaction").
Proof.
  apply (case_of_the_input_does_not_matter (str "ReAction") (str "reaction")).
  reflexivity.
Defined.

(** ** The onset rules, letter by letter *)

Lemma isConsonantLetter_spec (c : char) :
  isConsonantLetter c = true <-> consonantChar c.
Proof.
  unfold isConsonantLetter, consonantChar.
  rewrite andb_true_iff, negb_true_iff, <- has_VOWELS.
  destruct (has VOWELS (chUpper c)); intuition congruence.
Qed.

Lemma upper_is (c u : char) :
  65 <= u <= 90 -> streq (chUpper c) [u] = true <-> c = u \/ c = u + 32.
Proof. intros Hu. rewrite streq_true, chUpper_upperCp. apply upperCp_capital, Hu. Qed.

Lemma len_two (a b : seg) (l : list seg) : (2 <=? len (a :: b :: l))%Z = true.
Proof. apply Z.leb_le. unfold len. cbn [length]. lia. Qed.

Lemma len_three (a b c : seg) (l : list seg) : (3 <=? len (a :: b :: c :: l))%Z = true.
Proof. apply Z.leb_le. unfold len. cbn [length]. lia. Qed.





Lemma startsCCR_test (s0 s1 s2 : seg) (rest : list seg) :
  isConsonantLetter (ch s0) && isConsonantLetter (ch s1)
    && streq (chUpper (ch s2)) [82] = true <->
  startsCCR (segToString (s0 :: s1 :: s2 :: rest)).
Proof.
  rewrite !andb_true_iff, !isConsonantLetter_spec, (upper_is _ 82 ltac:(lia)). split.
  - intros [[H0 H1] H2]. exists (ch s0), (ch s1), (ch s2), (segToString rest). auto.
  - intros (a & b & r & t & [= <- <- <- _] & H0 & H1 & H2). auto.
Qed.

Lemma startsCL_test (s0 s1 : seg) (rest : list seg) :
  isConsonantLetter (ch s0)
    && (streq (chUpper (ch s1)) [82] || streq (chUpper (ch s1)) [76]) = true <->
  startsCL (segToString (s0 :: s1 :: rest)).
Proof.
  rewrite andb_true_iff, orb_true_iff, isConsonantLetter_spec,
    (upper_is _ 82 ltac:(lia)), (upper_is _ 76 ltac:(lia)). split.
  - intros [H0 H1]. exists (ch s0), (ch s1), (segToString rest).
    split; [reflexivity|]. split; [exact H0|].
    change (76 + 32) with 108 in H1. change (82 + 32) with 114 in H1. tauto.
  - intros (a & b & t & [= <- <- _] & H0 & H1).
    change (76 + 32) with 108. change (82 + 32) with 114. tauto.
Qed.

(** X22: the cluster stage, as written.  Consonant, consonant, R at the
    start (Y counts as a consonant; the case does not matter) gets a
    synthesized A after the second segment; failing that, consonant and R or
    L at the start gets a synthesized A after the first segment; every other
    array is returned as it is.  The stage never throws. *)
Theorem applyClusterInsertions_literal (segs : list seg) :
  (startsCCR (segToString segs) ->
     applyClusterInsertions segs
     = Normal (take 2 segs ++ Seg 65 false :: drop 2 segs)) /\
  (~ startsCCR (segToString segs) -> startsCL (segToString segs) ->
     applyClusterInsertions segs
     = Normal (take 1 segs ++ Seg 65 false :: drop 1 segs)) /\
  (~ startsCCR (segToString segs) -> ~ startsCL (segToString segs) ->
     applyClusterInsertions segs = Normal segs).
Proof.
  unfold applyClusterInsertions.
  change (str "R") with [82]. change (str "L") with [76].
  change (segFromString (str "A") false) with [Seg 65 false].
  split; [|split].
  - intros H. pose proof H as (a & b & r & t & Hs & _).
    destruct segs as [|s0 [|s1 [|s2 rest]]]; try discriminate.
    rewrite len_three. cbn [bind segAt lookup list_lookup].
    rewrite (proj2 (startsCCR_test s0 s1 s2 rest) H). cbn [bind].
    change (s0 :: s1 :: s2 :: rest) with ([s0; s1] ++ [] ++ s2 :: rest).
    rewrite (spliceSegs_middle [s0; s1] []). reflexivity.
  - intros Hnot H. pose proof H as (a & b & t & Hs & _).
    destruct segs as [|s0 [|s1 rest]]; try discriminate.
    assert (Hfirst :
      (if (3 <=? len (s0 :: s1 :: rest))%Z
       then let* s0' := segAt (s0 :: s1 :: rest) 0 in
            let* s1' := segAt (s0 :: s1 :: rest) 1 in
            let* s2' := segAt (s0 :: s1 :: rest) 2 in
            Normal (isConsonantLetter (ch s0') && isConsonantLetter (ch s1')
                    && streq (chUpper (ch s2')) [82])
       else Normal false) = Normal false).
    { destruct rest as [|s2 rest]; [reflexivity|].
      rewrite len_three. cbn [bind segAt lookup list_lookup].
      destruct (_ && _ && _) eqn:Ht; [|reflexivity].
      apply (startsCCR_test s0 s1 s2 rest) in Ht. contradiction. }
    rewrite Hfirst. cbn [bind]. rewrite len_two. cbn [bind segAt lookup list_lookup].
    rewrite (proj2 (startsCL_test s0 s1 rest) H).
    change (s0 :: s1 :: rest) with ([s0] ++ [] ++ s1 :: rest).
    rewrite (spliceSegs_middle [s0] []). reflexivity.
  - intros Hnot Hnot2.
    destruct segs as [|s0 [|s1 rest]]; [reflexivity..|].
    assert (Hfirst :
      (if (3 <=? len (s0 :: s1 :: rest))%Z
       then let* s0' := segAt (s0 :: s1 :: rest) 0 in
            let* s1' := segAt (s0 :: s1 :: rest) 1 in
            let* s2' := segAt (s0 :: s1 :: rest) 2 in
            Normal (isConsonantLetter (ch s0') && isConsonantLetter (ch s1')
                    && streq (chUpper (ch s2')) [82])
       else Normal false) = Normal false).
    { destruct rest as [|s2 rest]; [reflexivity|].
      rewrite len_three. cbn [bind segAt lookup list_lookup].
      destruct (_ && _ && _) eqn:Ht; [|reflexivity].
      apply (startsCCR_test s0 s1 s2 rest) in Ht. contradiction. }
    rewrite Hfirst. cbn [bind]. rewrite len_two. cbn [bind segAt lookup list_lookup].
    destruct (_ && (_ || _)) eqn:Ht; [|reflexivity].
    apply (startsCL_test s0 s1 rest) in Ht. contradiction.
Qed.

Lemma applyClusterInsertions_literal_witness :
  applyClusterInsertions (segFromString (str "Shrink") true)
    = Normal (segFromString (str "Sh") true ++ Seg 65 false
              :: segFromString (str "rink") true) /\
  applyClusterInsertions (segFromString (str "fly") true)
    = Normal (segFromString (str "f") true ++ Seg 65 false
              :: segFromString (str "ly") true) /\
  applyClusterInsertions (segFromString (str "ally") true)
    = Normal (segFromString (str "ally") true).
Proof.
  assert (Hv : forall c, ~ vowelChar c <-> c ∉ [65; 69; 73; 79; 85; 97; 101; 105; 111; 117])
    by (intros c; reflexivity).
  split; [|split].
  - apply (proj1 (applyClusterInsertions_literal (segFromString (str "Shrink") true))).
    exists 83, 104, 114, (str "ink").
    repeat split; auto; apply Hv; rewrite !not_elem_of_cons; repeat split;
      try discriminate; apply not_elem_of_nil.
  - apply (proj1 (proj2 (applyClusterInsertions_literal (segFromString (str "fly") true)))).
    + intros (a & b & r & t & [= <- <- <- <-] & _ & _ & [Hr|Hr]); discriminate.
    + exists 102, 108, (str "y").
      repeat split; auto; apply Hv; rewrite !not_elem_of_cons; repeat split;
        try discriminate; apply not_elem_of_nil.
  - apply (proj2 (proj2 (applyClusterInsertions_literal (segFromString (str "ally") true)))).
    + intros (a & b & r & t & [= <- <- <- <-] & _ & _ & [Hr|Hr]); discriminate.
    + intros (a & b & t & [= <- <- <-] & [_ Ha] & _). apply Ha.
      unfold vowelChar. rewrite !elem_of_cons. auto 12.
Defined.

(** ** The older copy: the U rule and the exception table *)




Lemma duplicate_applyExceptions_words (part : jsstring) :
  Duplicate.applyExceptions part =
  match lookupWord olderExceptionWords (asciiLower <$> part) with
  | Some o => ExResult true o
  | None => ExResult false part
  end.
Proof.
  unfold Duplicate.applyExceptions, Duplicate.EXCEPTIONS, olderExceptionWords, rx.
  cbn [applyExceptionsIn exMatches regExpMatch existsb exOutOf evalOut lookupWord
       fmap list_fmap].
  rewrite !matchesWord_small by reflexivity.
  generalize (asciiLower <$> part). intros l.
  repeat (match goal with |- context [streq l ?w] => destruct (streq l w) end;
          cbn [orb]; try reflexivity).
Qed.

(** X24: the exception table of the engine is the table of the older copy
    with "very" and "well" put in front.  On these two words, in any case,
    the engine answers WELL and the older copy does not hit; on every other
    word-part the two tables answer alike. *)
Theorem exception_table_extends_the_older_one (part : jsstring) :
  (In (asciiLower <$> part) [str "very"; str "well"] ->
     applyExceptions part = ExResult true (str "WELL") /\
     Duplicate.applyExceptions part = ExResult false part) /\
  (~ In (asciiLower <$> part) [str "very"; str "well"] ->
     applyExceptions part = Duplicate.applyExceptions part).
Proof.
  rewrite applyExceptions_words, duplicate_applyExceptions_words.
  generalize (asciiLower <$> part). intros l.
  unfold exceptionWords, olderExceptionWords. cbn [lookupWord In].
  split.
  - intros [<-|[<-|[]]]; split; reflexivity.
  - intros Hnot.
    destruct (streq l (str "very")) eqn:E1;
      [apply streq_true in E1; subst l; tauto|].
    destruct (streq l (str "well")) eqn:E2;
      [apply streq_true in E2; subst l; tauto|].
    reflexivity.
Qed.

(** ** Splice, in and out of range *)

(** X25: [spliceSegs] with its clamping.  Inside the array it replaces the
    segments from [start] up to [end]; with [end] before [start] it removes
    nothing and inserts at [start]; with [start] beyond the last segment it
    appends; with a negative [start] it counts from the end.  What is
    outside the range stays as it is, in its order. *)
Theorem spliceSegs_clamps (before mid after ins : list seg) (x : seg) (k : nat) :
  spliceSegs (before ++ mid ++ after) (len before) (len before + len mid) ins
    = before ++ ins ++ after /\
  spliceSegs (before ++ after) (len before) (len before - Z.of_nat k) ins
    = before ++ ins ++ after /\
  spliceSegs before (len before + Z.of_nat k) (len before + Z.of_nat k + len mid) ins
    = before ++ ins /\
  spliceSegs (before ++ x :: mid ++ after) (- len (x :: mid ++ after)) (- len after) ins
    = before ++ ins ++ after.
Proof.
  split; [apply spliceSegs_middle|]. split; [|split].
  - unfold spliceSegs. rewrite length_app. unfold len.
    destruct (Z.ltb_spec (Z.of_nat (length before)) 0); [lia|].
    rewrite Z.min_l by lia. rewrite Z.max_r by lia. rewrite Z.min_l by lia.
    rewrite Z.add_0_r, Nat2Z.id, take_app_length, drop_app_length. reflexivity.
  - unfold spliceSegs, len.
    destruct (Z.ltb_spec (Z.of_nat (length before) + Z.of_nat k) 0); [lia|].
    rewrite Z.min_r by lia. rewrite (Z.min_r _ (_ - _)) by lia.
    rewrite Z.sub_diag, Z.add_0_r, Nat2Z.id, firstn_all, drop_all, app_nil_r.
    reflexivity.
  - unfold spliceSegs, len. rewrite !length_app. cbn [length]. rewrite !length_app.
    destruct (Z.ltb_spec (- Z.of_nat (S (length mid + length after))) 0); [|lia].
    rewrite Z.max_l by lia.
    replace (Z.to_nat (Z.of_nat (length before + S (length mid + length after))
                       + - Z.of_nat (S (length mid + length after))))
      with (length before) by lia.
    rewrite take_app_length.
    match goal with |- context [drop ?n _] =>
      replace n with (length before + (S (length mid)))%nat by lia end.
    rewrite <- drop_drop, drop_app_length.
    change (x :: mid ++ after) with ((x :: mid) ++ after).
    replace (S (length mid)) with (length (x :: mid)) by reflexivity.
    rewrite drop_app_length. reflexivity.
Qed.

(** X26: the older copy converts a text the same way.  Its [convertText]
    returns normally on every input, in upper case, and converts the two
    sides of a character of Basic Latin or Latin-1 that is no ASCII letter
    independently: the loops over tokens and text are those of the engine,
    whatever the rules of [transformWordPart] are. *)
Theorem older_copy_converts_side_by_side (a b : jsstring) (c : char) :
  c < 256 -> isLetter c = false ->
  exists x y,
    Duplicate.convertText a = Normal x /\ Duplicate.convertText b = Normal y /\
    Duplicate.convertText (a ++ c :: b) = Normal (x ++ toUpperCase [c] ++ y) /\
    toUpperCase x = x /\ toUpperCase y = y.
Proof.
  intros _ Hc.
  assert (Hup : forall input, exists out,
            Duplicate.convertText input = Normal out /\ toUpperCase out = out).
  { intros input.
    destruct (renderChunks_total Duplicate.transformWordPart
                duplicate_transformWordPart_total input) as [outs Houts].
    exists (toUpperCase (concat outs)). split; [|apply toUpperCase_settled].
    unfold Duplicate.convertText. rewrite convertText_chunks, Houts. reflexivity. }
  destruct (Hup a) as (x & Hx & Hxx). destruct (Hup b) as (y & Hy & Hyy).
  exists x, y. repeat split; try assumption.
  unfold Duplicate.convertText in *.
  rewrite (convertText_around Duplicate.transformWordPart a b c Hc), Hx, Hy.
  reflexivity.
Qed.

Lemma older_copy_converts_side_by_side_witness :
  exists x y,
    Duplicate.convertText (str "unit") = Normal x /\
    Duplicate.convertText (str "test") = Normal y /\
    Duplicate.convertText (str "unit" ++ 32 :: str "test")
      = Normal (x ++ toUpperCase [32] ++ y) /\
    toUpperCase x = x /\ toUpperCase y = y.
Proof.
  apply (older_copy_converts_side_by_side (str "unit") (str "test") 32).
  - reflexivity.
  - reflexivity.
Defined.

(** ** Which vowels are swapped, exactly *)







(** ** What [convertText] does with a run of letters and with the rest *)

Lemma chunksFrom_other (s : jsstring) :
  Forall (fun c => isLetter c = false) s ->
  forall g, chunksFrom s (Gap g) = [Gap (g ++ s)].
Proof.
  induction 1 as [|c s Hc _ IH]; intros g; cbn [chunksFrom].
  - rewrite app_nil_r. reflexivity.
  - rewrite Hc, IH, <- app_assoc. reflexivity.
Qed.

(** X28: [convertText] on the pieces of a text.  A text without ASCII
    letters is upper-cased and nothing else; a run of ASCII letters is one
    word-part and comes out as [transformWordPart] returns it. *)
Theorem convertText_on_the_pieces (s : jsstring) :
  (Forall (fun c => isLetter c = false) s ->
     convertText s = Normal (toUpperCase s)) /\
  (Forall (fun c => isLetter c = true) s -> s <> [] ->
     convertText s = transformWordPart s).
Proof.
  unfold convertText. rewrite convertText_renderAll. unfold chunks, renderAll. split.
  - intros Hs. rewrite (chunksFrom_other s Hs []). cbn [mapC renderChunk bind concat app].
    rewrite app_nil_r. reflexivity.
  - intros Hs Hne. destruct Hs as [|l w Hl Hw]; [congruence|].
    cbn [chunksFrom]. rewrite Hl.
    rewrite (chunksFrom_letters w Hw [l]). cbn [mapC renderChunk app bind].
    rewrite transformWordToken_run.
    2:{ constructor; [apply letter_not_separator, Hl|].
        eapply Forall_impl; [exact Hw|]. apply letter_not_separator. }
    destruct (transformWordPart_letters (l :: w)) as (out & -> & Hcap & _);
      [constructor; assumption|].
    cbn [bind concat app]. rewrite app_nil_r, (capital_fixed out Hcap). reflexivity.
Qed.

Lemma convertText_on_the_pieces_witness :
  convertText (str "1, 2 -- 3!") = Normal (toUpperCase (str "1, 2 -- 3!")) /\
  convertText (str "Friendly") = transformWordPart (str "Friendly").
Proof.
  split.
  - apply (proj1 (convertText_on_the_pieces (str "1, 2 -- 3!"))). repeat constructor.
  - apply (proj2 (convertText_on_the_pieces (str "Friendly")));
      [repeat constructor|discriminate].
Defined.
